(** * NRC-23: colour-magnitude comparison of PSF photometry

    A shallow embedding of the analysis notebook
    [nircam_calib/commissioning/NRC_23_img_quality/NRC-23_cmd_psf_phot.ipynb]:
    catalogue cleaning (3.4), pixel-to-sky transformation (4), the
    filter-1 / filter-2 cross-match (5), the field-of-view selection of the
    LMC catalogue (6.2) and its cross-match with the photometry (6.3).

    Numbers are IEEE-754 binary64 values, as numpy has them, given by the
    standard library's executable specification [spec_float].  The external
    collaborators ([numpy.log10], the WCS of an image, astropy's [SkyCoord]
    constructor, angular separation and [match_coordinates_sky]) are
    parameters of the development. *)

From Stdlib Require Import ZArith SpecFloat PrimFloat FloatOps Lia Sorted.
From Stdlib Require OrderedTypeEx.
From stdpp Require Import gmap strings list fin_maps.

Set Warnings "-inexact-float".

(* ===================================================================== *)
(** ** binary64 arithmetic *)
(* ===================================================================== *)

Module F64.

Definition prec : Z := 53.
Definition emax : Z := 1024.

Definition float64 : Type := spec_float.

Definition fmul : float64 -> float64 -> float64 := SFmul prec emax.
Definition fdiv : float64 -> float64 -> float64 := SFdiv prec emax.
Definition fsub : float64 -> float64 -> float64 := SFsub prec emax.
Definition fabs : float64 -> float64 := SFabs.

(** [flt x y] is numpy's [x < y] and [fle x y] is [x <= y]; both are false
    as soon as one side is NaN. *)
Definition flt : float64 -> float64 -> bool := SFltb.
Definition fle : float64 -> float64 -> bool := SFleb.

(** A Python [int] met by a float operand is converted to the nearest
    binary64 value. *)
Definition of_int (z : Z) : float64 := binary_normalize prec emax z 0 false.

(** The float literals of the notebook. *)
Definition max_sep : float64 := Eval vm_compute in Prim2SF 0.5%float.
Definition pixelscale : float64 := Eval vm_compute in Prim2SF 0.031%float.
Definition minus_2_5 : float64 := Eval vm_compute in Prim2SF (-2.5)%float.
Definition c_1_086 : float64 := Eval vm_compute in Prim2SF 1.086%float.

(** [numpy.isnan] and [numpy.isfinite]. *)
Definition is_nan (x : float64) : bool :=
  match x with
  | S754_nan => true
  | _ => false
  end.

Definition is_finite (x : float64) : bool :=
  match x with
  | S754_zero _ | S754_finite _ _ _ => true
  | _ => false
  end.

(** [numpy.finfo(float).tiny], the smallest positive normal number,
    [2 ** -1022]. *)
Definition tiny : float64 :=
  Eval vm_compute in SFldexp prec emax (binary_normalize prec emax 1 0 false) (-1022).

End F64.
Import F64.

(* ===================================================================== *)
(** ** numpy arrays as lists *)
(* ===================================================================== *)

Section Arrays.
Context {A : Type}.

(** The entries of [l] at which [mask] is true, in order. *)
Fixpoint select (mask : list bool) (l : list A) : list A :=
  match mask, l with
  | b :: mask', x :: l' => if b then x :: select mask' l' else select mask' l'
  | _, _ => []
  end.

(** [a[mask]]: boolean-mask indexing; numpy raises [IndexError] unless the
    mask is as long as the array. *)
Definition mask_index (mask : list bool) (l : list A) : option (list A) :=
  if decide (length mask = length l) then Some (select mask l) else None.

(** [a[idx]] for an integer array [idx], column by column, once the indices
    have been checked against the number of rows. *)
Definition pick (idx : list nat) (l : list A) : list A :=
  omap (fun i => l !! i) idx.

End Arrays.

(** [numpy.flatnonzero mask], counting from [n]. *)
Fixpoint positions_from (n : nat) (mask : list bool) : list nat :=
  match mask with
  | [] => []
  | b :: mask' =>
      if b then n :: positions_from (S n) mask' else positions_from (S n) mask'
  end.

Definition positions (mask : list bool) : list nat := positions_from 0 mask.

(** [numpy.count_nonzero mask]. *)
Definition count_true (mask : list bool) : nat := length (positions mask).

(** Element-wise comparisons of an array with a scalar, and [&] (on the
    columns of one table, which have one length). *)
Definition gt_scalar (v : list float64) (s : float64) : list bool :=
  (fun x => flt s x) <$> v.
Definition lt_scalar (v : list float64) (s : float64) : list bool :=
  (fun x => flt x s) <$> v.
Definition and_mask (a b : list bool) : list bool := zip_with andb a b.

(* ===================================================================== *)
(** ** External collaborators *)
(* ===================================================================== *)

(** What the notebook takes from numpy and astropy.  [Coord] is one sky
    position, [SkyCoord ra dec] is [SkyCoord(ra, dec, unit='deg')] on one
    pair of angles (taken to accept what a WCS returns), [arcsec] is the
    [.arcsec] attribute of an [Angle], [separation] is the angular
    separation of two positions, and [match_coordinates_sky m c] returns
    [(idx, d2d)], or raises when the catalogue [c] is empty. *)
Class Externals := {
  Coord : Type;
  Angle : Type;
  SkyCoord : float64 -> float64 -> Coord;
  arcsec : Angle -> float64;
  separation : Coord -> Coord -> Angle;
  match_coordinates_sky :
    list Coord -> list Coord -> option (list nat * list Angle);
  log10 : float64 -> float64
}.

(** An [ImageModel]: [shape] is [(rows, columns)], [wcs] is [meta.wcs],
    from pixel [(x, y)] to [(ra, dec)] in degrees. *)
Record Image := {
  shape : Z * Z;
  wcs : float64 -> float64 -> float64 * float64
}.

(* ===================================================================== *)
(** ** Tables *)
(* ===================================================================== *)

Section Tables.
Context `{Ext : Externals}.

(** A column of floats that [QTable.from_pandas] loaded is given by its
    values: it is a [MaskedColumn], with its NaN entries masked, when it
    holds a NaN, and a plain [Column] otherwise.  [MaskedCol] is a
    [MaskedColumn] that an operation of [numpy.ma] returned, given entry by
    entry, [None] for a masked entry. *)
Inductive column :=
| FloatCol (v : list float64)
| IntCol (v : list Z)
| CoordCol (v : list Coord)
| MaskedCol (v : list (option float64)).

Inductive value :=
| VFloat (x : float64)
| VInt (z : Z)
| VCoord (c : Coord)
| VMasked.

(** An entry of a [MaskedColumn] as a value. *)
Definition entry_value (o : option float64) : value :=
  match o with
  | Some x => VFloat x
  | None => VMasked
  end.

(** An astropy [Table] (or a pandas [DataFrame]): named columns, all of
    length [nrows]. *)
Record Table := { nrows : nat; cols : gmap string column }.

Definition col_len (c : column) : nat :=
  match c with
  | FloatCol v => length v
  | IntCol v => length v
  | CoordCol v => length v
  | MaskedCol v => length v
  end.

Definition col_lookup (c : column) (k : nat) : option value :=
  match c with
  | FloatCol v => VFloat <$> v !! k
  | IntCol v => VInt <$> v !! k
  | CoordCol v => VCoord <$> v !! k
  | MaskedCol v => entry_value <$> v !! k
  end.

Definition col_select (mask : list bool) (c : column) : column :=
  match c with
  | FloatCol v => FloatCol (select mask v)
  | IntCol v => IntCol (select mask v)
  | CoordCol v => CoordCol (select mask v)
  | MaskedCol v => MaskedCol (select mask v)
  end.

Definition col_pick (idx : list nat) (c : column) : column :=
  match c with
  | FloatCol v => FloatCol (pick idx v)
  | IntCol v => IntCol (pick idx v)
  | CoordCol v => CoordCol (pick idx v)
  | MaskedCol v => MaskedCol (pick idx v)
  end.

Definition table_wf (t : Table) : Prop :=
  map_Forall (fun _ c => col_len c = nrows t) (cols t).

(** Row [k] of a table, as the values of its columns at [k]. *)
Definition row (t : Table) (k : nat) : gmap string value :=
  omap (fun c => col_lookup c k) (cols t).

(** [t[name]] for a column of floats; [KeyError] when the column is
    missing. *)
Definition float_col (t : Table) (name : string) : option (list float64) :=
  match cols t !! name with
  | Some (FloatCol v) => Some v
  | _ => None
  end.

Definition coord_col (t : Table) (name : string) : option (list Coord) :=
  match cols t !! name with
  | Some (CoordCol v) => Some v
  | _ => None
  end.

(** Whether the column [name] of a loaded catalogue is a [MaskedColumn]. *)
Definition masked_column (t : Table) (name : string) : bool :=
  match cols t !! name with
  | Some (FloatCol v) => existsb is_nan v
  | Some (MaskedCol _) => true
  | _ => false
  end.

(** [t[mask]] and [df.loc[mask]]: the rows at which the mask is true. *)
Definition table_select (mask : list bool) (t : Table) : option Table :=
  if decide (length mask = nrows t)
  then Some {| nrows := count_true mask; cols := col_select mask <$> cols t |}
  else None.

(** [t[idx]]: the rows at the given positions; [IndexError] when a position
    is past the last row. *)
Definition table_take (idx : list nat) (t : Table) : option Table :=
  if forallb (fun i => i <? nrows t) idx
  then Some {| nrows := length idx; cols := col_pick idx <$> cols t |}
  else None.

(** [Table()]. *)
Definition empty_table : Table := {| nrows := 0; cols := ∅ |}.

(** [t[name] = c]: replaces or adds a column.  The first column of a table
    fixes its length; a later one of another length raises [ValueError]. *)
Definition set_col (name : string) (c : column) (t : Table) : option Table :=
  if decide (size (cols t) = 0)
  then Some {| nrows := col_len c; cols := {[ name := c ]} |}
  else if decide (col_len c = nrows t)
       then Some {| nrows := nrows t; cols := <[ name := c ]> (cols t) |}
       else None.

End Tables.

(* ===================================================================== *)
(** ** The notebook, cell by cell *)
(* ===================================================================== *)

Section Notebook.
Context `{Ext : Externals}.

(** *** 3.4 Clean the catalogs *)

(** [mask_1] / [mask_2]; [shape0] is [images[0].shape]. *)
Definition clean_mask (shape0 : Z * Z) (x y flux : list float64) : list bool :=
  and_mask
    (and_mask
       (and_mask
          (and_mask (gt_scalar x (of_int 0)) (lt_scalar x (of_int (shape0.2))))
          (gt_scalar y (of_int 0)))
       (lt_scalar y (of_int (shape0.1))))
    (gt_scalar flux (of_int 0)).

Definition inst_mag (flux : list float64) : list float64 :=
  (fun v => fmul minus_2_5 (log10 v)) <$> flux.

(** The domain of [numpy.ma]'s division: the quotient [a / b] is masked
    when it is not finite or when [|a| * tiny >= |b|]. *)
Definition ma_masks (a b : float64) : bool :=
  negb (is_finite (fdiv a b)) || fle (fabs b) (fmul (fabs a) tiny).

(** One entry of [1.086 * (flux_unc / flux_fit)]: the division of plain
    columns is numpy's, and that of a [MaskedColumn] ([masked]) is
    [numpy.ma]'s, which masks as above (a masked operand is a NaN, so its
    quotient is not finite); the product keeps the mask. *)
Definition err_entry (masked : bool) (u v : float64) : option float64 :=
  if masked && ma_masks u v then None else Some (fmul c_1_086 (fdiv u v)).

Definition inst_err (masked : bool) (unc flux : list float64) : column :=
  if masked
  then MaskedCol (zip_with (err_entry true) unc flux)
  else FloatCol (zip_with (fun u v => fmul c_1_086 (fdiv u v)) unc flux).

(** The body of the loop: [im0] is the first image of the filter's set and
    [t] the catalogue as loaded, so that the quotient is [numpy.ma]'s when
    its [flux_unc] or its [flux_fit] column holds a NaN. *)
Definition clean_one (im0 : Image) (filt : string) (t : Table) : option Table :=
  x ← float_col t "x_fit";
  y ← float_col t "y_fit";
  flux ← float_col t "flux_fit";
  result_clean ← table_select (clean_mask (shape im0) x y flux) t;
  flux_c ← float_col result_clean "flux_fit";
  t1 ← set_col (filt +:+ "_inst") (FloatCol (inst_mag flux_c)) result_clean;
  unc ← float_col t1 "flux_unc";
  flux_c' ← float_col t1 "flux_fit";
  set_col ("e" +:+ filt +:+ "_inst")
          (inst_err (masked_column t "flux_unc" || masked_column t "flux_fit")
                    unc flux_c')
          t1.

(** [for i in np.arange(0, len(images), 1)]. *)
Definition results_clean (images : list Image) (results : list Table)
    (filt : string) : option (list Table) :=
  mapM (fun i => t ← results !! i; im0 ← images !! 0; clean_one im0 filt t)
       (seq 0 (length images)).

(** *** 4. Transform pixel to equatorial coordinates *)

Definition pixel_to_sky (im : Image) (x y : list float64) : list Coord :=
  zip_with (fun a b => SkyCoord (wcs im a b).1 (wcs im a b).2) x y.

(** The body of the loop.  In the notebook [result_final] is the cleaned
    table itself, which gains the column; no later cell reads
    [results_clean] again. *)
Definition to_sky (im : Image) (t : Table) : option Table :=
  x ← float_col t "x_fit";
  y ← float_col t "y_fit";
  set_col "radec" (CoordCol (pixel_to_sky im x y)) t.

Definition results_final (images : list Image) (cleaned : list Table)
    : option (list Table) :=
  mapM (fun i => t ← cleaned !! i; im ← images !! i; to_sky im t)
       (seq 0 (length images)).

(** *** 5. Cross-match the catalogs *)

(** [(d2d.arcsec / pixelscale) < max_sep]. *)
Definition sep_constraint (d2d : list Angle) : list bool :=
  (fun d => flt (fdiv (arcsec d) pixelscale) max_sep) <$> d2d.

(** The body of the double loop. *)
Definition cross_match (res1 res2 : Table) : option (Table * Table) :=
  c1 ← coord_col res1 "radec";
  c2 ← coord_col res2 "radec";
  '(idx, d2d) ← match_coordinates_sky c1 c2;
  match_phot_1 ← table_select (sep_constraint d2d) res1;
  kept ← mask_index (sep_constraint d2d) idx;
  match_phot_2 ← table_take kept res2;
  Some (match_phot_1, match_phot_2).

(** [for res1 in results_final_1: for res2 in results_final_2: ...]; the
    result is [(matches_phot_1, matches_phot_2)]. *)
Definition matches_phot (finals1 finals2 : list Table)
    : option (list Table * list Table) :=
  ms ← mapM (fun res1 => mapM (fun res2 => cross_match res1 res2) finals2)
            finals1;
  Some ((concat ms).*1, (concat ms).*2).

(** *** 6.2 Select a sub-region coincident with the field of view *)

(** [sorted([a, b])]. *)
Definition sorted2 (a b : float64) : float64 * float64 :=
  if flt b a then (b, a) else (a, b).

Definition fov_mask (ra_lim : float64 * float64) (dec_lim : float64 * float64)
    (ra de : list float64) : list bool :=
  and_mask
    (and_mask
       (and_mask (gt_scalar ra (ra_lim.1)) (lt_scalar ra (ra_lim.2)))
       (gt_scalar de (dec_lim.1)))
    (lt_scalar de (dec_lim.2)).

(** [ra_lim] and [dec_lim] of the cell. *)
Definition fov_limits (im0 : Image)
    : (float64 * float64) * (float64 * float64) :=
  let xlim0 := 0%Z in
  let ylim0 := 0%Z in
  let xlim1 := (shape im0).2 in
  let ylim1 := (shape im0).1 in
  let lim0 := wcs im0 (of_int xlim0) (of_int ylim0) in
  let lim1 := wcs im0 (of_int (xlim1 - 1)) (of_int (ylim1 - 1)) in
  (sorted2 (lim0.1) (lim1.1), (lim0.2, lim1.2)).

Definition cat_sel (images_1 : list Image) (cat : Table) : option Table :=
  im0 ← images_1 !! 0;
  ra ← float_col cat "ra_in";
  de ← float_col cat "dec_in";
  table_select (fov_mask (fov_limits im0).1 (fov_limits im0).2 ra de) cat.

(** *** 6.3 Cross-match with the LMC astrometric catalog *)

(** Returns [(match_phot_inp, match_phot_out_1, match_phot_out_2)]. *)
Definition ref_match (filt1 filt2 : string) (sel : Table)
    (matches_phot_1 matches_phot_2 : list Table)
    : option (Table * Table * Table) :=
  ra ← float_col sel "ra_in";
  de ← float_col sel "dec_in";
  let radec_input := zip_with SkyCoord ra de in
  catalog1 ← matches_phot_1 !! 0;
  catalog2 ← matches_phot_2 !! 0;
  c1 ← coord_col catalog1 "radec";
  '(idx_inp, d2d_inp) ← match_coordinates_sky radec_input c1;
  let sc := sep_constraint d2d_inp in
  radec_m ← mask_index sc radec_input;
  t1 ← set_col "radec" (CoordCol radec_m) empty_table;
  mag1 ← float_col sel filt1;
  mag1_m ← mask_index sc mag1;
  t2 ← set_col filt1 (FloatCol mag1_m) t1;
  mag2 ← float_col sel filt2;
  mag2_m ← mask_index sc mag2;
  match_phot_inp ← set_col filt2 (FloatCol mag2_m) t2;
  kept ← mask_index sc idx_inp;
  match_phot_out_1 ← table_take kept catalog1;
  match_phot_out_2 ← table_take kept catalog2;
  Some (match_phot_inp, match_phot_out_1, match_phot_out_2).

(** *** 7. Color-Magnitude Diagrams comparison *)

(** Element-wise difference of two columns of one length. *)
Definition sub_arrays (a b : list float64) : option (list float64) :=
  if decide (length a = length b) then Some (zip_with fsub a b) else None.

(** The two panels: what is scattered, and the two counts written on the
    left panel. *)
Record Figure := {
  lmc_all : list float64 * list float64;
  lmc_matched : list float64 * list float64;
  n_fov : nat;
  n_matched : nat;
  psf_all : list float64 * list float64
}.

(** [col_out_match] is computed by the cell, but the call that would
    scatter it is commented out. *)
Definition plot_cmd (filt1 filt2 : string) (sel match_phot_inp : Table)
    (catalog1 catalog2 match_phot_out_1 match_phot_out_2 : Table)
    : option Figure :=
  a1 ← float_col sel filt1;
  a2 ← float_col sel filt2;
  col_inp ← sub_arrays a1 a2;
  mag_inp ← float_col sel filt1;
  b1 ← float_col match_phot_inp filt1;
  b2 ← float_col match_phot_inp filt2;
  col_inp_match ← sub_arrays b1 b2;
  mag_inp_match ← float_col match_phot_inp filt1;
  o1 ← float_col catalog1 (filt1 +:+ "_inst");
  o2 ← float_col catalog2 (filt2 +:+ "_inst");
  col_out ← sub_arrays o1 o2;
  mag_out ← float_col catalog1 (filt1 +:+ "_inst");
  p1 ← float_col match_phot_out_1 (filt1 +:+ "_inst");
  p2 ← float_col match_phot_out_2 (filt2 +:+ "_inst");
  col_out_match ← sub_arrays p1 p2;
  Some {| lmc_all := (col_inp, mag_inp);
          lmc_matched := (col_inp_match, mag_inp_match);
          n_fov := length mag_inp;
          n_matched := length mag_inp_match;
          psf_all := (col_out, mag_out) |}.

(** *** The whole analysis on loaded data *)

Record Inputs := {
  filt1 : string;
  filt2 : string;
  images_1 : list Image;
  images_2 : list Image;
  results_1 : list Table;
  results_2 : list Table;
  cat : Table
}.

Definition analysis (inp : Inputs) : option Figure :=
  clean1 ← results_clean (images_1 inp) (results_1 inp) (filt1 inp);
  clean2 ← results_clean (images_2 inp) (results_2 inp) (filt2 inp);
  final1 ← results_final (images_1 inp) clean1;
  final2 ← results_final (images_2 inp) clean2;
  '(mp1, mp2) ← matches_phot final1 final2;
  sel ← cat_sel (images_1 inp) (cat inp);
  '(match_phot_inp, out1, out2) ← ref_match (filt1 inp) (filt2 inp) sel mp1 mp2;
  catalog1 ← mp1 !! 0;
  catalog2 ← mp2 !! 0;
  plot_cmd (filt1 inp) (filt2 inp) sel match_phot_inp catalog1 catalog2
           out1 out2.

End Notebook.

(* ===================================================================== *)
(** ** Vocabulary of the statements *)
(* ===================================================================== *)

Section Vocabulary.
Context `{Ext : Externals}.

(** A photometry catalogue as loaded from its pickle: rectangular, with the
    four float columns the notebook reads. *)
Definition phot_table (t : Table) : Prop :=
  table_wf t ∧
  ∃ x y flux unc,
    cols t !! "x_fit" = Some (FloatCol x) ∧
    cols t !! "y_fit" = Some (FloatCol y) ∧
    cols t !! "flux_fit" = Some (FloatCol flux) ∧
    cols t !! "flux_unc" = Some (FloatCol unc).

(** A rectangular table with float pixel positions. *)
Definition pixel_table (t : Table) : Prop :=
  table_wf t ∧
  ∃ x y, cols t !! "x_fit" = Some (FloatCol x) ∧
         cols t !! "y_fit" = Some (FloatCol y).

(** A rectangular table with a [radec] column of sky positions. *)
Definition sky_table (t : Table) : Prop :=
  table_wf t ∧ ∃ c, cols t !! "radec" = Some (CoordCol c).

(** The pixel [(x, y)] is strictly inside an image of the given shape. *)
Definition strictly_inside (shape0 : Z * Z) (x y : float64) : Prop :=
  flt (of_int 0) x = true ∧ flt x (of_int (shape0.2)) = true ∧
  flt (of_int 0) y = true ∧ flt y (of_int (shape0.1)) = true.

(** The detection in row [r] has a fitted position strictly inside an image
    of the given shape and a strictly positive fitted flux. *)
Definition valid_detection (shape0 : Z * Z) (r : gmap string value) : Prop :=
  ∃ x y flux,
    r !! "x_fit" = Some (VFloat x) ∧ r !! "y_fit" = Some (VFloat y) ∧
    r !! "flux_fit" = Some (VFloat flux) ∧
    strictly_inside shape0 x y ∧ flt (of_int 0) flux = true.

(** The selected reference catalogue, as the cell reads it: rectangular,
    with float coordinates and the magnitudes of the two filters. *)
Definition ref_table (filt1 filt2 : string) (sel : Table) : Prop :=
  table_wf sel ∧
  ∃ ra de mag1 mag2,
    cols sel !! "ra_in" = Some (FloatCol ra) ∧
    cols sel !! "dec_in" = Some (FloatCol de) ∧
    cols sel !! filt1 = Some (FloatCol mag1) ∧
    cols sel !! filt2 = Some (FloatCol mag2).

(** The same, as a test. *)
Definition valid_detectionb (shape0 : Z * Z) (r : gmap string value) : bool :=
  match r !! "x_fit", r !! "y_fit", r !! "flux_fit" with
  | Some (VFloat x), Some (VFloat y), Some (VFloat flux) =>
      flt (of_int 0) x && flt x (of_int (shape0.2)) &&
      flt (of_int 0) y && flt y (of_int (shape0.1)) &&
      flt (of_int 0) flux
  | _, _, _ => false
  end.

(** [kept] lists row numbers in increasing order. *)
Definition increasing (kept : list nat) : Prop :=
  ∀ j j' k k', j < j' → kept !! j = Some k → kept !! j' = Some k' → k < k'.

End Vocabulary.

(* ===================================================================== *)
(** ** The oracle contract of [match_coordinates_sky] *)
(* ===================================================================== *)

Section Oracle.
Context `{Ext : Externals}.

(** Entry [j] of the catalogue [c] is a nearest neighbour of [p], at
    separation [d]: no entry of [c] is strictly closer to [p]. *)
Definition nearest_neighbour (p : Coord) (c : list Coord) (j : nat) (d : Angle)
    : Prop :=
  ∃ q, c !! j = Some q ∧ d = separation p q ∧
       ∀ q', q' ∈ c → flt (arcsec (separation p q')) (arcsec d) = false.

(** On a catalogue that is not empty, [match_coordinates_sky m c] returns
    one index into [c] and one separation per entry of [m], those of a
    nearest neighbour. *)
Definition oracle_contract : Prop :=
  ∀ (m c : list Coord), c ≠ [] →
    ∃ idx d2d,
      match_coordinates_sky m c = Some (idx, d2d) ∧
      length idx = length m ∧ length d2d = length m ∧
      ∀ k p j d, m !! k = Some p → idx !! k = Some j → d2d !! k = Some d →
                 nearest_neighbour p c j d.

End Oracle.

(* ===================================================================== *)
(** ** The file system and the run of the notebook *)
(* ===================================================================== *)

(** An entry of the working directory, symbolic links followed: a directory
    (or a link to one), a regular file (or a link to one), something else
    that [os.stat] finds (a FIFO, a socket, a device), or a symbolic link
    that does not resolve. *)
Inductive node :=
| Dir
| File (content : string)
| Special
| Dangling.

(** The working directory: its entries by name, and whether the process may
    search it and may create entries in it (permissions, mount options,
    free space). *)
Record FS := {
  entries : gmap string node;
  searchable : bool;
  writable : bool
}.

Definition figures_dir : string := "FIGURES/".

(** A path without its trailing separator, and whether it had one. *)
Fixpoint split_trailing_slash (p : string) : string * bool :=
  match p with
  | EmptyString => (EmptyString, false)
  | String c rest =>
      match rest with
      | EmptyString =>
          if Ascii.eqb c (Ascii.ascii_of_nat 47) (* "/" *)
          then (EmptyString, true)
          else (String c EmptyString, false)
      | _ => (String c (split_trailing_slash rest).1,
              (split_trailing_slash rest).2)
      end
  end.

(** [os.path.exists p], which is whether [os.stat p] succeeds: with a
    trailing separator only a directory counts, a link that does not
    resolve never does, and nothing does in a directory that may not be
    searched. *)
Definition path_exists (fs : FS) (p : string) : bool :=
  searchable fs &&
  match entries fs !! (split_trailing_slash p).1 with
  | Some Dir => true
  | Some (File _) | Some Special => negb (split_trailing_slash p).2
  | Some Dangling | None => false
  end.

(** [os.mkdir name]: [FileExistsError] when the name is taken, by whatever
    entry, and [PermissionError] or another [OSError] when the process may
    not create the entry. *)
Definition mkdir (fs : FS) (name : string) : option FS :=
  if searchable fs && writable fs
  then match entries fs !! name with
       | None => Some {| entries := <[ name := Dir ]> (entries fs);
                         searchable := searchable fs;
                         writable := writable fs |}
       | Some _ => None
       end
  else None.

(** [os.makedirs p] for a path of one component, which has no parent to
    create. *)
Definition makedirs (fs : FS) (p : string) : option FS :=
  mkdir fs (split_trailing_slash p).1.

(** The cell [if not os.path.exists(figures_dir): os.makedirs(figures_dir)]. *)
Definition figures_cell (fs : FS) : option FS :=
  if path_exists fs figures_dir then Some fs else makedirs fs figures_dir.

Section Run.
Context `{Ext : Externals}.

(** [load] stands for the reading cells ([glob], [fits.open], [ImageModel],
    [pd.read_pickle], [pd.read_csv]); they only read.  The call of
    [plt.savefig] is commented out in the notebook, so the figure stays in
    memory.  The file system left behind is returned also when a later cell
    raises. *)
Definition run (load : FS -> option Inputs) (fs : FS) : FS * option Figure :=
  match figures_cell fs with
  | None => (fs, None)
  | Some fs' => (fs', inp ← load fs'; analysis inp)
  end.

End Run.

(* ===================================================================== *)
(** ** A small instance of the collaborators *)
(* ===================================================================== *)

(** Positions are pairs of degrees, the separation of two positions is
    [|d ra| + |d dec|], the nearest neighbour is found by a linear scan and
    [log10] is a stand-in.  It serves to run the cells on small catalogues. *)
Module Demo.

Definition sep (p q : float64 * float64) : float64 :=
  SFadd prec emax (SFabs (fsub p.1 q.1)) (SFabs (fsub p.2 q.2)).

(** The best [(index, separation)] among [best] and the entries of [c],
    which are numbered from [j]. *)
Fixpoint scan (p : float64 * float64) (j : nat) (c : list (float64 * float64))
    (best : nat * float64) : nat * float64 :=
  match c with
  | [] => best
  | q :: c' => scan p (S j) c' (if flt (sep p q) best.2 then (j, sep p q) else best)
  end.

Definition nearest (c : list (float64 * float64)) (p : float64 * float64)
    : option (nat * float64) :=
  match c with
  | [] => None
  | q :: c' => Some (scan p 1 c' (0, sep p q))
  end.

Definition match_sky (m c : list (float64 * float64))
    : option (list nat * list float64) :=
  r ← mapM (nearest c) m;
  match c with
  | [] => None
  | _ => Some (r.*1, r.*2)
  end.

Definition ext : Externals := {|
  Coord := float64 * float64;
  Angle := float64;
  SkyCoord := pair;
  arcsec := fun d => d;
  separation := sep;
  match_coordinates_sky := match_sky;
  log10 := fun x => x
|}.

(** [q4 z] is [z / 4] and [sky z] is [z / 256]: the WCS below sends the
    pixel [(x, y)] to [(x / 64, y / 64)]. *)
Definition q4 (z : Z) : float64 := SFldexp prec emax (of_int z) (-2).
Definition sky (z : Z) : float64 := SFldexp prec emax (of_int z) (-8).

Definition scale_wcs (x y : float64) : float64 * float64 :=
  (SFldexp prec emax x (-6), SFldexp prec emax y (-6)).

(** As [scale_wcs], with Dec decreasing along y. *)
Definition flipped_wcs (x y : float64) : float64 * float64 :=
  (SFldexp prec emax x (-6), SFopp (SFldexp prec emax y (-6))).

(** Two images of 4 rows by 10 columns, one of 10 rows by 4 columns, and
    one whose Dec decreases along y. *)
Definition im_a : Image := {| shape := (4%Z, 10%Z); wcs := scale_wcs |}.
Definition im_b : Image := {| shape := (4%Z, 10%Z); wcs := scale_wcs |}.
Definition im_c : Image := {| shape := (10%Z, 4%Z); wcs := scale_wcs |}.
Definition im_flipped : Image := {| shape := (4%Z, 10%Z); wcs := flipped_wcs |}.

Definition phot (x y flux unc : list Z) : @Table ext :=
  {| nrows := length x;
     cols := {[ "id" := IntCol (Z.of_nat <$> seq 1 (length x));
                "x_fit" := FloatCol (q4 <$> x);
                "y_fit" := FloatCol (q4 <$> y);
                "flux_fit" := FloatCol (of_int <$> flux);
                "flux_unc" := FloatCol (of_int <$> unc) ]} |}.

(** Filter 1: detections at (2, 1), (12, 1), (5, 2.5), (7, 2) and
    (9, 3.5); the second is out of bounds and the fourth has a negative
    flux. *)
Definition t1 : @Table ext :=
  phot [8; 48; 20; 28; 36]%Z [4; 4; 10; 8; 14]%Z
       [100; 50; 25; -4; 10]%Z [1; 1; 2; 1; 1]%Z.

(** Filter 2: detections at (5.25, 2.5), (2, 1.25) and (8, 2). *)
Definition t2 : @Table ext :=
  phot [21; 8; 32]%Z [10; 5; 8]%Z [200; 400; 40]%Z [2; 4; 1]%Z.

(** A catalogue for the 10 by 4 image: (2, 6) is inside that image and
    (6, 2) is not; for the 4 by 10 image it is the other way round. *)
Definition t3 : @Table ext :=
  phot [8; 24]%Z [24; 8]%Z [10; 10]%Z [1; 1]%Z.

(** A catalogue whose [flux_unc] column holds a NaN: five detections at
    (2, 1), with flux_unc = 1, NaN, 3, 2^1023, 2 and
    flux_fit = 3, 7, 2^-1074, 0.5, 4. *)
Definition t_nan : @Table ext :=
  {| nrows := 5;
     cols := {[ "id" := IntCol [1; 2; 3; 4; 5]%Z;
                "x_fit" := FloatCol (q4 <$> [8; 8; 8; 8; 8]%Z);
                "y_fit" := FloatCol (q4 <$> [4; 4; 4; 4; 4]%Z);
                "flux_fit" :=
                  FloatCol [of_int 3; of_int 7;
                            SFldexp prec emax (of_int 1) (-1074);
                            SFldexp prec emax (of_int 1) (-1); of_int 4];
                "flux_unc" :=
                  FloatCol [of_int 1; S754_nan; of_int 3;
                            SFldexp prec emax (of_int 1) 1023; of_int 2] ]} |}.

(** The reference catalogue: stars at pixels (2, 1), (5, 2.5), (20, 1) and
    (4, 2) of the first image. *)
Definition lmc : @Table ext :=
  {| nrows := 4;
     cols := {[ "index" := IntCol [1; 2; 3; 4]%Z;
                "ra_in" := FloatCol (sky <$> [8; 20; 80; 16]%Z);
                "dec_in" := FloatCol (sky <$> [4; 10; 4; 8]%Z);
                "F115W" := FloatCol (of_int <$> [18; 19; 20; 21]%Z);
                "F200W" := FloatCol (of_int <$> [17; 18; 18; 20]%Z) ]} |}.

Definition inputs : @Inputs ext :=
  {| filt1 := "F115W"; filt2 := "F200W";
     images_1 := [im_a]; images_2 := [im_b];
     results_1 := [t1]; results_2 := [t2];
     cat := lmc |}.

(** The stages of the notebook on these inputs ([None] would show as an
    empty result). *)
Definition cleaned_1 : list (@Table ext) :=
  default [] (results_clean [im_a] [t1] "F115W").
Definition cleaned_2 : list (@Table ext) :=
  default [] (results_clean [im_b] [t2] "F200W").
Definition clean_1 : @Table ext := default empty_table (cleaned_1 !! 0).
Definition cleaned_nan : list (@Table ext) :=
  default [] (results_clean [im_a] [t_nan] "F115W").
Definition clean_nan : @Table ext := default empty_table (cleaned_nan !! 0).
Definition finals_1 : list (@Table ext) :=
  default [] (results_final [im_a] cleaned_1).
Definition finals_2 : list (@Table ext) :=
  default [] (results_final [im_b] cleaned_2).
Definition final_1 : @Table ext := default empty_table (finals_1 !! 0).
Definition final_2 : @Table ext := default empty_table (finals_2 !! 0).
Definition radec_1 : list (float64 * float64) :=
  default [] (coord_col final_1 "radec").
Definition radec_2 : list (float64 * float64) :=
  default [] (coord_col final_2 "radec").
Definition matched : list (@Table ext) * list (@Table ext) :=
  default ([], []) (matches_phot finals_1 finals_2).
Definition catalog1 : @Table ext := default empty_table (matched.1 !! 0).
Definition catalog2 : @Table ext := default empty_table (matched.2 !! 0).
Definition sel : @Table ext := default empty_table (cat_sel [im_a] lmc).

(** A working directory that holds the data and nothing else. *)
Definition fs0 : FS :=
  {| entries := {[ "PSF_PHOT_OUTPUT" := Dir ]};
     searchable := true; writable := true |}.

Definition load (fs : FS) : option (@Inputs ext) := Some inputs.

End Demo.

(* ===================================================================== *)
(** ** 3. Import images to analyze: the images by detector and filter *)
(* ===================================================================== *)

(** Python's built-in [float] on a string; [None] stands for [ValueError]. *)
Class Builtins := {
  py_float : string -> option float64
}.

(** [dict_images] before the first image is read. *)
Definition initial_dict_images : gmap string (gmap string (list string)) :=
  {[ "NRCA1" := ∅; "NRCA2" := ∅; "NRCA3" := ∅; "NRCA4" := ∅; "NRCA5" := ∅;
     "NRCB1" := ∅; "NRCB2" := ∅; "NRCB3" := ∅; "NRCB4" := ∅; "NRCB5" := ∅ ]}.

(** [if d == 'NRCBLONG': d = 'NRCB5' elif d == 'NRCALONG': d = 'NRCA5']. *)
Definition detector_key (d : string) : string :=
  if decide (d = "NRCBLONG") then "NRCB5"
  else if decide (d = "NRCALONG") then "NRCA5"
  else d.

(** [if p == 'CLEAR': f = f else: f = p]. *)
Definition filter_key (f p : string) : string :=
  if decide (p = "CLEAR") then f else p.

(** The head of both loops: the three keywords of the primary header
    ([KeyError] when one is missing) and the names the image is filed
    under, [(d, f)]. *)
Definition read_keys (header : gmap string string) : option (string * string) :=
  f ← header !! "FILTER";
  d ← header !! "DETECTOR";
  p ← header !! "PUPIL";
  Some (detector_key d, filter_key f p).

(** [list(dict.fromkeys(l))]: the first occurrences, in order. *)
Definition fromkeys (l : list string) : list string :=
  foldl (fun acc x => if decide (x ∈ acc) then acc else acc ++ [x]) [] l.

(** [sorted] on strings, which Python orders by code point. *)
Fixpoint insert_sorted (x : string) (l : list string) : list string :=
  match l with
  | [] => [x]
  | y :: l' => if String.leb x y then x :: l else y :: insert_sorted x l'
  end.

Definition sorted (l : list string) : list string := foldr insert_sorted [] l.

(** [m.setdefault(k, v)], for its effect on [m]. *)
Definition setdefault {V} (k : string) (v : V) (m : gmap string V) : gmap string V :=
  match m !! k with
  | Some _ => m
  | None => <[ k := v ]> m
  end.

(** The variables of the first cell.  A value of [dict_filter_short],
    [dict_filter_long] or of an inner dictionary of [dict_images] is the
    list under its key ['images']; the empty list stands for [{}]. *)
Record EnumState := {
  ff_short : list string;
  det_short : list string;
  det_long : list string;
  ff_long : list string;
  dict_filter_short : gmap string (list string);
  dict_filter_long : gmap string (list string);
  dict_images : gmap string (gmap string (list string));
  detlist_short : list string;
  detlist_long : list string;
  filtlist_short : list string;
  filtlist_long : list string
}.

Definition initial_state : EnumState :=
  {| ff_short := []; det_short := []; det_long := []; ff_long := [];
     dict_filter_short := ∅; dict_filter_long := ∅;
     dict_images := initial_dict_images;
     detlist_short := []; detlist_long := [];
     filtlist_short := []; filtlist_long := [] |}.

(** A loop over a list whose body may raise. *)
Fixpoint for_each {S A} (body : S -> A -> option S) (st : S) (l : list A)
    : option S :=
  match l with
  | [] => Some st
  | x :: l' => st' ← body st x; for_each body st' l'
  end.

Section Enumerate.
Context `{Py : Builtins}.

(** [wv = float(f[1:3])] and the test [wv > 24]: the names an image is
    filed under and whether it belongs to the long-wavelength channel. *)
Definition channel_of (header : gmap string string)
    : option (string * string * bool) :=
  '(d, f) ← read_keys header;
  wv ← py_float (String.substring 1 2 f);
  Some (d, f, flt (of_int 24) wv).

(** The body of the first loop; an image is its path and its header. *)
Definition enum_step (st : EnumState) (image : string * gmap string string)
    : option EnumState :=
  '(d, f, long) ← channel_of image.2;
  let ff_long' := if (long : bool) then ff_long st ++ [f] else ff_long st in
  let det_long' := if long then det_long st ++ [d] else det_long st in
  let ff_short' := if long then ff_short st else ff_short st ++ [f] in
  let det_short' := if long then det_short st else det_short st ++ [d] in
  let detlist_short' := sorted (fromkeys det_short') in
  let detlist_long' := sorted (fromkeys det_long') in
  let dict_filter_short' :=
    foldl (fun m x => setdefault x [] m) (dict_filter_short st) ff_short' in
  let dict_filter_long' :=
    foldl (fun m x => setdefault x [] m) (dict_filter_long st) ff_long' in
  let dict_images' :=
    foldl (fun m d_s => <[ d_s := dict_filter_short' ]> m)
          (dict_images st) detlist_short' in
  let dict_images'' :=
    foldl (fun m d_l => <[ d_l := dict_filter_long' ]> m)
          dict_images' detlist_long' in
  Some {| ff_short := ff_short'; det_short := det_short';
          det_long := det_long'; ff_long := ff_long';
          dict_filter_short := dict_filter_short';
          dict_filter_long := dict_filter_long';
          dict_images := dict_images'';
          detlist_short := detlist_short'; detlist_long := detlist_long';
          filtlist_short := sorted (map_to_list dict_filter_short').*1;
          filtlist_long := sorted (map_to_list dict_filter_long').*1 |}.

(** The body of the second loop. *)
Definition file_step (di : gmap string (gmap string (list string)))
    (image : string * gmap string string)
    : option (gmap string (gmap string (list string))) :=
  '(d, f) ← read_keys image.2;
  inner ← di !! d;
  entry ← inner !! f;
  Some (<[ d := <[ f := if decide (length entry = 0) then [image.1]
                        else entry ++ [image.1] ]> inner ]> di).

(** The two cells, on the sorted list of the files found: the variables
    after the first loop, and [dict_images] after the second. *)
Definition enumerate (images : list (string * gmap string string))
    : option (EnumState * gmap string (gmap string (list string))) :=
  st ← for_each enum_step initial_state images;
  di ← for_each file_step (dict_images st) images;
  Some (st, di).

End Enumerate.

(** *** 3.2 [dict_images[det][filt]['images']] *)
Definition image_paths (di : gmap string (gmap string (list string)))
    (det filt : string) : option (list string) :=
  inner ← di !! det;
  entry ← inner !! filt;
  if decide (length entry = 0) then None else Some entry.

(** *** Vocabulary for the two loops *)

Section EnumVocabulary.
Context `{Py : Builtins}.

(** The paths of the images filed under [(d, f)], in the order of the
    list. *)
Definition paths_of (images : list (string * gmap string string))
    (d f : string) : list string :=
  (filter (λ im, read_keys im.2 = Some (d, f)) images).*1.

(** [dict_images[d][f]] when both keys are there, as the list under
    ['images']. *)
Definition slot (di : gmap string (gmap string (list string)))
    (d f : string) : option (list string) :=
  inner ← di !! d; inner !! f.

(** Some image of the list has the detector [d], or the filter [f], in the
    short-wavelength ([long = false]) or the long-wavelength channel. *)
Definition has_detector (images : list (string * gmap string string))
    (long : bool) (d : string) : Prop :=
  ∃ im f, im ∈ images ∧ channel_of im.2 = Some (d, f, long).

Definition has_filter (images : list (string * gmap string string))
    (long : bool) (f : string) : Prop :=
  ∃ im d, im ∈ images ∧ channel_of im.2 = Some (d, f, long).

(** The state of the first loop after the images [seen]. *)
Definition enum_inv (st : EnumState)
    (seen : list (string * gmap string string)) : Prop :=
  (∀ d, d ∈ det_short st ↔ has_detector seen false d) ∧
  (∀ d, d ∈ det_long st ↔ has_detector seen true d) ∧
  (∀ f, f ∈ ff_short st ↔ has_filter seen false f) ∧
  (∀ f, f ∈ ff_long st ↔ has_filter seen true f) ∧
  (∀ f, dict_filter_short st !! f =
        if decide (f ∈ ff_short st) then Some [] else None) ∧
  (∀ f, dict_filter_long st !! f =
        if decide (f ∈ ff_long st) then Some [] else None) ∧
  (∀ d, dict_images st !! d =
        if decide (d ∈ det_long st) then Some (dict_filter_long st)
        else if decide (d ∈ det_short st) then Some (dict_filter_short st)
        else initial_dict_images !! d) ∧
  detlist_short st = sorted (fromkeys (det_short st)) ∧
  detlist_long st = sorted (fromkeys (det_long st)) ∧
  filtlist_short st = sorted (map_to_list (dict_filter_short st)).*1 ∧
  filtlist_long st = sorted (map_to_list (dict_filter_long st)).*1 ∧
  Forall (λ im, is_Some (channel_of im.2)) seen.

(** The state of the second loop after the images [seen], which started
    from [di0]: the keys are those of [di0], and each list holds the paths
    of the images seen that are filed there; every image seen had its two
    keys in [di0]. *)
Definition file_inv (di0 di : gmap string (gmap string (list string)))
    (seen : list (string * gmap string string)) : Prop :=
  (∀ d f, slot di d f = _ ← slot di0 d f; Some (paths_of seen d f)) ∧
  Forall (λ im, ∃ d f, read_keys im.2 = Some (d, f) ∧ is_Some (slot di0 d f))
         seen.

End EnumVocabulary.

(** The names of a list are in strictly increasing order. *)
Definition strictly_increasing (l : list string) : Prop :=
  ∀ i j a b, i < j → l !! i = Some a → l !! j = Some b → String.ltb a b = true.

(* ===================================================================== *)
(** ** The cells composed *)
(* ===================================================================== *)

Section Composed.
Context `{Ext : Externals}.

(** Cells 3.4 to 5 on loaded data: [(matches_phot_1, matches_phot_2)]. *)
Definition cross_matched (inp : Inputs) : option (list Table * list Table) :=
  clean1 ← results_clean (images_1 inp) (results_1 inp) (filt1 inp);
  clean2 ← results_clean (images_2 inp) (results_2 inp) (filt2 inp);
  final1 ← results_final (images_1 inp) clean1;
  final2 ← results_final (images_2 inp) clean2;
  matches_phot final1 final2.

(** The inputs cut down to the first image and the first catalogue of each
    filter. *)
Definition first_only (inp : Inputs) : Inputs :=
  {| filt1 := filt1 inp; filt2 := filt2 inp;
     images_1 := take 1 (images_1 inp); images_2 := take 1 (images_2 inp);
     results_1 := take 1 (results_1 inp); results_2 := take 1 (results_2 inp);
     cat := cat inp |}.

(** The row [r] is a measured detection of the loaded catalogue [t] for the
    filter [filt]: it is a row of [t] on the columns of [t], its position is
    strictly inside an image of shape [shape0] and its flux is positive, its
    instrumental magnitude is that of its own flux, its error is
    1.086 * (flux_unc / flux_fit) of its own fluxes, masked as [numpy.ma]
    masks the quotient when the [flux_unc] or the [flux_fit] column of [t]
    holds a NaN, and its sky position is what the WCS of [im] gives for its
    own pixel position. *)
Definition final_row (shape0 : Z * Z) (im : Image) (filt : string) (t : Table)
    (r : gmap string value) : Prop :=
  ∃ k x y f u,
    (∀ name, name ≠ filt +:+ "_inst" → name ≠ "e" +:+ filt +:+ "_inst" →
             name ≠ "radec" → r !! name = row t k !! name) ∧
    r !! "x_fit" = Some (VFloat x) ∧ r !! "y_fit" = Some (VFloat y) ∧
    r !! "flux_fit" = Some (VFloat f) ∧ r !! "flux_unc" = Some (VFloat u) ∧
    strictly_inside shape0 x y ∧ flt (of_int 0) f = true ∧
    r !! (filt +:+ "_inst") = Some (VFloat (fmul minus_2_5 (log10 f))) ∧
    r !! ("e" +:+ filt +:+ "_inst") =
      Some (entry_value
              (err_entry (masked_column t "flux_unc" ||
                          masked_column t "flux_fit") u f)) ∧
    r !! "radec" = Some (VCoord (SkyCoord (wcs im x y).1 (wcs im x y).2)).

End Composed.

(** *** 6.1 Import the LMC astrometric catalog *)

Definition names : list string :=
  ["index"; "ra_in"; "dec_in"; "F070W"; "F090W"; "F115W"; "F140M"; "F150W2";
   "F150W"; "F162M"; "F164N"; "F182M"; "F187N"; "F200W"; "F210M"; "F212N";
   "F250M"; "F277W"; "F300M"; "F322W2"; "F323N"; "F335M"; "F356W"; "F360M";
   "F405N"; "F410M"; "F430M"; "F444W"; "F460M"; "F466N"; "F470N"; "F480M"].

Definition usecols : list nat := [0; 1; 2; 5; 13].

(** The columns of the frame that [pd.read_csv] returns: of the names, those
    at the positions in [usecols]. *)
Definition cat_columns : list string := omap (fun i => names !! i) usecols.

(* ===================================================================== *)
(** ** Further small inputs *)
(* ===================================================================== *)

Module Demo2.

(** Two images and two catalogues for the first filter. *)
Definition inputs_two : @Inputs Demo.ext :=
  {| filt1 := "F115W"; filt2 := "F200W";
     images_1 := [Demo.im_a; Demo.im_c]; images_2 := [Demo.im_b];
     results_1 := [Demo.t1; Demo.t3]; results_2 := [Demo.t2];
     cat := Demo.lmc |}.

(** No image for the first filter. *)
Definition inputs_no_images : @Inputs Demo.ext :=
  {| filt1 := "F115W"; filt2 := "F200W";
     images_1 := []; images_2 := [Demo.im_b];
     results_1 := []; results_2 := [Demo.t2];
     cat := Demo.lmc |}.

(** A filter whose column the reference catalogue does not have. *)
Definition inputs_f150w : @Inputs Demo.ext :=
  {| filt1 := "F150W"; filt2 := "F200W";
     images_1 := [Demo.im_a]; images_2 := [Demo.im_b];
     results_1 := [Demo.t1]; results_2 := [Demo.t2];
     cat := Demo.lmc |}.

(** A catalogue whose only detection, at (12, 1), is out of the image. *)
Definition t_out : @Table Demo.ext := Demo.phot [48]%Z [4]%Z [50]%Z [1]%Z.

Definition inputs_out : @Inputs Demo.ext :=
  {| filt1 := "F115W"; filt2 := "F200W";
     images_1 := [Demo.im_a]; images_2 := [Demo.im_b];
     results_1 := [Demo.t1]; results_2 := [t_out];
     cat := Demo.lmc |}.

(** [float] on two decimal digits. *)
Definition digit (c : Ascii.ascii) : option Z :=
  let n := Z.of_nat (Ascii.nat_of_ascii c) in
  if ((48 <=? n) && (n <=? 57))%Z then Some (n - 48)%Z else None.

Definition float_of_digits (s : string) : option float64 :=
  match s with
  | String a (String b EmptyString) =>
      x ← digit a; y ← digit b; Some (of_int (10 * x + y))
  | _ => None
  end.

Definition py : Builtins := {| py_float := float_of_digits |}.

Definition header (f d p : string) : gmap string string :=
  {[ "FILTER" := f; "DETECTOR" := d; "PUPIL" := p ]}.

(** Five files: three short-wavelength images of NRCB1 in two filters, one
    of them twice, one through a filter of the pupil wheel, and a
    long-wavelength image. *)
Definition images : list (string * gmap string string) :=
  [ ("a_cal.fits", header "F115W" "NRCB1" "CLEAR");
    ("b_cal.fits", header "F200W" "NRCB1" "CLEAR");
    ("c_cal.fits", header "F115W" "NRCB1" "CLEAR");
    ("d_cal.fits", header "F444W" "NRCBLONG" "CLEAR");
    ("e_cal.fits", header "F150W2" "NRCB1" "F162M") ].

(** The same with a long-wavelength image of the detector NRCB1. *)
Definition mixed : list (string * gmap string string) :=
  images ++ [("f_cal.fits", header "F444W" "NRCB1" "CLEAR")].

End Demo2.

(* ===================================================================== *)
(** * Properties *)
(* ===================================================================== *)

(** ** Order facts on binary64 values

    [SFcompare] is lexicographic on sign, exponent and mantissa, so these
    facts hold for every [spec_float]. *)

Ltac order_cases :=
  repeat match goal with b : bool |- _ => destruct b end;
  simpl; try discriminate; try reflexivity;
  change (Pos.compare_cont Eq) with Pos.compare;
  repeat match goal with
    | |- context [Z.compare ?a ?b] => destruct (Z.compare_spec a b)
    | |- context [Pos.compare ?a ?b] => destruct (Pos.compare_spec a b)
    end;
  simpl; try discriminate; try reflexivity; try lia.

Lemma flt_chain_not_fle (x y z : float64) :
  flt x y = true -> flt y z = true -> fle z x = false.
Proof.
  unfold flt, fle, SFltb, SFleb.
  destruct x as [sx|sx| |sx mx ex], y as [sy|sy| |sy my ey],
           z as [sz|sz| |sz mz ez];
    simpl; try discriminate; try reflexivity; order_cases.
Qed.

Lemma flt_trans (x y z : float64) :
  flt x y = true -> flt y z = true -> flt x z = true.
Proof.
  unfold flt, SFltb.
  destruct x as [sx|sx| |sx mx ex], y as [sy|sy| |sy my ey],
           z as [sz|sz| |sz mz ez];
    simpl; try discriminate; try reflexivity; order_cases.
Qed.

(** ** Boolean masks and index arrays *)

Section ArrayFacts.
Context {A : Type}.
Implicit Types (mask : list bool) (l : list A) (idx : list nat).

Lemma positions_from_lookup mask n k i :
  positions_from n mask !! k = Some i → n ≤ i ∧ mask !! (i - n) = Some true.
Proof.
  revert n k. induction mask as [|b mask IH]; intros n k; simpl; [done|].
  destruct b.
  - destruct k as [|k]; simpl.
    + intros [= <-]. split; [lia|]. by replace (n - n) with 0 by lia.
    + intros H. apply IH in H as [Hle Hm]. split; [lia|].
      by replace (i - n) with (S (i - S n)) by lia.
  - intros H. apply IH in H as [Hle Hm]. split; [lia|].
    by replace (i - n) with (S (i - S n)) by lia.
Qed.

Lemma positions_from_elem mask n i :
  i ∈ positions_from n mask ↔ n ≤ i ∧ mask !! (i - n) = Some true.
Proof.
  revert n. induction mask as [|b mask IH]; intros n; simpl.
  - rewrite elem_of_nil. split; [done|]. by intros [_ ?].
  - assert (∀ b', (n ≤ i ∧ (b' :: mask) !! (i - n) = Some true) ↔
                  (i = n ∧ b' = true) ∨ (S n ≤ i ∧ mask !! (i - S n) = Some true))
      as Hsplit.
    { intros b'. destruct (decide (i = n)) as [->|Hne].
      - replace (n - n) with 0 by lia. simpl. split.
        + intros [_ [= ->]]. by left.
        + intros [[_ ->]|[? _]]; [done|lia].
      - split.
        + intros [Hle Hm]. right. split; [lia|].
          by replace (i - n) with (S (i - S n)) in Hm by lia.
        + intros [[? _]|[Hle Hm]]; [done|]. split; [lia|].
          by replace (i - n) with (S (i - S n)) by lia. }
    rewrite Hsplit. destruct b.
    + rewrite elem_of_cons, IH. tauto.
    + rewrite IH. split; [tauto|]. intros [[_ [=]]|?]. done.
Qed.

(** A position is listed exactly when the mask is true there. *)
Lemma elem_of_positions mask i :
  i ∈ positions mask ↔ mask !! i = Some true.
Proof.
  unfold positions. rewrite positions_from_elem.
  replace (i - 0) with i by lia. split; [by intros [_ ?]|]. split; [lia|done].
Qed.

Lemma positions_from_increasing mask n k k' i i' :
  k < k' →
  positions_from n mask !! k = Some i → positions_from n mask !! k' = Some i' →
  i < i'.
Proof.
  revert n k k'. induction mask as [|b mask IH]; intros n k k' Hlt; simpl; [done|].
  destruct b; [|by apply IH].
  destruct k' as [|k']; [lia|]. destruct k as [|k]; simpl.
  - intros [= <-] H. apply positions_from_lookup in H. lia.
  - apply IH. lia.
Qed.

(** The listed positions are in increasing order: rows keep their order. *)
Lemma positions_increasing mask k k' i i' :
  k < k' → positions mask !! k = Some i → positions mask !! k' = Some i' → i < i'.
Proof. apply positions_from_increasing. Qed.

Lemma select_lookup_from mask l n k :
  length mask = length l →
  select mask l !! k = i ← positions_from n mask !! k; l !! (i - n).
Proof.
  revert l n k. induction mask as [|b mask IH]; intros [|x l] n k Hlen;
    simpl in *; try done.
  destruct b.
  - destruct k as [|k]; simpl.
    + by replace (n - n) with 0 by lia.
    + rewrite (IH l (S n)) by lia.
      destruct (positions_from (S n) mask !! k) as [i|] eqn:E; simpl; [|done].
      apply positions_from_lookup in E as [Hle _].
      by replace (i - n) with (S (i - S n)) by lia.
  - rewrite (IH l (S n)) by lia.
    destruct (positions_from (S n) mask !! k) as [i|] eqn:E; simpl; [|done].
    apply positions_from_lookup in E as [Hle _].
    by replace (i - n) with (S (i - S n)) by lia.
Qed.

(** Entry [k] of [l[mask]] is the entry of [l] at the [k]-th true position. *)
Lemma select_lookup mask l k :
  length mask = length l →
  select mask l !! k = i ← positions mask !! k; l !! i.
Proof.
  intros Hlen. rewrite (select_lookup_from mask l 0 k Hlen). unfold positions.
  destruct (positions_from 0 mask !! k) as [i|]; simpl; [|done].
  by replace (i - 0) with i by lia.
Qed.

Lemma select_length mask l :
  length mask = length l → length (select mask l) = count_true mask.
Proof.
  unfold count_true, positions. generalize 0.
  revert l. induction mask as [|b mask IH]; intros [|x l] n Hlen;
    simpl in *; try done.
  destruct b; simpl; rewrite (IH l (S n)) by lia; done.
Qed.

Lemma pick_length idx l :
  Forall (λ i, i < length l) idx → length (pick idx l) = length idx.
Proof.
  unfold pick. induction 1 as [|i idx Hi _ IH]; simpl; [done|].
  destruct (proj2 (lookup_lt_is_Some l i) Hi) as [x ->]. simpl. f_equal. exact IH.
Qed.

(** Entry [k] of [l[idx]] is the entry of [l] at [idx[k]]. *)
Lemma pick_lookup idx l k :
  Forall (λ i, i < length l) idx →
  pick idx l !! k = i ← idx !! k; l !! i.
Proof.
  unfold pick. intros H. revert k.
  induction H as [|i idx Hi _ IH]; intros k; simpl; [done|].
  destruct (proj2 (lookup_lt_is_Some l i) Hi) as [x Hx]. rewrite Hx. simpl.
  destruct k as [|k]; simpl; [done|]. apply IH.
Qed.

End ArrayFacts.

(** ** Tables: rows under masks and index arrays *)

Section TableFacts.
Context `{Ext : Externals}.
Implicit Types (t : Table) (c : column) (mask : list bool) (idx : list nat).

Lemma col_len_select mask c :
  length mask = col_len c → col_len (col_select mask c) = count_true mask.
Proof. destruct c; simpl; apply select_length. Qed.

Lemma col_len_pick idx c :
  Forall (λ i, i < col_len c) idx → col_len (col_pick idx c) = length idx.
Proof. destruct c; simpl; apply pick_length. Qed.

Lemma col_lookup_select mask c k :
  length mask = col_len c →
  col_lookup (col_select mask c) k = i ← positions mask !! k; col_lookup c i.
Proof.
  destruct c; simpl; intros Hlen; rewrite select_lookup by done;
    by destruct (positions mask !! k).
Qed.

Lemma col_lookup_pick idx c k :
  Forall (λ i, i < col_len c) idx →
  col_lookup (col_pick idx c) k = i ← idx !! k; col_lookup c i.
Proof.
  destruct c; simpl; intros Hlen; rewrite pick_lookup by done;
    by destruct (idx !! k).
Qed.

Lemma row_lookup t k name :
  row t k !! name = c ← cols t !! name; col_lookup c k.
Proof. unfold row. apply lookup_omap. Qed.

Lemma float_col_Some t name v :
  float_col t name = Some v ↔ cols t !! name = Some (FloatCol v).
Proof.
  unfold float_col. destruct (cols t !! name) as [[]|]; split; congruence.
Qed.

Lemma coord_col_Some t name v :
  coord_col t name = Some v ↔ cols t !! name = Some (CoordCol v).
Proof.
  unfold coord_col. destruct (cols t !! name) as [[]|]; split; congruence.
Qed.

(** A float column read row by row. *)
Lemma row_float t k name v :
  cols t !! name = Some (FloatCol v) →
  row t k !! name = VFloat <$> v !! k.
Proof. intros H. by rewrite row_lookup, H. Qed.

Lemma row_coord t k name v :
  cols t !! name = Some (CoordCol v) →
  row t k !! name = VCoord <$> v !! k.
Proof. intros H. by rewrite row_lookup, H. Qed.

Lemma wf_col_len t name c :
  table_wf t → cols t !! name = Some c → col_len c = nrows t.
Proof. intros Hwf Hc. exact (Hwf name c Hc). Qed.

(** [t[mask]] on a rectangular table: it is defined when the mask has one
    entry per row, and its row [k] is the row of [t] at the [k]-th true
    position of the mask. *)
Lemma table_select_spec mask t :
  table_wf t → length mask = nrows t →
  ∃ t', table_select mask t = Some t' ∧ table_wf t' ∧
        nrows t' = count_true mask ∧
        cols t' = col_select mask <$> cols t ∧
        ∀ k i, positions mask !! k = Some i → row t' k = row t i.
Proof.
  intros Hwf Hlen. unfold table_select. rewrite decide_True by done.
  eexists. split; [done|]. simpl. repeat split.
  - intros name c. simpl. rewrite lookup_fmap.
    destruct (cols t !! name) as [c0|] eqn:E; simpl; [|done].
    intros [= <-]. apply col_len_select. rewrite (wf_col_len _ _ _ Hwf E). done.
  - intros k i Hk. apply map_eq. intros name.
    rewrite !row_lookup. simpl. rewrite lookup_fmap.
    destruct (cols t !! name) as [c0|] eqn:E; simpl; [|done].
    rewrite col_lookup_select by (by rewrite (wf_col_len _ _ _ Hwf E)).
    by rewrite Hk.
Qed.

(** [t[idx]] on a rectangular table: it is defined when every index is a
    row of [t], and its row [k] is the row of [t] at [idx[k]]. *)
Lemma table_take_spec idx t :
  table_wf t → Forall (λ i, i < nrows t) idx →
  ∃ t', table_take idx t = Some t' ∧ table_wf t' ∧
        nrows t' = length idx ∧
        cols t' = col_pick idx <$> cols t ∧
        ∀ k i, idx !! k = Some i → row t' k = row t i.
Proof.
  intros Hwf Hidx. unfold table_take.
  assert (forallb (λ i, i <? nrows t) idx = true) as ->.
  { apply forallb_forall. intros i Hi. apply Nat.ltb_lt.
    rewrite Forall_forall in Hidx. apply Hidx. by apply list_elem_of_In. }
  eexists. split; [done|]. simpl. repeat split.
  - intros name c. simpl. rewrite lookup_fmap.
    destruct (cols t !! name) as [c0|] eqn:E; simpl; [|done].
    intros [= <-]. apply col_len_pick. by rewrite (wf_col_len _ _ _ Hwf E).
  - intros k i Hk. apply map_eq. intros name.
    rewrite !row_lookup. simpl. rewrite lookup_fmap.
    destruct (cols t !! name) as [c0|] eqn:E; simpl; [|done].
    rewrite col_lookup_pick by (by rewrite (wf_col_len _ _ _ Hwf E)).
    by rewrite Hk.
Qed.

Lemma table_take_inv idx t t' :
  table_take idx t = Some t' →
  Forall (λ i, i < nrows t) idx ∧ nrows t' = length idx.
Proof.
  unfold table_take. destruct (forallb _ idx) eqn:E; [|done].
  intros [= <-]. split; [|done].
  apply Forall_forall. intros i Hi. apply Nat.ltb_lt.
  rewrite forallb_forall in E. apply E. by apply list_elem_of_In.
Qed.

(** [t[name] = c] on a table that has columns already. *)
Lemma set_col_spec name c t :
  table_wf t → cols t ≠ ∅ → col_len c = nrows t →
  ∃ t', set_col name c t = Some t' ∧ table_wf t' ∧ nrows t' = nrows t ∧
        cols t' = <[ name := c ]> (cols t).
Proof.
  intros Hwf Hne Hlen. unfold set_col.
  rewrite decide_False by (by rewrite map_size_empty_iff).
  rewrite decide_True by done.
  eexists. split; [done|]. simpl. repeat split.
  intros n c'. simpl. rewrite lookup_insert. case_decide.
  - by intros [= <-].
  - apply Hwf.
Qed.

Lemma set_col_empty name c :
  set_col name c empty_table =
  Some {| nrows := col_len c; cols := {[ name := c ]} |}.
Proof. unfold set_col. simpl. by rewrite decide_True by apply map_size_empty. Qed.

Lemma cols_nonempty t name c : cols t !! name = Some c → cols t ≠ ∅.
Proof. intros H E. rewrite E, lookup_empty in H. done. Qed.

End TableFacts.

(** ** Column names *)

Lemma string_length_app (s1 s2 : string) :
  String.length (s1 +:+ s2) = String.length s1 + String.length s2.
Proof. induction s1 as [|a s1 IH]; simpl; [done|]. by rewrite IH. Qed.

(** The two added columns never collide with a column the cleaning step
    reads, whatever the filter name. *)
Ltac name_clash H :=
  let L := fresh "L" in
  pose proof (f_equal String.length H) as L;
  simpl in L; rewrite ?string_length_app in L; simpl in L;
  match type of H with
  | context [?filt +:+ "_inst"] =>
      destruct filt as [|? [|? [|? [|? ?]]]]; simpl in *; try lia; try discriminate
  end.

Ltac in_list :=
  repeat first [apply list_elem_of_here | apply list_elem_of_further].

Lemma inst_ne_read (filt n : string) :
  n ∈ ["x_fit"; "y_fit"; "flux_fit"; "flux_unc"] → filt +:+ "_inst" ≠ n.
Proof.
  intros Hn H. rewrite !elem_of_cons, elem_of_nil in Hn.
  destruct Hn as [->|[->|[->|[->|[]]]]]; name_clash H.
Qed.

Lemma einst_ne_read (filt n : string) :
  n ∈ ["x_fit"; "y_fit"; "flux_fit"; "flux_unc"] →
  "e" +:+ filt +:+ "_inst" ≠ n.
Proof.
  intros Hn H. rewrite !elem_of_cons, elem_of_nil in Hn.
  destruct Hn as [->|[->|[->|[->|[]]]]]; name_clash H.
Qed.

Lemma inst_ne_einst (filt : string) :
  filt +:+ "_inst" ≠ "e" +:+ filt +:+ "_inst".
Proof.
  intros H. pose proof (f_equal String.length H) as L.
  simpl in L. rewrite !string_length_app in L. lia.
Qed.

(** ** 3.4 Clean the catalogs *)

Section CleanFacts.
Context `{Ext : Externals}.

Lemma clean_mask_length shape0 (x y flux : list float64) n :
  length x = n → length y = n → length flux = n →
  length (clean_mask shape0 x y flux) = n.
Proof.
  intros Hx Hy Hf. unfold clean_mask, and_mask, gt_scalar, lt_scalar.
  rewrite !length_zip_with, !length_fmap. lia.
Qed.

(** The mask is true at [k] exactly when the three tests pass there. *)
Lemma clean_mask_lookup shape0 (x y flux : list float64) k :
  clean_mask shape0 x y flux !! k = Some true ↔
  ∃ xv yv fv, x !! k = Some xv ∧ y !! k = Some yv ∧ flux !! k = Some fv ∧
              strictly_inside shape0 xv yv ∧ flt (of_int 0) fv = true.
Proof.
  unfold clean_mask, and_mask, gt_scalar, lt_scalar, strictly_inside.
  rewrite !lookup_zip_with, !list_lookup_fmap.
  destruct (x !! k) as [xv|], (y !! k) as [yv|], (flux !! k) as [fv|]; simpl;
    try (split; [done | by intros (?&?&?&?&?&?&?)]).
  split.
  - intros [= H]. rewrite !andb_true_iff in H. exists xv, yv, fv. tauto.
  - intros (?&?&?&[= <-]&[= <-]&[= <-]&(?&?&?&?)&?).
    f_equal. rewrite !andb_true_iff. tauto.
Qed.

(** A masked entry of a loaded column is a NaN; its quotient is masked. *)
Lemma ma_masks_nan (u f : float64) : is_nan u = true → ma_masks u f = true.
Proof. by destruct u, f. Qed.

Lemma col_len_inst_err masked (unc flux : list float64) :
  length unc = length flux → col_len (inst_err masked unc flux) = length unc.
Proof.
  intros L. unfold inst_err. destruct masked; simpl;
    rewrite length_zip_with; lia.
Qed.

Lemma col_lookup_inst_err masked (unc flux : list float64) k :
  col_lookup (inst_err masked unc flux) k =
    u ← unc !! k; f ← flux !! k; Some (entry_value (err_entry masked u f)).
Proof.
  unfold inst_err. destruct masked; simpl; rewrite lookup_zip_with;
    destruct (unc !! k); simpl; [|done| |done]; by destruct (flux !! k).
Qed.

(** What the body of the cleaning loop computes on a loaded catalogue. *)
Lemma clean_one_spec im0 filt (t : Table) x y flux unc :
  table_wf t →
  cols t !! "x_fit" = Some (FloatCol x) →
  cols t !! "y_fit" = Some (FloatCol y) →
  cols t !! "flux_fit" = Some (FloatCol flux) →
  cols t !! "flux_unc" = Some (FloatCol unc) →
  ∃ t', clean_one im0 filt t = Some t' ∧ table_wf t' ∧
        length (clean_mask (shape im0) x y flux) = nrows t ∧
        nrows t' = count_true (clean_mask (shape im0) x y flux) ∧
        cols t' =
          <[ "e" +:+ filt +:+ "_inst" :=
               inst_err (masked_column t "flux_unc" || masked_column t "flux_fit")
                        (select (clean_mask (shape im0) x y flux) unc)
                        (select (clean_mask (shape im0) x y flux) flux) ]>
            (<[ filt +:+ "_inst" :=
                  FloatCol (inst_mag (select (clean_mask (shape im0) x y flux) flux)) ]>
               (col_select (clean_mask (shape im0) x y flux) <$> cols t)).
Proof.
  intros Hwf Hx Hy Hf Hu. unfold clean_one.
  rewrite (proj2 (float_col_Some t _ _) Hx), (proj2 (float_col_Some t _ _) Hy),
          (proj2 (float_col_Some t _ _) Hf). simpl.
  set (mask := clean_mask (shape im0) x y flux).
  pose proof (wf_col_len _ _ _ Hwf Hx) as Lx.
  pose proof (wf_col_len _ _ _ Hwf Hy) as Ly.
  pose proof (wf_col_len _ _ _ Hwf Hf) as Lf.
  pose proof (wf_col_len _ _ _ Hwf Hu) as Lu. simpl in Lx, Ly, Lf, Lu.
  assert (length mask = nrows t) as Lm by (by apply clean_mask_length).
  destruct (table_select_spec mask t Hwf Lm) as (t0 & -> & Hwf0 & Hn0 & Hc0 & _).
  simpl.
  assert (cols t0 !! "flux_fit" = Some (FloatCol (select mask flux))) as Hf0.
  { by rewrite Hc0, lookup_fmap, Hf. }
  assert (cols t0 !! "flux_unc" = Some (FloatCol (select mask unc))) as Hu0.
  { by rewrite Hc0, lookup_fmap, Hu. }
  rewrite (proj2 (float_col_Some t0 _ _) Hf0). simpl.
  destruct (set_col_spec (filt +:+ "_inst")
              (FloatCol (inst_mag (select mask flux))) t0 Hwf0
              (cols_nonempty _ _ _ Hf0)) as (t1 & -> & Hwf1 & Hn1 & Hc1).
  { simpl. unfold inst_mag. rewrite length_fmap, Hn0. apply select_length. lia. }
  simpl.
  assert (cols t1 !! "flux_unc" = Some (FloatCol (select mask unc))) as Hu1.
  { rewrite Hc1, lookup_insert_ne; [done|]. apply inst_ne_read. in_list. }
  assert (cols t1 !! "flux_fit" = Some (FloatCol (select mask flux))) as Hf1.
  { rewrite Hc1, lookup_insert_ne; [done|]. apply inst_ne_read. in_list. }
  rewrite (proj2 (float_col_Some t1 _ _) Hu1),
          (proj2 (float_col_Some t1 _ _) Hf1). simpl.
  destruct (set_col_spec ("e" +:+ filt +:+ "_inst")
              (inst_err (masked_column t "flux_unc" || masked_column t "flux_fit")
                        (select mask unc) (select mask flux)) t1 Hwf1
              (cols_nonempty _ _ _ Hf1)) as (t2 & -> & Hwf2 & Hn2 & Hc2).
  { rewrite col_len_inst_err, Hn1, Hn0 by (rewrite !select_length by lia; lia).
    apply select_length. lia. }
  exists t2. repeat split; try done.
  - lia.
  - by rewrite Hc2, Hc1, Hc0.
Qed.

End CleanFacts.

Section CleanRows.
Context `{Ext : Externals}.

Lemma valid_detection_row shape0 (t : Table) x y flux k :
  cols t !! "x_fit" = Some (FloatCol x) →
  cols t !! "y_fit" = Some (FloatCol y) →
  cols t !! "flux_fit" = Some (FloatCol flux) →
  clean_mask shape0 x y flux !! k = Some true ↔ valid_detection shape0 (row t k).
Proof.
  intros Hx Hy Hf. rewrite clean_mask_lookup. unfold valid_detection.
  rewrite (row_float t k _ _ Hx), (row_float t k _ _ Hy), (row_float t k _ _ Hf).
  split.
  - intros (xv & yv & fv & -> & -> & -> & Hin & Hpos). by exists xv, yv, fv.
  - intros (xv & yv & fv & Ex & Ey & Ef & Hin & Hpos).
    destruct (x !! k) as [xv'|], (y !! k) as [yv'|], (flux !! k) as [fv'|];
      simpl in *; try done.
    injection Ex as ->. injection Ey as ->. injection Ef as ->.
    by exists xv, yv, fv.
Qed.

(** One pass of the cleaning loop, row by row: [kept] lists the rows of the
    loaded catalogue that survive, row [j] of the result comes from row
    [kept[j]], and carries the two added columns. *)
Lemma clean_one_rows im0 filt (t : Table) :
  phot_table t →
  ∃ t' kept,
    clean_one im0 filt t = Some t' ∧ table_wf t' ∧
    nrows t' = length kept ∧ increasing kept ∧
    (∀ k, k ∈ kept ↔ valid_detection (shape im0) (row t k)) ∧
    (∀ j k, kept !! j = Some k →
       (∀ name, name ≠ filt +:+ "_inst" → name ≠ "e" +:+ filt +:+ "_inst" →
                row t' j !! name = row t k !! name) ∧
       ∃ f u,
         row t k !! "flux_fit" = Some (VFloat f) ∧
         row t k !! "flux_unc" = Some (VFloat u) ∧
         row t' j !! (filt +:+ "_inst") =
           Some (VFloat (fmul minus_2_5 (log10 f))) ∧
         row t' j !! ("e" +:+ filt +:+ "_inst") =
           Some (entry_value
                   (err_entry (masked_column t "flux_unc" ||
                               masked_column t "flux_fit") u f))).
Proof.
  intros (Hwf & x & y & flux & unc & Hx & Hy & Hf & Hu).
  destruct (clean_one_spec im0 filt t x y flux unc Hwf Hx Hy Hf Hu)
    as (t' & Hrun & Hwf' & Lm & Hn & Hc).
  set (mask := clean_mask (shape im0) x y flux) in *.
  exists t', (positions mask). repeat split; try done.
  - intros j j' k k'. apply positions_increasing.
  - rewrite elem_of_positions. by apply valid_detection_row.
  - rewrite elem_of_positions. by apply valid_detection_row.
  - intros name Hn1 Hn2. rewrite !row_lookup, Hc.
    rewrite lookup_insert_ne, lookup_insert_ne, lookup_fmap by done.
    destruct (cols t !! name) as [c|] eqn:E; simpl; [|done].
    rewrite col_lookup_select by (by rewrite (wf_col_len _ _ _ Hwf E)).
    by rewrite H.
  - assert (mask !! k = Some true) as Hk.
    { apply elem_of_positions. by eapply list_elem_of_lookup_2. }
    apply clean_mask_lookup in Hk as (xv & yv & fv & _ & _ & Efv & _ & _).
    pose proof (wf_col_len _ _ _ Hwf Hf) as Lf.
    pose proof (wf_col_len _ _ _ Hwf Hu) as Lu. simpl in Lf, Lu.
    destruct (proj2 (lookup_lt_is_Some unc k)) as [uv Euv].
    { apply lookup_lt_Some in Efv. lia. }
    exists fv, uv.
    rewrite (row_float t k _ _ Hf), (row_float t k _ _ Hu), Efv, Euv.
    repeat split; try done.
    + rewrite row_lookup, Hc, lookup_insert_ne, lookup_insert_eq
        by (apply not_eq_sym, inst_ne_einst).
      simpl. unfold inst_mag.
      rewrite list_lookup_fmap, select_lookup, H by lia. simpl.
      by rewrite Efv.
    + rewrite row_lookup, Hc, lookup_insert_eq. simpl.
      rewrite col_lookup_inst_err, !select_lookup, H by lia. simpl.
      by rewrite Euv, Efv.
Qed.

Lemma mapM_seq_lookup {B} (f : nat → option B) n l :
  mapM f (seq 0 n) = Some l →
  length l = n ∧ ∀ i, i < n → ∃ y, l !! i = Some y ∧ f i = Some y.
Proof.
  rewrite mapM_Some. intros H. pose proof (Forall2_length _ _ _ H) as L.
  rewrite length_seq in L. split; [done|].
  intros i Hi.
  destruct (proj2 (lookup_lt_is_Some l i)) as [y Ey]; [lia|].
  exists y. split; [done|].
  eapply (Forall2_lookup_lr _ _ _ i i y H); [|done].
  by rewrite lookup_seq_lt.
Qed.

Lemma mapM_seq_is_Some {B} (f : nat → option B) n :
  (∀ i, i < n → is_Some (f i)) → is_Some (mapM f (seq 0 n)).
Proof.
  intros H. apply mapM_is_Some, Forall_forall. intros i Hi.
  apply elem_of_seq in Hi. apply H. lia.
Qed.

End CleanRows.

Section CleanLoop.
Context `{Ext : Externals}.

(** What a finished cleaning loop returned. *)
Lemma results_clean_inv images results filt cleaned :
  results_clean images results filt = Some cleaned →
  length cleaned = length images ∧
  ∀ i, i < length images →
    ∃ im0 t t', images !! 0 = Some im0 ∧ results !! i = Some t ∧
                cleaned !! i = Some t' ∧ clean_one im0 filt t = Some t'.
Proof.
  unfold results_clean. intros H. apply mapM_seq_lookup in H as [L H].
  split; [done|]. intros i Hi. destruct (H i Hi) as (t' & Et' & Hrun).
  destruct (results !! i) as [t|]; simpl in Hrun; [|done].
  destruct (images !! 0) as [im0|]; simpl in Hrun; [|done].
  by exists im0, t, t'.
Qed.

(** The loop finishes when every image has its loaded catalogue. *)
Lemma results_clean_total images results filt :
  length images ≤ length results → Forall phot_table results →
  is_Some (results_clean images results filt).
Proof.
  intros Hlen Hall. apply mapM_seq_is_Some. intros i Hi.
  destruct (proj2 (lookup_lt_is_Some results i)) as [t Et]; [lia|].
  destruct (proj2 (lookup_lt_is_Some images 0)) as [im0 E0]; [lia|].
  rewrite Et, E0. simpl.
  destruct (clean_one_rows im0 filt t) as (t' & kept & -> & _); [|done].
  rewrite Forall_forall in Hall. apply Hall. by eapply list_elem_of_lookup_2.
Qed.

(** The cleaned catalogues are rectangular and keep their pixel columns, so
    the pixel-to-sky step applies to them. *)
Lemma results_clean_pixel_tables images results filt cleaned :
  Forall phot_table results →
  results_clean images results filt = Some cleaned →
  Forall pixel_table cleaned.
Proof.
  intros Hall Hrun. destruct (results_clean_inv _ _ _ _ Hrun) as [L Hi].
  apply Forall_lookup. intros i t' Ei.
  destruct (Hi i) as (im0 & t & t'' & _ & Et & Et'' & Hone).
  { apply lookup_lt_Some in Ei. lia. }
  assert (t'' = t') as -> by congruence.
  rewrite Forall_forall in Hall.
  destruct (Hall t) as (Hwf & x & y & flux & unc & Hx & Hy & Hf & Hu);
    [by eapply list_elem_of_lookup_2|].
  destruct (clean_one_spec im0 filt t x y flux unc Hwf Hx Hy Hf Hu)
    as (t0 & Hone' & Hwf' & _ & _ & Hc).
  assert (t0 = t') as -> by congruence.
  split; [done|].
  exists (select (clean_mask (shape im0) x y flux) x),
         (select (clean_mask (shape im0) x y flux) y).
  rewrite Hc. split.
  - rewrite !lookup_insert_ne, lookup_fmap, Hx; [done| |].
    + apply inst_ne_read. in_list.
    + apply einst_ne_read. in_list.
  - rewrite !lookup_insert_ne, lookup_fmap, Hy; [done| |].
    + apply inst_ne_read. in_list.
    + apply einst_ne_read. in_list.
Qed.

Lemma clean_one_shape im0 im0' filt (t : Table) :
  shape im0 = shape im0' → clean_one im0 filt t = clean_one im0' filt t.
Proof. intros E. unfold clean_one. by rewrite E. Qed.

Lemma mapM_pointwise {A B} (f g : A → option B) (l : list A) :
  (∀ x, x ∈ l → f x = g x) → mapM f l = mapM g l.
Proof.
  induction l as [|x l IH]; intros H; simpl; [done|].
  rewrite (H x) by apply list_elem_of_here.
  rewrite IH; [done|]. intros y Hy. apply H. by apply list_elem_of_further.
Qed.

End CleanLoop.

(** C3.  The cleaning step keeps exactly the valid detections of each
    loaded photometry catalogue.  When every image of a filter's set has its
    catalogue, the loop returns one cleaned catalogue per image; for each of
    them there is an increasing list [kept] of row numbers of the loaded
    catalogue, one per cleaned row, such that a row is in [kept] if and only
    if its fitted position is strictly inside the bounds of the image used
    by the step (the first of the set: 0 < x_fit < width and
    0 < y_fit < height) and its fitted flux is strictly positive; cleaned row
    [j] is row [kept[j]] on every column but the two added ones. *)
Theorem clean_keeps_exactly_valid_detections `{Ext : Externals}
    (images : list Image) (results : list Table) (filt : string) :
  length images ≤ length results → Forall phot_table results →
  ∃ cleaned,
    results_clean images results filt = Some cleaned ∧
    length cleaned = length images ∧
    ∀ i im0 t, images !! 0 = Some im0 → i < length images →
               results !! i = Some t →
      ∃ t' kept,
        cleaned !! i = Some t' ∧ nrows t' = length kept ∧ increasing kept ∧
        (∀ k, k ∈ kept ↔ valid_detection (shape im0) (row t k)) ∧
        (∀ j k name, kept !! j = Some k →
           name ≠ filt +:+ "_inst" → name ≠ "e" +:+ filt +:+ "_inst" →
           row t' j !! name = row t k !! name).
Proof.
  intros Hlen Hall.
  destruct (results_clean_total images results filt Hlen Hall) as [cleaned Hc].
  exists cleaned. split; [done|].
  destruct (results_clean_inv _ _ _ _ Hc) as [L Hi]. split; [done|].
  intros i im0 t E0 Hlt Et.
  destruct (Hi i Hlt) as (im0' & t0 & t' & E0' & Et0 & Et' & Hrun).
  assert (im0' = im0) as -> by congruence.
  assert (t0 = t) as -> by congruence.
  destruct (clean_one_rows im0 filt t) as (t'' & kept & Hrun' & _ & Hn & Hinc & Hk & Hrow).
  { rewrite Forall_forall in Hall. apply Hall. by eapply list_elem_of_lookup_2. }
  assert (t'' = t') as -> by congruence.
  exists t', kept. repeat split; try done; try apply Hk.
  intros j k name Ej. by apply (Hrow j k Ej).
Qed.

(** C4, amended.  For every row of a cleaned catalogue, the column
    [filt_inst] holds -2.5 * log10(flux_fit), where flux_fit and flux_unc
    are those of the cleaned row itself and flux_fit > 0, and on every other
    column but the two added ones the cleaned row is the row of the loaded
    catalogue it comes from.  The column [efilt_inst] holds
    1.086 * (flux_unc / flux_fit) in every row when neither the [flux_unc]
    nor the [flux_fit] column of the loaded catalogue holds a NaN; when one
    of them does, the entry is masked in the rows whose quotient is not
    finite or has |flux_unc| * tiny >= |flux_fit| (among them the rows whose
    flux_unc is a NaN), and holds 1.086 * (flux_unc / flux_fit) in the
    others. *)
Theorem clean_adds_instrumental_magnitudes `{Ext : Externals}
    (images : list Image) (results : list Table) (filt : string) :
  length images ≤ length results → Forall phot_table results →
  ∃ cleaned,
    results_clean images results filt = Some cleaned ∧
    ∀ i t t', i < length images → results !! i = Some t →
              cleaned !! i = Some t' →
      ∀ j, j < nrows t' →
        ∃ k f u,
          row t' j !! "flux_fit" = Some (VFloat f) ∧
          row t' j !! "flux_unc" = Some (VFloat u) ∧
          flt (of_int 0) f = true ∧
          row t' j !! (filt +:+ "_inst") =
            Some (VFloat (fmul minus_2_5 (log10 f))) ∧
          (masked_column t "flux_unc" = false →
           masked_column t "flux_fit" = false →
           row t' j !! ("e" +:+ filt +:+ "_inst") =
             Some (VFloat (fmul c_1_086 (fdiv u f)))) ∧
          (masked_column t "flux_unc" = true ∨
           masked_column t "flux_fit" = true →
           (is_nan u = true → ma_masks u f = true) ∧
           row t' j !! ("e" +:+ filt +:+ "_inst") =
             Some (if ma_masks u f then VMasked
                   else VFloat (fmul c_1_086 (fdiv u f)))) ∧
          ∀ name, name ≠ filt +:+ "_inst" → name ≠ "e" +:+ filt +:+ "_inst" →
                  row t' j !! name = row t k !! name.
Proof.
  intros Hlen Hall.
  destruct (results_clean_total images results filt Hlen Hall) as [cleaned Hc].
  exists cleaned. split; [done|].
  destruct (results_clean_inv _ _ _ _ Hc) as [L Hi].
  intros i t t' Hlt Et Et' j Hj.
  destruct (Hi i Hlt) as (im0 & t0 & t0' & E0 & Et0 & Et0' & Hrun).
  assert (t0 = t) as -> by congruence.
  assert (t0' = t') as -> by congruence.
  destruct (clean_one_rows im0 filt t) as (t'' & kept & Hrun' & _ & Hn & _ & Hk & Hrow).
  { rewrite Forall_forall in Hall. apply Hall. by eapply list_elem_of_lookup_2. }
  assert (t'' = t') as -> by congruence.
  destruct (proj2 (lookup_lt_is_Some kept j)) as [k Ek]; [lia|].
  destruct (Hrow j k Ek) as (Hsame & f & u & Ef & Eu & Hmag & Herr).
  assert (valid_detection (shape im0) (row t k)) as (x & y & f' & _ & _ & Ef' & _ & Hpos).
  { apply Hk. by eapply list_elem_of_lookup_2. }
  assert (f' = f) as -> by congruence.
  exists k, f, u. split_and!; try done.
  - rewrite Hsame; [done| |]; apply not_eq_sym.
    + apply inst_ne_read. in_list.
    + apply einst_ne_read. in_list.
  - rewrite Hsame; [done| |]; apply not_eq_sym.
    + apply inst_ne_read. in_list.
    + apply einst_ne_read. in_list.
  - intros H1 H2. by rewrite Herr, H1, H2.
  - intros Hm. split; [apply ma_masks_nan|].
    assert (masked_column t "flux_unc" || masked_column t "flux_fit" = true)
      as Hor by (apply orb_true_iff; exact Hm).
    rewrite Herr, Hor. unfold err_entry. simpl. by destruct (ma_masks u f).
Qed.

(** C10.  The in-bounds test of the cleaning step reads the shape of the
    first image of the set only.  Two sets of images of one length whose
    first images have the same shape give the same cleaned catalogues,
    whatever the shapes of the other images; and in every cleaned catalogue
    [i] a detection is kept if and only if it is valid for the shape of
    image 0, so a detection that is outside its own image [i] is kept, and
    one inside its own image is dropped, when the first image says so. *)
Theorem clean_uses_first_image_bounds `{Ext : Externals}
    (images images' : list Image) (results : list Table) (filt : string) :
  length images = length images' →
  shape <$> images !! 0 = shape <$> images' !! 0 →
  length images ≤ length results → Forall phot_table results →
  results_clean images results filt = results_clean images' results filt ∧
  ∃ cleaned,
    results_clean images results filt = Some cleaned ∧
    ∀ i im0 imi t, images !! 0 = Some im0 → images !! i = Some imi →
                   results !! i = Some t →
      ∃ t' kept,
        cleaned !! i = Some t' ∧ nrows t' = length kept ∧
        (∀ k, valid_detection (shape im0) (row t k) →
              ¬ valid_detection (shape imi) (row t k) → k ∈ kept) ∧
        (∀ k, ¬ valid_detection (shape im0) (row t k) →
              valid_detection (shape imi) (row t k) → k ∉ kept) ∧
        (∀ j k name, kept !! j = Some k →
           name ≠ filt +:+ "_inst" → name ≠ "e" +:+ filt +:+ "_inst" →
           row t' j !! name = row t k !! name).
Proof.
  intros Hl Hs Hlen Hall. split.
  - unfold results_clean. rewrite <- Hl. apply mapM_pointwise. intros i _.
    destruct (results !! i) as [t|]; simpl; [|done].
    destruct (images !! 0) as [im0|], (images' !! 0) as [im0'|];
      simpl in *; try done.
    apply clean_one_shape. congruence.
  - destruct (results_clean_total images results filt Hlen Hall) as [cleaned Hc].
    exists cleaned. split; [done|].
    destruct (results_clean_inv _ _ _ _ Hc) as [L Hi].
    intros i im0 imi t E0 Ei Et.
    destruct (Hi i (lookup_lt_Some _ _ _ Ei))
      as (im0' & t0 & t' & E0' & Et0 & Et' & Hrun).
    assert (im0' = im0) as -> by congruence.
    assert (t0 = t) as -> by congruence.
    destruct (clean_one_rows im0 filt t)
      as (t'' & kept & Hrun' & _ & Hn & _ & Hk & Hrow).
    { rewrite Forall_forall in Hall. apply Hall. by eapply list_elem_of_lookup_2. }
    assert (t'' = t') as -> by congruence.
    exists t', kept. repeat split; try done.
    + intros k Hv _. by apply Hk.
    + intros k Hv _ Hin. by apply Hv, Hk.
    + intros j k name Ej. by apply (Hrow j k Ej).
Qed.

(** ** 4. Transform pixel to equatorial coordinates *)

Section SkyFacts.
Context `{Ext : Externals}.

Lemma to_sky_spec im (t : Table) x y :
  table_wf t →
  cols t !! "x_fit" = Some (FloatCol x) →
  cols t !! "y_fit" = Some (FloatCol y) →
  ∃ t', to_sky im t = Some t' ∧ table_wf t' ∧ nrows t' = nrows t ∧
        cols t' = <[ "radec" := CoordCol (pixel_to_sky im x y) ]> (cols t).
Proof.
  intros Hwf Hx Hy. unfold to_sky.
  rewrite (proj2 (float_col_Some t _ _) Hx), (proj2 (float_col_Some t _ _) Hy).
  simpl. apply set_col_spec; [done|by eapply cols_nonempty|].
  simpl. unfold pixel_to_sky. rewrite length_zip_with.
  pose proof (wf_col_len _ _ _ Hwf Hx). pose proof (wf_col_len _ _ _ Hwf Hy).
  simpl in *. lia.
Qed.

Lemma results_final_inv images cleaned finals :
  results_final images cleaned = Some finals →
  length finals = length images ∧
  ∀ i, i < length images →
    ∃ im t t', images !! i = Some im ∧ cleaned !! i = Some t ∧
               finals !! i = Some t' ∧ to_sky im t = Some t'.
Proof.
  unfold results_final. intros H. apply mapM_seq_lookup in H as [L H].
  split; [done|]. intros i Hi. destruct (H i Hi) as (t' & Et' & Hrun).
  destruct (cleaned !! i) as [t|]; simpl in Hrun; [|done].
  destruct (images !! i) as [im|]; simpl in Hrun; [|done].
  by exists im, t, t'.
Qed.

Lemma results_final_total images cleaned :
  length images ≤ length cleaned → Forall pixel_table cleaned →
  is_Some (results_final images cleaned).
Proof.
  intros Hlen Hall. apply mapM_seq_is_Some. intros i Hi.
  destruct (proj2 (lookup_lt_is_Some cleaned i)) as [t Et]; [lia|].
  destruct (proj2 (lookup_lt_is_Some images i)) as [im Ei]; [lia|].
  rewrite Et, Ei. simpl.
  rewrite Forall_forall in Hall.
  destruct (Hall t) as (Hwf & x & y & Hx & Hy); [by eapply list_elem_of_lookup_2|].
  by destruct (to_sky_spec im t x y Hwf Hx Hy) as (t' & -> & _).
Qed.

(** The final catalogues are rectangular and carry sky positions, so the
    cross-match applies to them. *)
Lemma results_final_sky_tables images cleaned finals :
  Forall pixel_table cleaned →
  results_final images cleaned = Some finals →
  Forall sky_table finals.
Proof.
  intros Hall Hrun. destruct (results_final_inv _ _ _ Hrun) as [L Hi].
  apply Forall_lookup. intros i t' Ei.
  destruct (Hi i) as (im & t & t'' & _ & Et & Et'' & Hone).
  { apply lookup_lt_Some in Ei. lia. }
  assert (t'' = t') as -> by congruence.
  rewrite Forall_forall in Hall.
  destruct (Hall t) as (Hwf & x & y & Hx & Hy); [by eapply list_elem_of_lookup_2|].
  destruct (to_sky_spec im t x y Hwf Hx Hy) as (t0 & Hone' & Hwf' & _ & Hc).
  assert (t0 = t') as -> by congruence.
  split; [done|]. exists (pixel_to_sky im x y). by rewrite Hc, lookup_insert_eq.
Qed.

End SkyFacts.

(** C6.  For every cleaned catalogue [i], the pixel-to-sky step returns the
    catalogue with a [radec] column whose value in each row is the sky
    position built from the (RA, Dec) that the WCS of image [i] itself gives
    for the row's (x_fit, y_fit); every other column is as it was, so when
    the catalogue had no [radec] column, all its columns are unchanged. *)
Theorem pixel_to_sky_adds_radec `{Ext : Externals}
    (images : list Image) (cleaned : list Table) :
  length images ≤ length cleaned → Forall pixel_table cleaned →
  ∃ finals,
    results_final images cleaned = Some finals ∧
    length finals = length images ∧
    ∀ i im t, images !! i = Some im → cleaned !! i = Some t →
      ∃ t', finals !! i = Some t' ∧ nrows t' = nrows t ∧
        (∀ k, k < nrows t →
           ∃ x y, row t k !! "x_fit" = Some (VFloat x) ∧
                  row t k !! "y_fit" = Some (VFloat y) ∧
                  row t' k !! "radec" =
                    Some (VCoord (SkyCoord (wcs im x y).1 (wcs im x y).2))) ∧
        (∀ name, name ≠ "radec" → cols t' !! name = cols t !! name) ∧
        (cols t !! "radec" = None →
         ∀ name c, cols t !! name = Some c → cols t' !! name = Some c).
Proof.
  intros Hlen Hall.
  destruct (results_final_total images cleaned Hlen Hall) as [finals Hf].
  exists finals. split; [done|].
  destruct (results_final_inv _ _ _ Hf) as [L Hi]. split; [done|].
  intros i im t Ei Et.
  destruct (Hi i (lookup_lt_Some _ _ _ Ei)) as (im' & t0 & t' & Ei' & Et0 & Et' & Hrun).
  assert (im' = im) as -> by congruence.
  assert (t0 = t) as -> by congruence.
  rewrite Forall_forall in Hall.
  destruct (Hall t) as (Hwf & x & y & Hx & Hy); [by eapply list_elem_of_lookup_2|].
  destruct (to_sky_spec im t x y Hwf Hx Hy) as (t'' & Hrun' & Hwf' & Hn & Hc).
  assert (t'' = t') as -> by congruence.
  exists t'. repeat split; try done.
  - intros k Hk.
    pose proof (wf_col_len _ _ _ Hwf Hx) as Lx.
    pose proof (wf_col_len _ _ _ Hwf Hy) as Ly. simpl in Lx, Ly.
    destruct (proj2 (lookup_lt_is_Some x k)) as [xv Ex]; [lia|].
    destruct (proj2 (lookup_lt_is_Some y k)) as [yv Ey]; [lia|].
    exists xv, yv.
    rewrite (row_float t k _ _ Hx), (row_float t k _ _ Hy), Ex, Ey.
    repeat split; try done.
    rewrite row_lookup, Hc, lookup_insert_eq. simpl. unfold pixel_to_sky.
    by rewrite lookup_zip_with, Ex, Ey.
  - intros name Hne. by rewrite Hc, lookup_insert_ne.
  - intros Hnone name c Hname. rewrite Hc, lookup_insert_ne; [done|].
    intros <-. congruence.
Qed.

(** ** 5. Cross-match the catalogs *)

Lemma select_Forall {A} (P : A → Prop) (mask : list bool) (l : list A) :
  Forall P l → Forall P (select mask l).
Proof.
  intros H. revert mask. induction H as [|x l Hx _ IH]; intros [|b mask];
    simpl; try done.
  destruct b; [constructor; [done|apply IH]|apply IH].
Qed.

Lemma concat_lookup_rect {A} (ms : list (list A)) n a b r x :
  Forall (λ r, length r = n) ms →
  ms !! a = Some r → r !! b = Some x → concat ms !! (a * n + b) = Some x.
Proof.
  intros H. revert a. induction H as [|r0 ms Hr0 _ IH]; intros a; [done|].
  destruct a as [|a]; simpl.
  - intros [= ->] Hb. by apply lookup_app_l_Some.
  - intros Ha Hb. rewrite lookup_app_r by lia.
    replace (n + a * n + b - length r0) with (a * n + b) by lia. by apply IH.
Qed.

Lemma concat_length_rect {A} (ms : list (list A)) n :
  Forall (λ r, length r = n) ms → length (concat ms) = length ms * n.
Proof.
  induction 1 as [|r0 ms Hr0 _ IH]; simpl; [done|].
  rewrite length_app, IH. lia.
Qed.

Section CrossMatchFacts.
Context `{Ext : Externals}.

Lemma sep_constraint_length (d2d : list Angle) :
  length (sep_constraint d2d) = length d2d.
Proof. unfold sep_constraint. apply length_fmap. Qed.

Lemma sep_constraint_lookup (d2d : list Angle) k d :
  d2d !! k = Some d →
  sep_constraint d2d !! k = Some (flt (fdiv (arcsec d) pixelscale) max_sep).
Proof. intros H. unfold sep_constraint. by rewrite list_lookup_fmap, H. Qed.

(** What the oracle gives for every entry of the matched array. *)
Lemma oracle_entries (m c : list Coord) idx d2d :
  oracle_contract → c ≠ [] →
  match_coordinates_sky m c = Some (idx, d2d) →
  length idx = length m ∧ length d2d = length m ∧
  Forall (λ n, n < length c) idx ∧
  ∀ k p, m !! k = Some p →
    ∃ n d, idx !! k = Some n ∧ d2d !! k = Some d ∧ nearest_neighbour p c n d.
Proof.
  intros Hor Hc Hm.
  destruct (Hor m c Hc) as (idx' & d2d' & Hm' & Li & Ld & Hnn).
  rewrite Hm in Hm'. injection Hm' as <- <-.
  assert (∀ k p, m !! k = Some p →
            ∃ n d, idx !! k = Some n ∧ d2d !! k = Some d ∧
                   nearest_neighbour p c n d) as Hall.
  { intros k p Ek. pose proof (lookup_lt_Some _ _ _ Ek) as Hk.
    destruct (proj2 (lookup_lt_is_Some idx k)) as [n En]; [lia|].
    destruct (proj2 (lookup_lt_is_Some d2d k)) as [d Ed]; [lia|].
    exists n, d. repeat split; try done. by apply (Hnn k p n d). }
  repeat split; try done.
  apply Forall_lookup. intros k n En.
  destruct (proj2 (lookup_lt_is_Some m k)) as [p Ep].
  { apply lookup_lt_Some in En. lia. }
  destruct (Hall k p Ep) as (n' & d & En' & _ & q & Eq & _).
  assert (n' = n) as -> by congruence. by eapply lookup_lt_Some.
Qed.

(** The body of the cross-match loop on two catalogues with sky positions,
    the second one not empty. *)
Lemma cross_match_spec (res1 res2 : Table) c1 c2 :
  oracle_contract →
  table_wf res1 → table_wf res2 →
  cols res1 !! "radec" = Some (CoordCol c1) →
  cols res2 !! "radec" = Some (CoordCol c2) →
  c2 ≠ [] →
  ∃ idx d2d m1 m2,
    match_coordinates_sky c1 c2 = Some (idx, d2d) ∧
    cross_match res1 res2 = Some (m1, m2) ∧
    table_wf m1 ∧ table_wf m2 ∧
    cols m1 = col_select (sep_constraint d2d) <$> cols res1 ∧
    nrows m1 = count_true (sep_constraint d2d) ∧
    nrows m2 = count_true (sep_constraint d2d) ∧
    (∀ j k, positions (sep_constraint d2d) !! j = Some k →
       row m1 j = row res1 k ∧
       ∃ n, idx !! k = Some n ∧ row m2 j = row res2 n) ∧
    (∀ k p, c1 !! k = Some p →
       ∃ n d, idx !! k = Some n ∧ d2d !! k = Some d ∧
              nearest_neighbour p c2 n d).
Proof.
  intros Hor Hwf1 Hwf2 Hc1 Hc2 Hne.
  pose proof (wf_col_len _ _ _ Hwf1 Hc1) as L1.
  pose proof (wf_col_len _ _ _ Hwf2 Hc2) as L2. simpl in L1, L2.
  destruct (Hor c1 c2 Hne) as (idx & d2d & Hm & _).
  destruct (oracle_entries c1 c2 idx d2d Hor Hne Hm) as (Li & Ld & Hrange & Hnn).
  unfold cross_match.
  rewrite (proj2 (coord_col_Some res1 _ _) Hc1),
          (proj2 (coord_col_Some res2 _ _) Hc2). simpl. rewrite Hm. simpl.
  pose proof (sep_constraint_length d2d) as Lsc.
  destruct (table_select_spec (sep_constraint d2d) res1 Hwf1) as (m1 & -> & Hwfm1 & Hn1 & Hcm1 & Hrow1);
    [lia|]. simpl.
  unfold mask_index. rewrite decide_True by lia. simpl.
  destruct (table_take_spec (select (sep_constraint d2d) idx) res2 Hwf2)
    as (m2 & -> & Hwfm2 & Hn2 & _ & Hrow2).
  { apply select_Forall. by rewrite <- L2. }
  simpl. exists idx, d2d, m1, m2. repeat split; try done.
  - rewrite Hn2. apply select_length. lia.
  - by apply Hrow1.
  - pose proof (lookup_lt_Some _ _ _ H) as Hj.
    assert (k < length idx) as Hk.
    { assert (sep_constraint d2d !! k = Some true) as Hk
        by (apply elem_of_positions; by eapply list_elem_of_lookup_2).
      apply lookup_lt_Some in Hk. lia. }
    destruct (proj2 (lookup_lt_is_Some idx k) Hk) as [n En].
    exists n. split; [done|]. apply Hrow2.
    rewrite select_lookup by lia. rewrite H. simpl. done.
Qed.

Lemma matches_phot_inv finals1 finals2 (mp1 mp2 : list Table) :
  matches_phot finals1 finals2 = Some (mp1, mp2) →
  length mp1 = length finals1 * length finals2 ∧
  length mp2 = length finals1 * length finals2 ∧
  ∀ a b res1 res2, finals1 !! a = Some res1 → finals2 !! b = Some res2 →
    ∃ m1 m2, cross_match res1 res2 = Some (m1, m2) ∧
             mp1 !! (a * length finals2 + b) = Some m1 ∧
             mp2 !! (a * length finals2 + b) = Some m2.
Proof.
  unfold matches_phot.
  destruct (mapM _ finals1) as [ms|] eqn:E; simpl; [|done].
  intros [= <- <-]. apply mapM_Some in E.
  assert (Forall (λ r, length r = length finals2) ms) as Hrect.
  { apply Forall_lookup. intros a r Ea.
    destruct (Forall2_lookup_r _ _ _ _ _ E Ea) as (res1 & _ & Hr).
    apply mapM_Some, Forall2_length in Hr. done. }
  rewrite !length_fmap, (concat_length_rect _ _ Hrect).
  rewrite <- (Forall2_length _ _ _ E). repeat split; try done.
  intros a b res1 res2 Ea Eb.
  destruct (Forall2_lookup_l _ _ _ _ _ E Ea) as (r & Er & Hr).
  apply mapM_Some in Hr.
  destruct (Forall2_lookup_l _ _ _ _ _ Hr Eb) as ([m1 m2] & Ep & Hp).
  exists m1, m2. split; [done|].
  rewrite !list_lookup_fmap, (concat_lookup_rect _ _ _ _ _ _ Hrect Er Ep).
  done.
Qed.

Lemma matches_phot_total (finals1 finals2 : list Table) :
  (∀ res1 res2, res1 ∈ finals1 → res2 ∈ finals2 →
                is_Some (cross_match res1 res2)) →
  is_Some (matches_phot finals1 finals2).
Proof.
  intros H. unfold matches_phot.
  destruct (mapM _ finals1) as [ms|] eqn:E; simpl; [done|].
  assert (is_Some (mapM (λ res1, mapM (λ res2, cross_match res1 res2) finals2)
                        finals1)) as [ms Hms]; [|congruence].
  apply mapM_is_Some, Forall_forall. intros res1 H1. simpl.
  apply mapM_is_Some, Forall_forall. intros res2 H2. simpl. by apply H.
Qed.

End CrossMatchFacts.

(** ** 6.3 Cross-match with the LMC astrometric catalog *)

Lemma mask_index_Some {A} (mask : list bool) (l : list A) :
  length mask = length l → mask_index mask l = Some (select mask l).
Proof. intros H. unfold mask_index. by rewrite decide_True. Qed.

Section RefMatchFacts.
Context `{Ext : Externals}.

Lemma ref_match_spec filt1 filt2 (sel : Table) mp1 mp2
    (catalog1 catalog2 : Table) ra de mag1 mag2 c1 :
  oracle_contract →
  table_wf sel →
  cols sel !! "ra_in" = Some (FloatCol ra) →
  cols sel !! "dec_in" = Some (FloatCol de) →
  cols sel !! filt1 = Some (FloatCol mag1) →
  cols sel !! filt2 = Some (FloatCol mag2) →
  mp1 !! 0 = Some catalog1 → mp2 !! 0 = Some catalog2 →
  table_wf catalog1 → table_wf catalog2 →
  nrows catalog1 = nrows catalog2 →
  cols catalog1 !! "radec" = Some (CoordCol c1) → c1 ≠ [] →
  ∃ idx d2d inp out1 out2,
    match_coordinates_sky (zip_with SkyCoord ra de) c1 = Some (idx, d2d) ∧
    ref_match filt1 filt2 sel mp1 mp2 = Some (inp, out1, out2) ∧
    length (zip_with SkyCoord ra de) = nrows sel ∧
    nrows inp = count_true (sep_constraint d2d) ∧
    nrows out1 = count_true (sep_constraint d2d) ∧
    nrows out2 = count_true (sep_constraint d2d) ∧
    cols inp =
      <[ filt2 := FloatCol (select (sep_constraint d2d) mag2) ]>
        (<[ filt1 := FloatCol (select (sep_constraint d2d) mag1) ]>
           {[ "radec" :=
                CoordCol (select (sep_constraint d2d) (zip_with SkyCoord ra de)) ]}) ∧
    (∀ j k, positions (sep_constraint d2d) !! j = Some k →
       ∃ n, idx !! k = Some n ∧
            row out1 j = row catalog1 n ∧ row out2 j = row catalog2 n) ∧
    (∀ k p, zip_with SkyCoord ra de !! k = Some p →
       ∃ n d, idx !! k = Some n ∧ d2d !! k = Some d ∧
              nearest_neighbour p c1 n d) ∧
    table_wf inp ∧ table_wf out1 ∧ table_wf out2.
Proof.
  intros Hor Hwf Hra Hde Hm1 Hm2 E1 E2 Hwf1 Hwf2 Hrows Hc1 Hne.
  pose proof (wf_col_len _ _ _ Hwf Hra) as Lra.
  pose proof (wf_col_len _ _ _ Hwf Hde) as Lde.
  pose proof (wf_col_len _ _ _ Hwf Hm1) as Lm1.
  pose proof (wf_col_len _ _ _ Hwf Hm2) as Lm2.
  pose proof (wf_col_len _ _ _ Hwf1 Hc1) as Lc1.
  simpl in Lra, Lde, Lm1, Lm2, Lc1.
  assert (length (zip_with SkyCoord ra de) = nrows sel) as Lin
    by (rewrite length_zip_with; lia).
  destruct (Hor (zip_with SkyCoord ra de) c1 Hne) as (idx & d2d & Hm & _).
  destruct (oracle_entries _ c1 idx d2d Hor Hne Hm) as (Li & Ld & Hrange & Hnn).
  pose proof (sep_constraint_length d2d) as Lsc.
  unfold ref_match.
  rewrite (proj2 (float_col_Some sel _ _) Hra),
          (proj2 (float_col_Some sel _ _) Hde). simpl.
  rewrite E1, E2. simpl.
  rewrite (proj2 (coord_col_Some catalog1 _ _) Hc1). simpl.
  rewrite Hm. simpl.
  rewrite (mask_index_Some _ (zip_with SkyCoord ra de)) by lia. simpl.
  rewrite set_col_empty. simpl.
  rewrite (proj2 (float_col_Some sel _ _) Hm1). simpl.
  rewrite (mask_index_Some _ mag1) by lia. simpl.
  destruct (set_col_spec filt1 (FloatCol (select (sep_constraint d2d) mag1))
              {| nrows := length (select (sep_constraint d2d) (zip_with SkyCoord ra de));
                 cols := {[ "radec" :=
                    CoordCol (select (sep_constraint d2d) (zip_with SkyCoord ra de)) ]} |})
    as (t2 & -> & Hwft2 & Hnt2 & Hct2).
  { intros name c. simpl. rewrite lookup_singleton_Some. by intros [_ <-]. }
  { simpl. apply insert_non_empty. }
  { simpl. rewrite !select_length by lia. done. }
  simpl in Hnt2, Hct2. simpl.
  rewrite (proj2 (float_col_Some sel _ _) Hm2). simpl.
  rewrite (mask_index_Some _ mag2) by lia. simpl.
  destruct (set_col_spec filt2 (FloatCol (select (sep_constraint d2d) mag2)) t2 Hwft2)
    as (inp & -> & Hwfi & Hni & Hci).
  { rewrite Hct2. apply insert_non_empty. }
  { simpl. rewrite Hnt2, !select_length by lia. done. }
  simpl.
  rewrite (mask_index_Some _ idx) by lia. simpl.
  destruct (table_take_spec (select (sep_constraint d2d) idx) catalog1 Hwf1)
    as (out1 & -> & Hwfo1 & Hn1 & _ & Hrow1).
  { apply select_Forall. by rewrite <- Lc1. }
  simpl.
  destruct (table_take_spec (select (sep_constraint d2d) idx) catalog2 Hwf2)
    as (out2 & -> & Hwfo2 & Hn2 & _ & Hrow2).
  { apply select_Forall. by rewrite <- Hrows, <- Lc1. }
  simpl. exists idx, d2d, inp, out1, out2. split; [done|]. split; [done|].
  split; [done|].
  split; [by rewrite Hni, Hnt2, select_length by lia|].
  split; [by rewrite Hn1, select_length by lia|].
  split; [by rewrite Hn2, select_length by lia|].
  split; [by rewrite Hci, Hct2|]. split; [|done].
  intros j k Hj.
  assert (k < length idx) as Hk.
  { assert (sep_constraint d2d !! k = Some true) as Hk
      by (apply elem_of_positions; by eapply list_elem_of_lookup_2).
    apply lookup_lt_Some in Hk. lia. }
  destruct (proj2 (lookup_lt_is_Some idx k) Hk) as [n En].
  exists n. split; [done|].
  assert (select (sep_constraint d2d) idx !! j = Some n) as Hsel.
  { rewrite select_lookup by lia. rewrite Hj. simpl. done. }
  split; [by apply Hrow1|by apply Hrow2].
Qed.

End RefMatchFacts.

(** ** Paired outputs *)

Section PairedFacts.
Context `{Ext : Externals}.

Lemma table_select_nrows mask (t t' : Table) :
  table_select mask t = Some t' → nrows t' = count_true mask.
Proof. unfold table_select. case_decide; [|done]. by intros [= <-]. Qed.

Lemma mask_index_inv {A} (mask : list bool) (l l' : list A) :
  mask_index mask l = Some l' → length l' = count_true mask.
Proof.
  unfold mask_index. case_decide; [|done]. intros [= <-].
  by apply select_length.
Qed.

Lemma set_col_nrows name c (t t' : Table) :
  set_col name c t = Some t' → nrows t' = col_len c.
Proof.
  unfold set_col. repeat case_decide; try done; intros [= <-]; simpl; congruence.
Qed.

(** Whenever the body of the cross-match loop returns, its two tables have
    the same number of rows. *)
Lemma cross_match_nrows (res1 res2 m1 m2 : Table) :
  cross_match res1 res2 = Some (m1, m2) → nrows m1 = nrows m2.
Proof.
  unfold cross_match. intros H.
  destruct (coord_col res1 "radec") as [c1|]; simpl in H; [|done].
  destruct (coord_col res2 "radec") as [c2|]; simpl in H; [|done].
  destruct (match_coordinates_sky c1 c2) as [[idx d2d]|]; simpl in H; [|done].
  destruct (table_select _ res1) as [t1|] eqn:E1; simpl in H; [|done].
  destruct (mask_index _ idx) as [kept|] eqn:E2; simpl in H; [|done].
  destruct (table_take kept res2) as [t2|] eqn:E3; simpl in H; [|done].
  injection H as <- <-.
  apply table_select_nrows in E1. apply mask_index_inv in E2.
  apply table_take_inv in E3 as [_ E3]. congruence.
Qed.

Lemma ref_match_nrows filt1 filt2 (sel : Table) mp1 mp2 (inp out1 out2 : Table) :
  ref_match filt1 filt2 sel mp1 mp2 = Some (inp, out1, out2) →
  nrows inp = nrows out1 ∧ nrows out1 = nrows out2.
Proof.
  unfold ref_match. intros H.
  destruct (float_col sel "ra_in") as [ra|]; simpl in H; [|done].
  destruct (float_col sel "dec_in") as [de|]; simpl in H; [|done].
  destruct (mp1 !! 0) as [catalog1|]; simpl in H; [|done].
  destruct (mp2 !! 0) as [catalog2|]; simpl in H; [|done].
  destruct (coord_col catalog1 "radec") as [c1|]; simpl in H; [|done].
  destruct (match_coordinates_sky _ c1) as [[idx d2d]|]; simpl in H; [|done].
  destruct (mask_index _ (zip_with SkyCoord ra de)) as [radec_m|] eqn:E1;
    simpl in H; [|done].
  destruct (set_col "radec" _ empty_table) as [t1|] eqn:E2; simpl in H; [|done].
  destruct (float_col sel filt1) as [mag1|]; simpl in H; [|done].
  destruct (mask_index _ mag1) as [mag1_m|] eqn:E3; simpl in H; [|done].
  destruct (set_col filt1 _ t1) as [t2|] eqn:E4; simpl in H; [|done].
  destruct (float_col sel filt2) as [mag2|]; simpl in H; [|done].
  destruct (mask_index _ mag2) as [mag2_m|] eqn:E5; simpl in H; [|done].
  destruct (set_col filt2 _ t2) as [t3|] eqn:E6; simpl in H; [|done].
  destruct (mask_index _ idx) as [kept|] eqn:E7; simpl in H; [|done].
  destruct (table_take kept catalog1) as [o1|] eqn:E8; simpl in H; [|done].
  destruct (table_take kept catalog2) as [o2|] eqn:E9; simpl in H; [|done].
  injection H as <- <- <-.
  apply set_col_nrows in E6. apply mask_index_inv in E5, E7.
  apply table_take_inv in E8 as [_ E8]. apply table_take_inv in E9 as [_ E9].
  simpl in E6. split; congruence.
Qed.

Lemma matches_phot_elem finals1 finals2 (mp1 mp2 : list Table) i m1 m2 :
  matches_phot finals1 finals2 = Some (mp1, mp2) →
  mp1 !! i = Some m1 → mp2 !! i = Some m2 →
  ∃ res1 res2, res1 ∈ finals1 ∧ res2 ∈ finals2 ∧
               cross_match res1 res2 = Some (m1, m2).
Proof.
  unfold matches_phot.
  destruct (mapM _ finals1) as [ms|] eqn:E; simpl; [|done].
  intros [= <- <-]. rewrite !list_lookup_fmap. intros H1 H2.
  destruct (concat ms !! i) as [[a b]|] eqn:Ei; simpl in *; [|done].
  injection H1 as ->. injection H2 as ->.
  apply list_elem_of_lookup_2, list_elem_of_In, in_concat in Ei
    as (r & Hr & Hin).
  apply list_elem_of_In in Hr, Hin. apply mapM_Some in E.
  apply list_elem_of_lookup in Hr as [a Ha].
  destruct (Forall2_lookup_r _ _ _ _ _ E Ha) as (res1 & E1 & Hrow).
  apply mapM_Some in Hrow.
  apply list_elem_of_lookup in Hin as [b Hb].
  destruct (Forall2_lookup_r _ _ _ _ _ Hrow Hb) as (res2 & E2 & Hp).
  exists res1, res2. repeat split; try done; by eapply list_elem_of_lookup_2.
Qed.

End PairedFacts.

Section MatchLoop.
Context `{Ext : Externals}.

Lemma sky_table_nonempty (t : Table) c :
  table_wf t → cols t !! "radec" = Some (CoordCol c) → nrows t ≠ 0 → c ≠ [].
Proof.
  intros Hwf Hc Hn ->. apply Hn. by rewrite <- (wf_col_len _ _ _ Hwf Hc).
Qed.

(** The double loop finishes on catalogues with sky positions when no
    filter-2 catalogue is empty. *)
Lemma matches_phot_returns (finals1 finals2 : list Table) :
  oracle_contract →
  Forall sky_table finals1 → Forall sky_table finals2 →
  Forall (λ t, nrows t ≠ 0) finals2 →
  ∃ mp1 mp2, matches_phot finals1 finals2 = Some (mp1, mp2).
Proof.
  intros Hor H1 H2 Hne.
  destruct (matches_phot_total finals1 finals2) as [[mp1 mp2] H]; [|by eauto].
  intros res1 res2 Hr1 Hr2. rewrite Forall_forall in H1, H2, Hne.
  destruct (H1 res1 Hr1) as (Hwf1 & c1 & Hc1).
  destruct (H2 res2 Hr2) as (Hwf2 & c2 & Hc2).
  destruct (cross_match_spec res1 res2 c1 c2 Hor Hwf1 Hwf2 Hc1 Hc2)
    as (idx & d2d & m1 & m2 & _ & -> & _); [|done].
  eapply sky_table_nonempty; eauto.
Qed.

End MatchLoop.

(** C1.  In the two-filter cross-match, for every pair of final catalogues,
    row [k] of the filter-1 catalogue is among the matched rows if and only
    if the separation [d] to its nearest filter-2 neighbour satisfies
    [d.arcsec / 0.031 < 0.5]; the matched filter-1 table consists of those
    rows, in order.  The cross-match of the selected reference catalogue
    against the matched photometry catalogue applies the same test. *)
Theorem cross_match_threshold `{Ext : Externals} :
  oracle_contract →
  (∀ finals1 finals2 : list Table,
     Forall sky_table finals1 → Forall sky_table finals2 →
     Forall (λ t, nrows t ≠ 0) finals2 →
     ∃ mp1 mp2,
       matches_phot finals1 finals2 = Some (mp1, mp2) ∧
       ∀ a b res1 res2 c1 c2,
         finals1 !! a = Some res1 → finals2 !! b = Some res2 →
         cols res1 !! "radec" = Some (CoordCol c1) →
         cols res2 !! "radec" = Some (CoordCol c2) →
         ∃ idx d2d m1 kept,
           match_coordinates_sky c1 c2 = Some (idx, d2d) ∧
           mp1 !! (a * length finals2 + b) = Some m1 ∧
           nrows m1 = length kept ∧ increasing kept ∧
           (∀ j k, kept !! j = Some k → row m1 j = row res1 k) ∧
           ∀ k p, c1 !! k = Some p →
             ∃ n d, idx !! k = Some n ∧ d2d !! k = Some d ∧
                    nearest_neighbour p c2 n d ∧
                    (k ∈ kept ↔
                     flt (fdiv (arcsec d) pixelscale) max_sep = true)) ∧
  (∀ filt1 filt2 (sel : Table) mp1 mp2 (catalog1 catalog2 : Table) ra de c1,
     ref_table filt1 filt2 sel →
     cols sel !! "ra_in" = Some (FloatCol ra) →
     cols sel !! "dec_in" = Some (FloatCol de) →
     mp1 !! 0 = Some catalog1 → mp2 !! 0 = Some catalog2 →
     table_wf catalog1 → table_wf catalog2 →
     nrows catalog1 = nrows catalog2 →
     cols catalog1 !! "radec" = Some (CoordCol c1) → c1 ≠ [] →
     ∃ idx d2d inp out1 out2 kept,
       match_coordinates_sky (zip_with SkyCoord ra de) c1 = Some (idx, d2d) ∧
       ref_match filt1 filt2 sel mp1 mp2 = Some (inp, out1, out2) ∧
       nrows inp = length kept ∧ increasing kept ∧
       (∀ j k, kept !! j = Some k →
          row inp j !! filt1 = row sel k !! filt1 ∧
          row inp j !! filt2 = row sel k !! filt2) ∧
       ∀ k p, zip_with SkyCoord ra de !! k = Some p →
         ∃ n d, idx !! k = Some n ∧ d2d !! k = Some d ∧
                nearest_neighbour p c1 n d ∧
                (k ∈ kept ↔
                 flt (fdiv (arcsec d) pixelscale) max_sep = true)).
Proof.
  intros Hor. split.
  - intros finals1 finals2 H1 H2 Hne.
    destruct (matches_phot_returns finals1 finals2 Hor H1 H2 Hne)
      as (mp1 & mp2 & Hmp).
    exists mp1, mp2. split; [done|].
    intros a b res1 res2 c1 c2 Ea Eb Hc1 Hc2.
    destruct (matches_phot_inv _ _ _ _ Hmp) as (_ & _ & Hpair).
    destruct (Hpair a b res1 res2 Ea Eb) as (m1 & m2 & Hcm & Em1 & _).
    rewrite Forall_forall in H1, H2, Hne.
    destruct (H1 res1) as (Hwf1 & _); [by eapply list_elem_of_lookup_2|].
    destruct (H2 res2) as (Hwf2 & _); [by eapply list_elem_of_lookup_2|].
    destruct (cross_match_spec res1 res2 c1 c2 Hor Hwf1 Hwf2 Hc1 Hc2)
      as (idx & d2d & m1' & m2' & Hm & Hcm' & _ & _ & _ & Hn1 & _ & Hrows & Hnn).
    { eapply sky_table_nonempty; eauto. apply Hne.
      by eapply list_elem_of_lookup_2. }
    assert (m1' = m1) as -> by congruence.
    exists idx, d2d, m1, (positions (sep_constraint d2d)).
    repeat split; try done.
    + intros j j' k k'. apply positions_increasing.
    + intros j k Hj. by destruct (Hrows j k Hj).
    + intros k p Ek. destruct (Hnn k p Ek) as (n & d & En & Ed & Hnear).
      exists n, d. repeat split; try done.
      * rewrite elem_of_positions, (sep_constraint_lookup _ _ _ Ed).
        by intros [= ->].
      * rewrite elem_of_positions, (sep_constraint_lookup _ _ _ Ed).
        by intros ->.
  - intros filt1 filt2 sel mp1 mp2 catalog1 catalog2 ra de c1
           (Hwf & ra' & de' & mag1 & mag2 & Hra' & Hde' & Hm1 & Hm2)
           Hra Hde E1 E2 Hwf1 Hwf2 Hrows Hc1 Hne.
    destruct (ref_match_spec filt1 filt2 sel mp1 mp2 catalog1 catalog2
                ra de mag1 mag2 c1 Hor Hwf Hra Hde Hm1 Hm2 E1 E2 Hwf1 Hwf2
                Hrows Hc1 Hne)
      as (idx & d2d & inp & out1 & out2 & Hm & Hrun & Lin & Hni & _ & _ & Hci
          & _ & Hnn & _).
    pose proof (wf_col_len _ _ _ Hwf Hm1) as Lm1.
    pose proof (wf_col_len _ _ _ Hwf Hm2) as Lm2. simpl in Lm1, Lm2.
    assert (length (sep_constraint d2d) = nrows sel) as Lsc.
    { rewrite sep_constraint_length.
      destruct (Hor (zip_with SkyCoord ra de) c1 Hne)
        as (idx' & d2d' & Hm' & _ & Ld & _).
      rewrite Hm in Hm'. injection Hm' as <- <-. lia. }
    exists idx, d2d, inp, out1, out2, (positions (sep_constraint d2d)).
    repeat split; try done.
    + intros j j' k k'. apply positions_increasing.
    + rewrite !row_lookup, Hci, Hm1. simpl.
      destruct (decide (filt1 = filt2)) as [<-|Hne12].
      * rewrite lookup_insert_eq. simpl.
        assert (mag2 = mag1) as -> by congruence.
        by rewrite select_lookup, H by lia.
      * rewrite lookup_insert_ne, lookup_insert_eq by done. simpl.
        by rewrite select_lookup, H by lia.
    + rewrite !row_lookup, Hci, Hm2, lookup_insert_eq. simpl.
      by rewrite select_lookup, H by lia.
    + intros k p Ek. destruct (Hnn k p Ek) as (n & d & En & Ed & Hnear).
      exists n, d. repeat split; try done.
      * rewrite elem_of_positions, (sep_constraint_lookup _ _ _ Ed).
        by intros [= ->].
      * rewrite elem_of_positions, (sep_constraint_lookup _ _ _ Ed).
        by intros ->.
Qed.

(** C2.  For every pair of final catalogues and every position [j] of the
    matched outputs, the filter-2 row placed at [j] is a row [n] of the
    filter-2 catalogue whose sky position [q] is nearest to the position
    [p] of the filter-1 row placed at [j]: no row of the whole filter-2
    catalogue is at a strictly smaller angular separation from [p].  The
    nearest neighbour is the one [match_coordinates_sky] returns. *)
Theorem matched_row_is_nearest_neighbour `{Ext : Externals}
    (finals1 finals2 : list Table) :
  oracle_contract →
  Forall sky_table finals1 → Forall sky_table finals2 →
  Forall (λ t, nrows t ≠ 0) finals2 →
  ∃ mp1 mp2,
    matches_phot finals1 finals2 = Some (mp1, mp2) ∧
    ∀ a b res1 res2,
      finals1 !! a = Some res1 → finals2 !! b = Some res2 →
      ∃ m1 m2,
        mp1 !! (a * length finals2 + b) = Some m1 ∧
        mp2 !! (a * length finals2 + b) = Some m2 ∧
        ∀ j, j < nrows m2 →
          ∃ n p q,
            n < nrows res2 ∧ row m2 j = row res2 n ∧
            row m1 j !! "radec" = Some (VCoord p) ∧
            row m2 j !! "radec" = Some (VCoord q) ∧
            ∀ n' q', row res2 n' !! "radec" = Some (VCoord q') →
              flt (arcsec (separation p q')) (arcsec (separation p q)) = false.
Proof.
  intros Hor H1 H2 Hne.
  destruct (matches_phot_returns finals1 finals2 Hor H1 H2 Hne)
    as (mp1 & mp2 & Hmp).
  exists mp1, mp2. split; [done|].
  intros a b res1 res2 Ea Eb.
  destruct (matches_phot_inv _ _ _ _ Hmp) as (_ & _ & Hpair).
  destruct (Hpair a b res1 res2 Ea Eb) as (m1 & m2 & Hcm & Em1 & Em2).
  exists m1, m2. repeat split; try done.
  rewrite Forall_forall in H1, H2, Hne.
  destruct (H1 res1) as (Hwf1 & c1 & Hc1); [by eapply list_elem_of_lookup_2|].
  destruct (H2 res2) as (Hwf2 & c2 & Hc2); [by eapply list_elem_of_lookup_2|].
  destruct (cross_match_spec res1 res2 c1 c2 Hor Hwf1 Hwf2 Hc1 Hc2)
    as (idx & d2d & m1' & m2' & Hm & Hcm' & _ & _ & _ & _ & Hn2 & Hrows & Hnn).
  { eapply sky_table_nonempty; eauto. apply Hne.
    by eapply list_elem_of_lookup_2. }
  assert (m1' = m1) as -> by congruence.
  assert (m2' = m2) as -> by congruence.
  intros j Hj.
  destruct (proj2 (lookup_lt_is_Some (positions (sep_constraint d2d)) j))
    as [k Ek]; [unfold count_true in Hn2; lia|].
  destruct (Hrows j k Ek) as (Hr1 & n & En & Hr2).
  pose proof (wf_col_len _ _ _ Hwf1 Hc1) as L1.
  pose proof (wf_col_len _ _ _ Hwf2 Hc2) as L2. simpl in L1, L2.
  destruct (oracle_entries c1 c2 idx d2d Hor) as (Li & _ & _ & _); [|done|].
  { eapply sky_table_nonempty; eauto. apply Hne.
    by eapply list_elem_of_lookup_2. }
  destruct (proj2 (lookup_lt_is_Some c1 k)) as [p Ep].
  { apply lookup_lt_Some in En. lia. }
  destruct (Hnn k p Ep) as (n0 & d & En0 & Ed & q & Eq & -> & Hmin).
  assert (n0 = n) as -> by congruence.
  exists n, p, q. repeat split.
  - apply lookup_lt_Some in Eq. lia.
  - done.
  - by rewrite Hr1, (row_coord res1 k _ _ Hc1), Ep.
  - by rewrite Hr2, (row_coord res2 n _ _ Hc2), Eq.
  - intros n' q' Hq'. apply Hmin.
    rewrite (row_coord res2 n' _ _ Hc2) in Hq'.
    destruct (c2 !! n') as [q''|] eqn:E; simpl in Hq'; [|done].
    injection Hq' as ->. by eapply list_elem_of_lookup_2.
Qed.

(** C8.  Every cross-match step that returns gives paired outputs of one
    length: in the two-filter match the lists of matched tables have the
    same length and the two tables at each position have the same number
    of rows; in the reference match the matched input table and the two
    matched photometry tables have the same number of rows.  Under the
    oracle contract both steps do return, with rectangular tables, on
    catalogues with sky positions of which the matched-against one is not
    empty. *)
Theorem cross_match_outputs_paired `{Ext : Externals} :
  (∀ finals1 finals2 (mp1 mp2 : list Table),
     matches_phot finals1 finals2 = Some (mp1, mp2) →
     length mp1 = length mp2 ∧
     ∀ i m1 m2, mp1 !! i = Some m1 → mp2 !! i = Some m2 →
                nrows m1 = nrows m2) ∧
  (∀ filt1 filt2 (sel : Table) mp1 mp2 (inp out1 out2 : Table),
     ref_match filt1 filt2 sel mp1 mp2 = Some (inp, out1, out2) →
     nrows inp = nrows out1 ∧ nrows out1 = nrows out2) ∧
  (oracle_contract →
   (∀ finals1 finals2 : list Table,
      Forall sky_table finals1 → Forall sky_table finals2 →
      Forall (λ t, nrows t ≠ 0) finals2 →
      ∃ mp1 mp2,
        matches_phot finals1 finals2 = Some (mp1, mp2) ∧
        Forall table_wf mp1 ∧ Forall table_wf mp2) ∧
   (∀ filt1 filt2 (sel : Table) mp1 mp2 (catalog1 catalog2 : Table) c1,
      ref_table filt1 filt2 sel →
      mp1 !! 0 = Some catalog1 → mp2 !! 0 = Some catalog2 →
      table_wf catalog1 → table_wf catalog2 →
      nrows catalog1 = nrows catalog2 →
      cols catalog1 !! "radec" = Some (CoordCol c1) → c1 ≠ [] →
      ∃ inp out1 out2,
        ref_match filt1 filt2 sel mp1 mp2 = Some (inp, out1, out2) ∧
        table_wf inp ∧ table_wf out1 ∧ table_wf out2)).
Proof.
  repeat split.
  - destruct (matches_phot_inv _ _ _ _ H) as (-> & -> & _). done.
  - intros i m1 m2 E1 E2.
    destruct (matches_phot_elem _ _ _ _ _ _ _ H E1 E2) as (r1 & r2 & _ & _ & Hcm).
    by eapply cross_match_nrows.
  - by destruct (ref_match_nrows _ _ _ _ _ _ _ _ H).
  - by destruct (ref_match_nrows _ _ _ _ _ _ _ _ H).
  - intros finals1 finals2 H1 H2 Hne.
    destruct (matches_phot_returns finals1 finals2 H H1 H2 Hne)
      as (mp1 & mp2 & Hmp).
    exists mp1, mp2. split; [done|].
    rewrite Forall_forall in H1, H2, Hne.
    assert (∀ i m1 m2, mp1 !! i = Some m1 → mp2 !! i = Some m2 →
                       table_wf m1 ∧ table_wf m2) as Hwf.
    { intros i m1 m2 E1 E2.
      destruct (matches_phot_elem _ _ _ _ _ _ _ Hmp E1 E2)
        as (r1 & r2 & Hr1 & Hr2 & Hcm).
      destruct (H1 r1 Hr1) as (Hwf1 & c1 & Hc1).
      destruct (H2 r2 Hr2) as (Hwf2 & c2 & Hc2).
      destruct (cross_match_spec r1 r2 c1 c2 H Hwf1 Hwf2 Hc1 Hc2)
        as (idx & d2d & m1' & m2' & _ & Hcm' & Hw1 & Hw2 & _).
      { eapply sky_table_nonempty; eauto. }
      rewrite Hcm in Hcm'. injection Hcm' as <- <-. done. }
    destruct (matches_phot_inv _ _ _ _ Hmp) as (L1 & L2 & _).
    split; apply Forall_lookup; intros i m Ei.
    + destruct (proj2 (lookup_lt_is_Some mp2 i)) as [m' Ei'].
      { apply lookup_lt_Some in Ei. lia. }
      by destruct (Hwf i m m' Ei Ei').
    + destruct (proj2 (lookup_lt_is_Some mp1 i)) as [m' Ei'].
      { apply lookup_lt_Some in Ei. lia. }
      by destruct (Hwf i m' m Ei' Ei).
  - intros filt1 filt2 sel mp1 mp2 catalog1 catalog2 c1
           (Hwf & ra & de & mag1 & mag2 & Hra & Hde & Hm1 & Hm2)
           E1 E2 Hwf1 Hwf2 Hrows Hc1 Hne.
    destruct (ref_match_spec filt1 filt2 sel mp1 mp2 catalog1 catalog2
                ra de mag1 mag2 c1 H Hwf Hra Hde Hm1 Hm2 E1 E2 Hwf1 Hwf2
                Hrows Hc1 Hne)
      as (idx & d2d & inp & out1 & out2 & _ & Hrun & _ & _ & _ & _ & _ & _ & _
          & Hw).
    by exists inp, out1, out2.
Qed.

(** ** 6.2 Select a sub-region coincident with the field of view *)

Lemma flt_asym (x y : float64) : flt x y = true → flt y x = false.
Proof.
  intros H. destruct (flt y x) eqn:E; [|done].
  pose proof (flt_chain_not_fle _ _ _ H E) as C.
  pose proof (flt_trans _ _ _ H E) as T.
  unfold flt, fle, SFltb, SFleb in *. destruct (SFcompare x x) as [[]|]; done.
Qed.

(** [sorted] returns its two arguments, the second not below the first. *)
Lemma sorted2_spec (a b : float64) :
  ((sorted2 a b).1 = a ∧ (sorted2 a b).2 = b ∨
   (sorted2 a b).1 = b ∧ (sorted2 a b).2 = a) ∧
  flt (sorted2 a b).2 (sorted2 a b).1 = false.
Proof.
  unfold sorted2. destruct (flt b a) eqn:E; simpl.
  - split; [by right|]. by apply flt_asym.
  - split; [by left|done].
Qed.

Section FovFacts.
Context `{Ext : Externals}.

Lemma fov_mask_length ra_lim dec_lim (ra de : list float64) n :
  length ra = n → length de = n → length (fov_mask ra_lim dec_lim ra de) = n.
Proof.
  intros Hr Hd. unfold fov_mask, and_mask, gt_scalar, lt_scalar.
  rewrite !length_zip_with, !length_fmap. lia.
Qed.

Lemma fov_mask_lookup ra_lim dec_lim (ra de : list float64) k :
  fov_mask ra_lim dec_lim ra de !! k = Some true ↔
  ∃ r d, ra !! k = Some r ∧ de !! k = Some d ∧
         flt (ra_lim.1) r = true ∧ flt r (ra_lim.2) = true ∧
         flt (dec_lim.1) d = true ∧ flt d (dec_lim.2) = true.
Proof.
  unfold fov_mask, and_mask, gt_scalar, lt_scalar.
  rewrite !lookup_zip_with, !list_lookup_fmap.
  destruct (ra !! k) as [r|], (de !! k) as [d|]; simpl;
    try (split; [done | by intros (?&?&?&?&?)]).
  split.
  - intros [= H]. rewrite !andb_true_iff in H. exists r, d. tauto.
  - intros (?&?&[= <-]&[= <-]&?&?&?&?). f_equal. rewrite !andb_true_iff. tauto.
Qed.

Lemma positions_nil mask :
  (∀ k, mask !! k ≠ Some true) → positions mask = [].
Proof.
  intros H. destruct (positions mask) as [|k l] eqn:E; [done|].
  exfalso. apply (H k), elem_of_positions. rewrite E. apply list_elem_of_here.
Qed.

End FovFacts.

(** C5.  The selected sub-catalogue consists of exactly the rows of the
    input catalogue whose [ra_in] lies strictly between the smaller and the
    larger of the RA values that the WCS of the first image gives at the
    corner pixels (0,0) and (width-1,height-1), and whose [dec_in] lies
    strictly between the Dec value at (0,0) and the Dec value at
    (width-1,height-1), in that order. *)
Theorem fov_selection `{Ext : Externals}
    (images_1 : list Image) (im0 : Image) (cat : Table) (ra de : list float64) :
  images_1 !! 0 = Some im0 →
  table_wf cat →
  cols cat !! "ra_in" = Some (FloatCol ra) →
  cols cat !! "dec_in" = Some (FloatCol de) →
  ∃ ra_lo ra_hi sel kept,
    let lim0 := wcs im0 (of_int 0) (of_int 0) in
    let lim1 := wcs im0 (of_int ((shape im0).2 - 1)) (of_int ((shape im0).1 - 1)) in
    (ra_lo = lim0.1 ∧ ra_hi = lim1.1 ∨ ra_lo = lim1.1 ∧ ra_hi = lim0.1) ∧
    flt ra_hi ra_lo = false ∧
    cat_sel images_1 cat = Some sel ∧
    nrows sel = length kept ∧ increasing kept ∧
    (∀ j k, kept !! j = Some k → row sel j = row cat k) ∧
    ∀ k, k ∈ kept ↔
         ∃ r d, row cat k !! "ra_in" = Some (VFloat r) ∧
                row cat k !! "dec_in" = Some (VFloat d) ∧
                flt ra_lo r = true ∧ flt r ra_hi = true ∧
                flt (lim0.2) d = true ∧ flt d (lim1.2) = true.
Proof.
  intros E0 Hwf Hra Hde.
  pose proof (wf_col_len _ _ _ Hwf Hra) as Lra.
  pose proof (wf_col_len _ _ _ Hwf Hde) as Lde. simpl in Lra, Lde.
  set (mask := fov_mask (fov_limits im0).1 (fov_limits im0).2 ra de).
  destruct (table_select_spec mask cat Hwf) as (sel & Hsel & _ & Hn & _ & Hrows).
  { by apply fov_mask_length. }
  exists (fov_limits im0).1.1, (fov_limits im0).1.2, sel, (positions mask).
  cbv zeta. unfold fov_limits at 1 2 3 4 5 6. cbv zeta. simpl fst. simpl snd.
  destruct (sorted2_spec (wcs im0 (of_int 0) (of_int 0)).1
              (wcs im0 (of_int ((shape im0).2 - 1))
                       (of_int ((shape im0).1 - 1))).1) as [Hperm Hord].
  split; [exact Hperm|]. split; [exact Hord|].
  split.
  { unfold cat_sel. rewrite E0. simpl.
    rewrite (proj2 (float_col_Some cat _ _) Hra),
            (proj2 (float_col_Some cat _ _) Hde). simpl. exact Hsel. }
  split; [done|].
  split; [intros j j' k k'; apply positions_increasing|].
  split; [done|].
  intros k. rewrite elem_of_positions. unfold mask. rewrite fov_mask_lookup.
  rewrite (row_float cat k _ _ Hra), (row_float cat k _ _ Hde).
  unfold fov_limits. cbv zeta. simpl fst. simpl snd.
  split.
  - intros (r & d & -> & -> & H). by exists r, d.
  - intros (r & d & Er & Ed & H).
    destruct (ra !! k) as [r'|], (de !! k) as [d'|]; simpl in *; try done.
    injection Er as ->. injection Ed as ->. by exists r, d.
Qed.

(** C9.  Only the RA limits are sorted.  If the Dec value that the WCS
    gives at corner (0,0) is greater than or equal to the Dec value at
    corner (width-1,height-1), the selected sub-catalogue has no row,
    whatever the input catalogue contains. *)
Theorem fov_empty_when_dec_limits_reversed `{Ext : Externals}
    (images_1 : list Image) (im0 : Image) (cat : Table) (ra de : list float64) :
  images_1 !! 0 = Some im0 →
  table_wf cat →
  cols cat !! "ra_in" = Some (FloatCol ra) →
  cols cat !! "dec_in" = Some (FloatCol de) →
  fle (wcs im0 (of_int ((shape im0).2 - 1)) (of_int ((shape im0).1 - 1))).2
      (wcs im0 (of_int 0) (of_int 0)).2 = true →
  ∃ sel, cat_sel images_1 cat = Some sel ∧ nrows sel = 0 ∧
         ∀ name c, cols sel !! name = Some c → col_len c = 0.
Proof.
  intros E0 Hwf Hra Hde Hrev.
  pose proof (wf_col_len _ _ _ Hwf Hra) as Lra.
  pose proof (wf_col_len _ _ _ Hwf Hde) as Lde. simpl in Lra, Lde.
  set (mask := fov_mask (fov_limits im0).1 (fov_limits im0).2 ra de).
  destruct (table_select_spec mask cat Hwf) as (sel & Hsel & Hwfs & Hn & _ & _).
  { by apply fov_mask_length. }
  assert (positions mask = []) as Hnil.
  { apply positions_nil. intros k Hk. unfold mask in Hk.
    apply fov_mask_lookup in Hk as (r & d & _ & _ & _ & _ & Hlo & Hhi).
    unfold fov_limits in Hlo, Hhi. cbv zeta in Hlo, Hhi.
    simpl fst in Hlo, Hhi. simpl snd in Hlo, Hhi.
    pose proof (flt_chain_not_fle _ _ _ Hlo Hhi) as C.
    assert (true = false) as X by exact (eq_trans (eq_sym Hrev) C).
    discriminate X. }
  exists sel. split.
  { unfold cat_sel. rewrite E0. simpl.
    rewrite (proj2 (float_col_Some cat _ _) Hra),
            (proj2 (float_col_Some cat _ _) Hde). simpl. exact Hsel. }
  assert (nrows sel = 0) as Hz.
  { rewrite Hn. unfold count_true. by rewrite Hnil. }
  split; [done|]. intros name c Hc. by rewrite (wf_col_len _ _ _ Hwfs Hc).
Qed.

(** ** The small instance meets the oracle contract *)

Lemma flt_irrefl (x : float64) : flt x x = false.
Proof.
  destruct (flt x x) eqn:E; [|done]. by rewrite (flt_asym _ _ E) in E.
Qed.

Lemma demo_scan_inv p seen c best :
  (∃ q, (seen ++ c) !! best.1 = Some q ∧ best.2 = Demo.sep p q) →
  (∀ q', q' ∈ seen → flt (Demo.sep p q') best.2 = false) →
  (∃ q, (seen ++ c) !! (Demo.scan p (length seen) c best).1 = Some q ∧
        (Demo.scan p (length seen) c best).2 = Demo.sep p q) ∧
  ∀ q', q' ∈ seen ++ c →
        flt (Demo.sep p q') (Demo.scan p (length seen) c best).2 = false.
Proof.
  revert seen best. induction c as [|q0 c IH]; intros seen best Hbest Hmin.
  - simpl. rewrite app_nil_r in *. done.
  - simpl.
    replace (S (length seen)) with (length (seen ++ [q0]))
      by (rewrite length_app; simpl; lia).
    replace (seen ++ q0 :: c) with ((seen ++ [q0]) ++ c) in *
      by (by rewrite <- app_assoc).
    apply IH.
    + destruct (flt (Demo.sep p q0) best.2) eqn:E; [|done]. simpl.
      exists q0. split; [|done].
      rewrite <- app_assoc. simpl. by rewrite list_lookup_middle.
    + intros q' Hq'. apply elem_of_app in Hq' as [Hq'|Hq'].
      * destruct (flt (Demo.sep p q0) best.2) eqn:E; simpl; [|by apply Hmin].
        destruct (flt (Demo.sep p q') (Demo.sep p q0)) eqn:E'; [|done].
        rewrite <- (Hmin q' Hq'). symmetry. by eapply flt_trans.
      * apply list_elem_of_singleton in Hq' as ->.
        destruct (flt (Demo.sep p q0) best.2) eqn:E; simpl; [|done].
        apply flt_irrefl.
Qed.

Lemma demo_nearest_spec c p :
  c ≠ [] →
  ∃ n d, Demo.nearest c p = Some (n, d) ∧
         @nearest_neighbour Demo.ext p c n d.
Proof.
  destruct c as [|q0 c]; [done|]. intros _. unfold Demo.nearest.
  destruct (demo_scan_inv p [q0] c (0, Demo.sep p q0)) as [(q & Eq & Ed) Hmin].
  - exists q0. by split.
  - intros q' Hq'. apply list_elem_of_singleton in Hq' as ->. apply flt_irrefl.
  - simpl in *. destruct (Demo.scan p 1 c (0, Demo.sep p q0)) as [n d] eqn:E.
    simpl in *. exists n, d. split; [done|]. exists q. repeat split; try done.
Qed.

Lemma demo_oracle_contract : @oracle_contract Demo.ext.
Proof.
  intros m c Hc. simpl. unfold Demo.match_sky.
  assert (∃ r, mapM (Demo.nearest c) m = Some r) as [r Hr].
  { apply mapM_is_Some, Forall_forall. intros p _. simpl.
    destruct (demo_nearest_spec c p Hc) as (n & d & -> & _). done. }
  rewrite Hr. simpl. destruct c as [|q0 c]; [done|].
  exists (r.*1), (r.*2). split; [done|].
  apply mapM_Some in Hr. pose proof (Forall2_length _ _ _ Hr) as L.
  rewrite !length_fmap. repeat split; try done.
  intros k p n d Ek En Ed.
  rewrite list_lookup_fmap in En. rewrite list_lookup_fmap in Ed.
  destruct (r !! k) as [[n' d']|] eqn:E; simpl in *; [|done].
  injection En as ->. injection Ed as ->.
  pose proof (Forall2_lookup_lr _ _ _ _ _ _ Hr Ek E) as Hn.
  destruct (demo_nearest_spec (q0 :: c) p Hc) as (n0 & d0 & E0 & Hnn).
  simpl in Hn, E0. rewrite E0 in Hn. by injection Hn as <- <-.
Qed.

(** ** The file system *)

Lemma figures_dir_name : split_trailing_slash figures_dir = ("FIGURES", true).
Proof. reflexivity. Qed.

(** The cell returns in two cases: the directory is there and can be seen,
    or the name is free and the process may create the directory. *)
Lemma figures_cell_spec (fs fs' : FS) :
  figures_cell fs = Some fs' →
  entries fs !! "FIGURES" = Some Dir ∧ searchable fs = true ∧ fs' = fs ∨
  entries fs !! "FIGURES" = None ∧ searchable fs = true ∧ writable fs = true ∧
  entries fs' = <[ "FIGURES" := Dir ]> (entries fs) ∧
  searchable fs' = true ∧ writable fs' = true.
Proof.
  unfold figures_cell, path_exists, makedirs, mkdir.
  rewrite figures_dir_name. simpl.
  destruct (searchable fs) eqn:Es, (writable fs) eqn:Ew,
    (entries fs !! "FIGURES") as [[|content| |]|] eqn:E; simpl; try done;
    intros [= <-]; simpl; auto 10.
Qed.

(** The cell creates the directory when the name is free and the process
    may create it, and changes nothing in every other case. *)
Lemma figures_cell_creates (fs : FS) :
  entries fs !! "FIGURES" = None → searchable fs = true → writable fs = true →
  figures_cell fs = Some {| entries := <[ "FIGURES" := Dir ]> (entries fs);
                            searchable := true; writable := true |}.
Proof.
  intros E Es Ew. unfold figures_cell, path_exists, makedirs, mkdir.
  rewrite figures_dir_name. simpl. by rewrite E, Es, Ew.
Qed.

Lemma figures_cell_keeps (fs : FS) :
  entries fs !! "FIGURES" ≠ None ∨ searchable fs = false ∨ writable fs = false →
  figures_cell fs = Some fs ∨ figures_cell fs = None.
Proof.
  unfold figures_cell, path_exists, makedirs, mkdir.
  rewrite figures_dir_name. simpl.
  destruct (searchable fs), (writable fs),
    (entries fs !! "FIGURES") as [[|content| |]|]; simpl; intros H; auto;
    destruct H as [H|[H|H]]; done.
Qed.

(** The claim of C7 as it is written fails: started in a directory that
    holds the data and no [FIGURES] entry, and in which the process may
    create entries, the run leaves a new directory [FIGURES] behind,
    whatever the collaborators and the data are. *)
Lemma run_creates_figures_dir :
  entries Demo.fs0 !! "FIGURES" = None ∧
  ∀ (Ext : Externals) (load : FS → option Inputs),
    entries (run load Demo.fs0).1 !! "FIGURES" = Some Dir ∧
    (run load Demo.fs0).1 ≠ Demo.fs0.
Proof.
  split; [reflexivity|]. intros Ext load.
  assert (entries (run load Demo.fs0).1 !! "FIGURES" = Some Dir) as H.
  { unfold run. by rewrite (figures_cell_creates Demo.fs0). }
  split; [exact H|]. intros E. rewrite E in H. discriminate H.
Qed.

(** C7, amended.  A run of the notebook writes no file and keeps no state
    but this: it creates the directory [FIGURES] when the working directory
    has no entry of that name and the process may create one there.  In
    every other case (the directory is there already, or the cell raises
    because the name is taken by something else or because the process may
    not search or write the working directory) the file system is after the
    run what it was before it.  In all cases every other entry, every
    regular file and the permissions are what they were, whether the run
    returns its figure or raises midway. *)
Theorem run_only_creates_figures_dir `{Ext : Externals}
    (load : FS → option Inputs) (fs : FS) :
  (entries fs !! "FIGURES" = None →
   searchable fs = true → writable fs = true →
   entries (run load fs).1 = <[ "FIGURES" := Dir ]> (entries fs)) ∧
  (entries fs !! "FIGURES" ≠ None ∨
   searchable fs = false ∨ writable fs = false →
   (run load fs).1 = fs) ∧
  (∀ name, name ≠ "FIGURES" →
           entries (run load fs).1 !! name = entries fs !! name) ∧
  (∀ name content,
     entries (run load fs).1 !! name = Some (File content) ↔
     entries fs !! name = Some (File content)) ∧
  searchable (run load fs).1 = searchable fs ∧
  writable (run load fs).1 = writable fs.
Proof.
  split; [|split].
  - intros E Es Ew. unfold run. by rewrite (figures_cell_creates fs E Es Ew).
  - intros H. unfold run. by destruct (figures_cell_keeps fs H) as [-> | ->].
  - unfold run. destruct (figures_cell fs) as [fs'|] eqn:E; simpl; [|done].
    apply figures_cell_spec in E
      as [(Hdir & _ & ->)|(Hnone & Es & Ew & He & Es' & Ew')]; [done|].
    rewrite He, Es, Ew. split_and!; try done.
    + intros name Hne. by rewrite lookup_insert_ne.
    + intros name content. destruct (decide (name = "FIGURES")) as [->|Hne].
      * by rewrite lookup_insert_eq, Hnone.
      * by rewrite lookup_insert_ne.
Qed.

(** ** The vocabulary is decidable

    so that the hypotheses of the statements can be checked by evaluation
    on concrete catalogues. *)

#[global] Instance float64_eq_dec : EqDecision float64.
Proof. unfold float64. solve_decision. Defined.

#[global] Instance demo_coord_eq_dec : EqDecision (@Coord Demo.ext).
Proof. unfold Coord. simpl. apply _. Defined.

Section Decidable.
Context `{Ext : Externals}.

#[global] Instance table_wf_dec (t : Table) : Decision (table_wf t).
Proof. unfold table_wf. apply _. Defined.

Lemma is_Some_float_col (t : Table) name :
  is_Some (float_col t name) ↔ ∃ v, cols t !! name = Some (FloatCol v).
Proof.
  split.
  - intros [v Hv]. exists v. by apply float_col_Some.
  - intros [v Hv]. exists v. by apply float_col_Some.
Qed.

Lemma is_Some_coord_col (t : Table) name :
  is_Some (coord_col t name) ↔ ∃ v, cols t !! name = Some (CoordCol v).
Proof.
  split.
  - intros [v Hv]. exists v. by apply coord_col_Some.
  - intros [v Hv]. exists v. by apply coord_col_Some.
Qed.

Lemma phot_table_alt (t : Table) :
  phot_table t ↔
  table_wf t ∧ is_Some (float_col t "x_fit") ∧ is_Some (float_col t "y_fit") ∧
  is_Some (float_col t "flux_fit") ∧ is_Some (float_col t "flux_unc").
Proof.
  unfold phot_table. rewrite !is_Some_float_col. split.
  - intros (Hwf & x & y & f & u & ? & ? & ? & ?). eauto 10.
  - intros (Hwf & [x ?] & [y ?] & [f ?] & [u ?]). eauto 10.
Qed.

#[global] Instance phot_table_dec (t : Table) : Decision (phot_table t).
Proof.
  refine (cast_if (decide (table_wf t ∧ is_Some (float_col t "x_fit") ∧
                           is_Some (float_col t "y_fit") ∧
                           is_Some (float_col t "flux_fit") ∧
                           is_Some (float_col t "flux_unc"))));
    by rewrite phot_table_alt.
Defined.

Lemma pixel_table_alt (t : Table) :
  pixel_table t ↔
  table_wf t ∧ is_Some (float_col t "x_fit") ∧ is_Some (float_col t "y_fit").
Proof.
  unfold pixel_table. rewrite !is_Some_float_col. split.
  - intros (Hwf & x & y & ? & ?). eauto 10.
  - intros (Hwf & [x ?] & [y ?]). eauto 10.
Qed.

#[global] Instance pixel_table_dec (t : Table) : Decision (pixel_table t).
Proof.
  refine (cast_if (decide (table_wf t ∧ is_Some (float_col t "x_fit") ∧
                           is_Some (float_col t "y_fit"))));
    by rewrite pixel_table_alt.
Defined.

Lemma sky_table_alt (t : Table) :
  sky_table t ↔ table_wf t ∧ is_Some (coord_col t "radec").
Proof. unfold sky_table. by rewrite is_Some_coord_col. Qed.

#[global] Instance sky_table_dec (t : Table) : Decision (sky_table t).
Proof.
  refine (cast_if (decide (table_wf t ∧ is_Some (coord_col t "radec"))));
    by rewrite sky_table_alt.
Defined.

Lemma ref_table_alt filt1 filt2 (t : Table) :
  ref_table filt1 filt2 t ↔
  table_wf t ∧ is_Some (float_col t "ra_in") ∧ is_Some (float_col t "dec_in") ∧
  is_Some (float_col t filt1) ∧ is_Some (float_col t filt2).
Proof.
  unfold ref_table. rewrite !is_Some_float_col. split.
  - intros (Hwf & x & y & f & u & ? & ? & ? & ?). eauto 10.
  - intros (Hwf & [x ?] & [y ?] & [f ?] & [u ?]). eauto 10.
Qed.

#[global] Instance ref_table_dec filt1 filt2 (t : Table) :
  Decision (ref_table filt1 filt2 t).
Proof.
  refine (cast_if (decide (table_wf t ∧ is_Some (float_col t "ra_in") ∧
                           is_Some (float_col t "dec_in") ∧
                           is_Some (float_col t filt1) ∧
                           is_Some (float_col t filt2))));
    by rewrite ref_table_alt.
Defined.

#[global] Instance column_eq_dec `{!EqDecision Coord} : EqDecision column.
Proof. solve_decision. Defined.

#[global] Instance Table_eq_dec `{!EqDecision Coord} : EqDecision Table.
Proof. solve_decision. Defined.

#[global] Instance value_eq_dec `{!EqDecision Coord} : EqDecision value.
Proof. solve_decision. Defined.

Lemma valid_detectionb_spec shape0 (r : gmap string value) :
  valid_detectionb shape0 r = true ↔ valid_detection shape0 r.
Proof.
  unfold valid_detectionb, valid_detection, strictly_inside. split.
  - destruct (r !! "x_fit") as [[x| | |]|]; try done.
    destruct (r !! "y_fit") as [[y| | |]|]; try done.
    destruct (r !! "flux_fit") as [[f| | |]|]; try done.
    rewrite !andb_true_iff. intros ((((?&?)&?)&?)&?). by exists x, y, f.
  - intros (x & y & f & -> & -> & -> & (?&?&?&?) & ?).
    rewrite !andb_true_iff. tauto.
Qed.

#[global] Instance valid_detection_dec shape0 (r : gmap string value) :
  Decision (valid_detection shape0 r).
Proof.
  refine (cast_if (decide (valid_detectionb shape0 r = true)));
    by rewrite <- valid_detectionb_spec.
Defined.

End Decidable.

(** ** The statements at work on the small catalogues *)

Ltac by_eval := apply (bool_decide_unpack _); vm_compute; exact I.
Ltac refute_by_eval :=
  apply (proj1 (bool_decide_eq_false _)); vm_compute; reflexivity.

Section Worked.
#[local] Existing Instance Demo.ext.

(** C3 on two images and their catalogues: the loop returns, and the rows
    kept from the first catalogue are the valid detections. *)
Lemma clean_keeps_exactly_valid_detections_witness :
  ∃ cleaned t' kept,
    results_clean [Demo.im_a; Demo.im_c] [Demo.t1; Demo.t3] "F115W"
      = Some cleaned ∧
    cleaned !! 0 = Some t' ∧ nrows t' = length kept ∧
    (∀ k, k ∈ kept ↔ valid_detection (shape Demo.im_a) (row Demo.t1 k)) ∧
    0 ∈ kept ∧ 1 ∉ kept.
Proof.
  destruct (clean_keeps_exactly_valid_detections (Ext := Demo.ext)
              [Demo.im_a; Demo.im_c] [Demo.t1; Demo.t3] "F115W")
    as (cleaned & Hrun & _ & Hspec).
  - apply le_n.
  - by_eval.
  - destruct (Hspec 0 Demo.im_a Demo.t1 eq_refl (le_S _ _ (le_n 1)) eq_refl)
      as (t' & kept & E & Hn & _ & Hk & _).
    exists cleaned, t', kept.
    split; [exact Hrun|]. split; [exact E|]. split; [exact Hn|].
    split; [exact Hk|]. split.
    + apply Hk. by_eval.
    + intros Hin. apply Hk in Hin. revert Hin. refute_by_eval.
Defined.

(** C4 on the same catalogues, whose flux columns hold no NaN: every
    cleaned row carries the two magnitudes computed from its own flux; and
    on a catalogue whose [flux_unc] holds a NaN. *)
Lemma clean_adds_instrumental_magnitudes_witness :
  (∃ cleaned t',
     results_clean [Demo.im_a; Demo.im_c] [Demo.t1; Demo.t3] "F115W"
       = Some cleaned ∧
     cleaned !! 0 = Some t' ∧ nrows t' = 3 ∧
     ∀ j, j < nrows t' →
       ∃ f u,
         row t' j !! "flux_fit" = Some (VFloat f) ∧
         row t' j !! "flux_unc" = Some (VFloat u) ∧
         flt (of_int 0) f = true ∧
         row t' j !! "F115W_inst" = Some (VFloat (fmul minus_2_5 (log10 f))) ∧
         row t' j !! "eF115W_inst" = Some (VFloat (fmul c_1_086 (fdiv u f)))) ∧
  (∃ cleaned t',
     results_clean [Demo.im_a] [Demo.t_nan] "F115W" = Some cleaned ∧
     cleaned !! 0 = Some t' ∧ masked_column Demo.t_nan "flux_unc" = true ∧
     ∀ j, j < nrows t' →
       ∃ f u,
         row t' j !! "flux_fit" = Some (VFloat f) ∧
         row t' j !! "flux_unc" = Some (VFloat u) ∧
         row t' j !! "eF115W_inst" =
           Some (if ma_masks u f then VMasked
                 else VFloat (fmul c_1_086 (fdiv u f)))).
Proof.
  split.
  - destruct (clean_adds_instrumental_magnitudes (Ext := Demo.ext)
                [Demo.im_a; Demo.im_c] [Demo.t1; Demo.t3] "F115W")
      as (cleaned & Hrun & Hspec); [apply le_n|by_eval|].
    destruct (cleaned !! 0) as [t'|] eqn:E.
    + exists cleaned, t'. split; [exact Hrun|]. split; [exact E|].
      split.
      { assert ((c ← results_clean [Demo.im_a; Demo.im_c] [Demo.t1; Demo.t3]
                                   "F115W";
                 t ← c !! 0; Some (nrows t)) = Some 3) as H by by_eval.
        rewrite Hrun in H. simpl in H. rewrite E in H. simpl in H.
        injection H as H. exact H. }
      intros j Hj.
      destruct (Hspec 0 Demo.t1 t' (le_S _ _ (le_n 1)) eq_refl E j Hj)
        as (k & f & u & Hf & Hu & Hpos & Hmag & Herr & _).
      assert (masked_column Demo.t1 "flux_unc" = false) as H1 by by_eval.
      assert (masked_column Demo.t1 "flux_fit" = false) as H2 by by_eval.
      exists f, u. split; [exact Hf|]. split; [exact Hu|].
      split; [exact Hpos|]. split; [exact Hmag|exact (Herr H1 H2)].
    + exfalso.
      destruct (results_clean_inv _ _ _ _ Hrun) as [L _].
      apply lookup_ge_None in E. rewrite L in E. exact (Nat.nle_succ_0 _ E).
  - destruct (clean_adds_instrumental_magnitudes (Ext := Demo.ext)
                [Demo.im_a] [Demo.t_nan] "F115W")
      as (cleaned & Hrun & Hspec); [apply le_n|by_eval|].
    assert (masked_column Demo.t_nan "flux_unc" = true) as Hm by by_eval.
    destruct (cleaned !! 0) as [t'|] eqn:E.
    + exists cleaned, t'. split; [exact Hrun|]. split; [exact E|].
      split; [exact Hm|].
      intros j Hj.
      destruct (Hspec 0 Demo.t_nan t' (le_n 1) eq_refl E j Hj)
        as (k & f & u & Hf & Hu & _ & _ & _ & Herr & _).
      exists f, u. split; [exact Hf|]. split; [exact Hu|].
      exact (proj2 (Herr (or_introl Hm))).
    + exfalso.
      destruct (results_clean_inv _ _ _ _ Hrun) as [L _].
      apply lookup_ge_None in E. rewrite L in E. exact (Nat.nle_succ_0 _ E).
Defined.

(** The claim of C4 as it is written fails on a catalogue whose [flux_unc]
    column holds a NaN, which is loaded as a [MaskedColumn]: the five
    detections survive the cleaning, and the entry of [eF115W_inst] is
    masked in the third and in the fourth row, where
    1.086 * (flux_unc / flux_fit) is +infinity, and in the second, whose
    flux_unc is the NaN; it is 1.086 * (flux_unc / flux_fit) in the first. *)
Lemma clean_masks_errors_of_masked_columns :
  results_clean [Demo.im_a] [Demo.t_nan] "F115W" = Some Demo.cleaned_nan ∧
  Demo.cleaned_nan !! 0 = Some Demo.clean_nan ∧ nrows Demo.clean_nan = 5 ∧
  row Demo.clean_nan 2 !! "flux_unc" = Some (VFloat (of_int 3)) ∧
  row Demo.clean_nan 2 !! "flux_fit" =
    Some (VFloat (SFldexp prec emax (of_int 1) (-1074))) ∧
  fmul c_1_086 (fdiv (of_int 3) (SFldexp prec emax (of_int 1) (-1074)))
    = S754_infinity false ∧
  row Demo.clean_nan 2 !! "eF115W_inst" = Some VMasked ∧
  row Demo.clean_nan 2 !! "eF115W_inst" ≠
    Some (VFloat (fmul c_1_086
                    (fdiv (of_int 3) (SFldexp prec emax (of_int 1) (-1074))))) ∧
  row Demo.clean_nan 3 !! "eF115W_inst" = Some VMasked ∧
  row Demo.clean_nan 1 !! "eF115W_inst" = Some VMasked ∧
  row Demo.clean_nan 0 !! "eF115W_inst" =
    Some (VFloat (fmul c_1_086 (fdiv (of_int 1) (of_int 3)))).
Proof.
  split; [by_eval|]. split; [by_eval|]. split; [by_eval|].
  split; [by_eval|]. split; [by_eval|]. split; [by_eval|].
  split; [by_eval|]. split; [refute_by_eval|].
  split; [by_eval|]. split; by_eval.
Qed.

(** C10 on a 4 by 10 image followed by a 10 by 4 image: replacing the
    second image changes nothing, and in the second catalogue the detection
    at (6, 2), outside its own image, is kept while the one at (2, 6),
    inside its own image, is dropped. *)
Lemma clean_uses_first_image_bounds_witness :
  results_clean [Demo.im_a; Demo.im_c] [Demo.t1; Demo.t3] "F115W"
    = results_clean [Demo.im_a; Demo.im_a] [Demo.t1; Demo.t3] "F115W" ∧
  ∃ cleaned t' kept,
    results_clean [Demo.im_a; Demo.im_c] [Demo.t1; Demo.t3] "F115W"
      = Some cleaned ∧
    cleaned !! 1 = Some t' ∧ nrows t' = length kept ∧
    ¬ valid_detection (shape Demo.im_c) (row Demo.t3 1) ∧ 1 ∈ kept ∧
    valid_detection (shape Demo.im_c) (row Demo.t3 0) ∧ 0 ∉ kept.
Proof.
  destruct (clean_uses_first_image_bounds (Ext := Demo.ext)
              [Demo.im_a; Demo.im_c] [Demo.im_a; Demo.im_a]
              [Demo.t1; Demo.t3] "F115W")
    as (Hsame & cleaned & Hrun & Hspec).
  - reflexivity.
  - reflexivity.
  - apply le_n.
  - by_eval.
  - split; [exact Hsame|].
    destruct (Hspec 1 Demo.im_a Demo.im_c Demo.t3 eq_refl eq_refl eq_refl)
      as (t' & kept & E & Hn & Hkeep & Hdrop & _).
    exists cleaned, t', kept.
    split; [exact Hrun|]. split; [exact E|]. split; [exact Hn|].
    split; [refute_by_eval|]. split; [apply Hkeep; [by_eval|refute_by_eval]|].
    split; [by_eval|]. apply Hdrop; [refute_by_eval|by_eval].
Defined.

(** C6 on the cleaned filter-1 catalogue. *)
Lemma pixel_to_sky_adds_radec_witness :
  ∃ finals t',
    results_final [Demo.im_a] Demo.cleaned_1 = Some finals ∧
    finals !! 0 = Some t' ∧ nrows t' = nrows Demo.clean_1 ∧
    nrows Demo.clean_1 = 3 ∧
    (∀ k, k < nrows Demo.clean_1 →
       ∃ x y, row Demo.clean_1 k !! "x_fit" = Some (VFloat x) ∧
              row Demo.clean_1 k !! "y_fit" = Some (VFloat y) ∧
              row t' k !! "radec" =
                Some (VCoord (SkyCoord (wcs Demo.im_a x y).1
                                       (wcs Demo.im_a x y).2))) ∧
    ∀ name c, cols Demo.clean_1 !! name = Some c → cols t' !! name = Some c.
Proof.
  destruct (pixel_to_sky_adds_radec (Ext := Demo.ext) [Demo.im_a] Demo.cleaned_1)
    as (finals & Hrun & _ & Hspec).
  - by_eval.
  - by_eval.
  - assert (Demo.cleaned_1 !! 0 = Some Demo.clean_1) as E0 by by_eval.
    destruct (Hspec 0 Demo.im_a Demo.clean_1 eq_refl E0)
      as (t' & E & Hn & Hradec & _ & Hcols).
    exists finals, t'.
    split; [exact Hrun|]. split; [exact E|]. split; [exact Hn|].
    split; [by_eval|].
    split; [exact Hradec|]. apply Hcols. by_eval.
Defined.

Lemma demo_radec_m : cols Demo.catalog1 !! "radec" =
                     Some (CoordCol (default [] (coord_col Demo.catalog1 "radec"))).
Proof. by_eval. Qed.

Lemma demo_radec_m_nonempty : default [] (coord_col Demo.catalog1 "radec") ≠ [].
Proof. by_eval. Qed.

(** C1 on the two final catalogues and on the selected reference
    catalogue. *)
Lemma cross_match_threshold_witness :
  (∃ mp1 mp2 idx d2d m1 kept,
     matches_phot Demo.finals_1 Demo.finals_2 = Some (mp1, mp2) ∧
     match_coordinates_sky Demo.radec_1 Demo.radec_2 = Some (idx, d2d) ∧
     mp1 !! 0 = Some m1 ∧ nrows m1 = length kept ∧ nrows m1 = 2 ∧
     length Demo.radec_1 = 3 ∧
     ∀ k p, Demo.radec_1 !! k = Some p →
       ∃ n d, idx !! k = Some n ∧ d2d !! k = Some d ∧
              nearest_neighbour p Demo.radec_2 n d ∧
              (k ∈ kept ↔ flt (fdiv (arcsec d) pixelscale) max_sep = true)) ∧
  (∃ idx d2d inp out1 out2 kept,
     match_coordinates_sky
       (zip_with SkyCoord (default [] (float_col Demo.sel "ra_in"))
                          (default [] (float_col Demo.sel "dec_in")))
       (default [] (coord_col Demo.catalog1 "radec")) = Some (idx, d2d) ∧
     ref_match "F115W" "F200W" Demo.sel Demo.matched.1 Demo.matched.2
       = Some (inp, out1, out2) ∧
     nrows inp = length kept ∧ nrows inp = 2 ∧ nrows Demo.sel = 3 ∧
     ∀ k p,
       zip_with SkyCoord (default [] (float_col Demo.sel "ra_in"))
                         (default [] (float_col Demo.sel "dec_in")) !! k = Some p →
       ∃ n d, idx !! k = Some n ∧ d2d !! k = Some d ∧
              (k ∈ kept ↔ flt (fdiv (arcsec d) pixelscale) max_sep = true)).
Proof.
  destruct (cross_match_threshold (Ext := Demo.ext) demo_oracle_contract)
    as [Hpairs Href].
  split.
  - destruct (Hpairs Demo.finals_1 Demo.finals_2)
      as (mp1 & mp2 & Hrun & Hspec); [by_eval|by_eval|by_eval|].
    destruct (Hspec 0 0 Demo.final_1 Demo.final_2 Demo.radec_1 Demo.radec_2)
      as (idx & d2d & m1 & kept & Hm & Em1 & Hn & _ & _ & Hk);
      [by_eval|by_eval|by_eval|by_eval|].
    exists mp1, mp2, idx, d2d, m1, kept.
    split; [exact Hrun|]. split; [exact Hm|]. split; [exact Em1|].
    split; [exact Hn|]. split; [|split; [by_eval|exact Hk]].
    assert ((p ← matches_phot Demo.finals_1 Demo.finals_2;
             m ← p.1 !! 0; Some (nrows m)) = Some 2) as H by by_eval.
    change (mp1 !! 0 = Some m1) in Em1.
    rewrite Hrun in H. simpl in H. rewrite Em1 in H. simpl in H.
    injection H as H. exact H.
  - destruct (Href "F115W" "F200W" Demo.sel Demo.matched.1 Demo.matched.2
                Demo.catalog1 Demo.catalog2
                (default [] (float_col Demo.sel "ra_in"))
                (default [] (float_col Demo.sel "dec_in"))
                (default [] (coord_col Demo.catalog1 "radec")))
      as (idx & d2d & inp & out1 & out2 & kept & Hm & Hrun & Hn & _ & _ & Hk).
    + by_eval.
    + by_eval.
    + by_eval.
    + by_eval.
    + by_eval.
    + by_eval.
    + by_eval.
    + by_eval.
    + exact demo_radec_m.
    + exact demo_radec_m_nonempty.
    + exists idx, d2d, inp, out1, out2, kept.
      split; [exact Hm|]. split; [exact Hrun|]. split; [exact Hn|].
      split; [|split; [by_eval|]].
      * assert ((r ← ref_match "F115W" "F200W" Demo.sel Demo.matched.1
                                 Demo.matched.2;
                 Some (nrows r.1.1)) = Some 2) as H by by_eval.
        rewrite Hrun in H. simpl in H. injection H as H. exact H.
      * intros k p Ek. destruct (Hk k p Ek) as (n & d & En & Ed & _ & Hiff).
        exists n, d. split; [exact En|]. split; [exact Ed|exact Hiff].
Defined.

(** C2 on the two final catalogues. *)
Lemma matched_row_is_nearest_neighbour_witness :
  ∃ mp1 mp2 m1 m2,
    matches_phot Demo.finals_1 Demo.finals_2 = Some (mp1, mp2) ∧
    mp1 !! 0 = Some m1 ∧ mp2 !! 0 = Some m2 ∧ nrows m2 = 2 ∧
    ∀ j, j < nrows m2 →
      ∃ n p q,
        row m2 j = row Demo.final_2 n ∧
        row m1 j !! "radec" = Some (VCoord p) ∧
        row m2 j !! "radec" = Some (VCoord q) ∧
        ∀ n' q', row Demo.final_2 n' !! "radec" = Some (VCoord q') →
          flt (arcsec (separation p q')) (arcsec (separation p q)) = false.
Proof.
  destruct (matched_row_is_nearest_neighbour (Ext := Demo.ext)
              Demo.finals_1 Demo.finals_2 demo_oracle_contract)
    as (mp1 & mp2 & Hrun & Hspec); [by_eval|by_eval|by_eval|].
  destruct (Hspec 0 0 Demo.final_1 Demo.final_2)
    as (m1 & m2 & E1 & E2 & Hrows); [by_eval|by_eval|].
  exists mp1, mp2, m1, m2.
  split; [exact Hrun|]. split; [exact E1|]. split; [exact E2|]. split.
  - assert ((p ← matches_phot Demo.finals_1 Demo.finals_2;
             m ← p.2 !! 0; Some (nrows m)) = Some 2) as H by by_eval.
    change (mp2 !! 0 = Some m2) in E2.
    rewrite Hrun in H. simpl in H. rewrite E2 in H. simpl in H.
    injection H as H. exact H.
  - intros j Hj. destruct (Hrows j Hj) as (n & p & q & _ & Hr & Hp & Hq & Hmin).
    exists n, p, q. split; [exact Hr|]. split; [exact Hp|].
    split; [exact Hq|exact Hmin].
Defined.

(** C8 on the two final catalogues and on the selected reference
    catalogue: both steps return, and their outputs are paired. *)
Lemma cross_match_outputs_paired_witness :
  (∃ mp1 mp2,
     matches_phot Demo.finals_1 Demo.finals_2 = Some (mp1, mp2) ∧
     length Demo.finals_1 = 1 ∧ length Demo.finals_2 = 1 ∧
     length mp1 = length mp2 ∧
     ∀ i m1 m2, mp1 !! i = Some m1 → mp2 !! i = Some m2 →
                nrows m1 = nrows m2) ∧
  (∃ inp out1 out2,
     ref_match "F115W" "F200W" Demo.sel Demo.matched.1 Demo.matched.2
       = Some (inp, out1, out2) ∧
     nrows inp = nrows out1 ∧ nrows out1 = nrows out2).
Proof.
  destruct (cross_match_outputs_paired (Ext := Demo.ext))
    as (Hpairs & Href & Hreturns).
  destruct (Hreturns demo_oracle_contract) as [Hret1 Hret2].
  split.
  - destruct (Hret1 Demo.finals_1 Demo.finals_2)
      as (mp1 & mp2 & Hrun & _); [by_eval|by_eval|by_eval|].
    exists mp1, mp2. split; [exact Hrun|]. split; [by_eval|].
    split; [by_eval|]. exact (Hpairs _ _ _ _ Hrun).
  - destruct (Hret2 "F115W" "F200W" Demo.sel Demo.matched.1 Demo.matched.2
                Demo.catalog1 Demo.catalog2
                (default [] (coord_col Demo.catalog1 "radec")))
      as (inp & out1 & out2 & Hrun & _);
      [by_eval|by_eval|by_eval|by_eval|by_eval|by_eval
      |exact demo_radec_m|exact demo_radec_m_nonempty|].
    exists inp, out1, out2. split; [exact Hrun|].
    exact (Href _ _ _ _ _ _ _ _ Hrun).
Defined.

(** C5 on the reference catalogue and the first image: three of the four
    stars are selected. *)
Lemma fov_selection_witness :
  ∃ ra_lo ra_hi sel kept,
    flt ra_hi ra_lo = false ∧
    cat_sel [Demo.im_a] Demo.lmc = Some sel ∧
    nrows sel = length kept ∧ nrows sel = 3 ∧
    ∀ k, k ∈ kept ↔
         ∃ r d, row Demo.lmc k !! "ra_in" = Some (VFloat r) ∧
                row Demo.lmc k !! "dec_in" = Some (VFloat d) ∧
                flt ra_lo r = true ∧ flt r ra_hi = true ∧
                flt (wcs Demo.im_a (of_int 0) (of_int 0)).2 d = true ∧
                flt d (wcs Demo.im_a (of_int 9) (of_int 3)).2 = true.
Proof.
  destruct (fov_selection (Ext := Demo.ext) [Demo.im_a] Demo.im_a Demo.lmc
              (Demo.sky <$> [8; 20; 80; 16]%Z) (Demo.sky <$> [4; 10; 4; 8]%Z))
    as (ra_lo & ra_hi & sel & kept & _ & Hord & Hsel & Hn & _ & _ & Hk);
    [reflexivity|by_eval|by_eval|by_eval|].
  exists ra_lo, ra_hi, sel, kept.
  split; [exact Hord|]. split; [exact Hsel|]. split; [exact Hn|].
  split; [|exact Hk].
  assert ((t ← cat_sel [Demo.im_a] Demo.lmc; Some (nrows t)) = Some 3) as H
    by by_eval.
  rewrite Hsel in H. simpl in H. injection H as H. exact H.
Defined.

(** C9 on the reference catalogue and an image whose Dec decreases from
    the first corner to the last: nothing is selected, although the
    catalogue has four stars. *)
Lemma fov_empty_when_dec_limits_reversed_witness :
  nrows Demo.lmc = 4 ∧
  ∃ sel, cat_sel [Demo.im_flipped] Demo.lmc = Some sel ∧ nrows sel = 0.
Proof.
  split; [reflexivity|].
  destruct (fov_empty_when_dec_limits_reversed (Ext := Demo.ext)
              [Demo.im_flipped] Demo.im_flipped Demo.lmc
              (Demo.sky <$> [8; 20; 80; 16]%Z) (Demo.sky <$> [4; 10; 4; 8]%Z))
    as (sel & Hsel & Hn & _);
    [reflexivity|by_eval|by_eval|by_eval|by_eval|].
  exists sel. split; [exact Hsel|exact Hn].
Defined.

(** C7, amended, on the directory of the data, where the run creates
    [FIGURES], and on a directory in which [FIGURES] is a regular file,
    which the run leaves as it is. *)
Lemma run_only_creates_figures_dir_witness :
  entries (run Demo.load Demo.fs0).1
    = <[ "FIGURES" := Dir ]> (entries Demo.fs0) ∧
  (run Demo.load {| entries := {[ "FIGURES" := File "notes" ]};
                    searchable := true; writable := true |}).1
    = {| entries := {[ "FIGURES" := File "notes" ]};
         searchable := true; writable := true |}.
Proof.
  split.
  - apply (proj1 (run_only_creates_figures_dir Demo.load Demo.fs0));
      reflexivity.
  - apply (proj1 (proj2 (run_only_creates_figures_dir Demo.load
             {| entries := {[ "FIGURES" := File "notes" ]};
                searchable := true; writable := true |}))).
    left. discriminate.
Defined.

End Worked.

(* ===================================================================== *)
(** * Further properties *)
(* ===================================================================== *)

(** ** The cells composed *)

Section Inversions.
Context `{Ext : Externals}.

(** What a returned cross-match is made of, whatever the oracle. *)
Lemma cross_match_inv (res1 res2 m1 m2 : Table) :
  table_wf res1 → table_wf res2 →
  cross_match res1 res2 = Some (m1, m2) →
  ∃ c1 c2 idx d2d,
    cols res1 !! "radec" = Some (CoordCol c1) ∧
    cols res2 !! "radec" = Some (CoordCol c2) ∧
    match_coordinates_sky c1 c2 = Some (idx, d2d) ∧
    length (sep_constraint d2d) = nrows res1 ∧ length idx = length d2d ∧
    table_wf m1 ∧ table_wf m2 ∧
    nrows m1 = count_true (sep_constraint d2d) ∧ nrows m2 = nrows m1 ∧
    ∀ j k, positions (sep_constraint d2d) !! j = Some k →
      row m1 j = row res1 k ∧
      ∃ n, idx !! k = Some n ∧ n < nrows res2 ∧ row m2 j = row res2 n.
Proof.
  intros Hwf1 Hwf2. unfold cross_match.
  destruct (coord_col res1 "radec") as [c1|] eqn:E1; simpl; [|done].
  destruct (coord_col res2 "radec") as [c2|] eqn:E2; simpl; [|done].
  destruct (match_coordinates_sky c1 c2) as [[idx d2d]|] eqn:Em; simpl; [|done].
  destruct (table_select (sep_constraint d2d) res1) as [t1|] eqn:Es; simpl; [|done].
  destruct (mask_index (sep_constraint d2d) idx) as [kept|] eqn:Ek; simpl; [|done].
  destruct (table_take kept res2) as [t2|] eqn:Et; simpl; [|done].
  intros [= -> ->].
  apply coord_col_Some in E1, E2.
  assert (length (sep_constraint d2d) = nrows res1) as Lsc.
  { unfold table_select in Es. by destruct (decide _). }
  assert (length (sep_constraint d2d) = length idx ∧
          kept = select (sep_constraint d2d) idx) as [Li ->].
  { unfold mask_index in Ek. destruct (decide _); [|done]. split; congruence. }
  destruct (table_select_spec _ _ Hwf1 Lsc) as (t1 & Es' & Hwfm1 & Hn1 & _ & Hrow1).
  rewrite Es in Es'. injection Es' as <-.
  destruct (table_take_inv _ _ _ Et) as [Hrange Hn2].
  destruct (table_take_spec _ _ Hwf2 Hrange) as (t2 & Et' & Hwfm2 & _ & _ & Hrow2).
  rewrite Et in Et'. injection Et' as <-.
  pose proof (sep_constraint_length d2d) as Ld.
  exists c1, c2, idx, d2d. repeat split; try done.
  - lia.
  - rewrite Hn2, Hn1. apply select_length. done.
  - by apply Hrow1.
  - assert (select (sep_constraint d2d) idx !! j = idx !! k) as Ej.
    { rewrite select_lookup by done. by rewrite H. }
    destruct (idx !! k) as [n|] eqn:En.
    + exists n. repeat split; try done.
      * rewrite Forall_lookup in Hrange. by eapply Hrange.
      * by apply Hrow2.
    + apply lookup_lt_Some in H. unfold count_true in Hn1.
      apply lookup_ge_None in Ej.
      rewrite (select_length _ _ Li) in Ej. unfold count_true in Ej. lia.
Qed.

(** The cells that precede the reference catalogue are the first stages of
    the analysis. *)
Lemma analysis_cross_matched (inp : Inputs) :
  analysis inp =
    '(mp1, mp2) ← cross_matched inp;
    sel ← cat_sel (images_1 inp) (cat inp);
    '(match_phot_inp, out1, out2) ← ref_match (filt1 inp) (filt2 inp) sel mp1 mp2;
    catalog1 ← mp1 !! 0;
    catalog2 ← mp2 !! 0;
    plot_cmd (filt1 inp) (filt2 inp) sel match_phot_inp catalog1 catalog2
             out1 out2.
Proof.
  unfold analysis, cross_matched.
  destruct (results_clean (images_1 inp) _ _); simpl; [|done].
  destruct (results_clean (images_2 inp) _ _); simpl; [|done].
  destruct (results_final (images_1 inp) _); simpl; [|done].
  destruct (results_final (images_2 inp) _); simpl; [|done].
  done.
Qed.

Lemma cross_matched_inv (inp : Inputs) mp1 mp2 :
  cross_matched inp = Some (mp1, mp2) →
  ∃ clean1 clean2 final1 final2,
    results_clean (images_1 inp) (results_1 inp) (filt1 inp) = Some clean1 ∧
    results_clean (images_2 inp) (results_2 inp) (filt2 inp) = Some clean2 ∧
    results_final (images_1 inp) clean1 = Some final1 ∧
    results_final (images_2 inp) clean2 = Some final2 ∧
    matches_phot final1 final2 = Some (mp1, mp2).
Proof.
  unfold cross_matched.
  destruct (results_clean (images_1 inp) _ _) as [c1|]; simpl; [|done].
  destruct (results_clean (images_2 inp) _ _) as [c2|]; simpl; [|done].
  destruct (results_final (images_1 inp) _) as [f1|] eqn:E1; simpl; [|done].
  destruct (results_final (images_2 inp) _) as [f2|] eqn:E2; simpl; [|done].
  intros H. by exists c1, c2, f1, f2.
Qed.

Lemma analysis_inv (inp : Inputs) fig :
  analysis inp = Some fig →
  ∃ mp1 mp2 sel match_phot_inp out1 out2 catalog1 catalog2,
    cross_matched inp = Some (mp1, mp2) ∧
    cat_sel (images_1 inp) (cat inp) = Some sel ∧
    ref_match (filt1 inp) (filt2 inp) sel mp1 mp2
      = Some (match_phot_inp, out1, out2) ∧
    mp1 !! 0 = Some catalog1 ∧ mp2 !! 0 = Some catalog2 ∧
    plot_cmd (filt1 inp) (filt2 inp) sel match_phot_inp catalog1 catalog2
             out1 out2 = Some fig.
Proof.
  rewrite analysis_cross_matched.
  destruct (cross_matched inp) as [[mp1 mp2]|]; simpl; [|done].
  destruct (cat_sel _ _) as [sel|]; simpl; [|done].
  destruct (ref_match _ _ _ _ _) as [[[mi o1] o2]|] eqn:Er; simpl; [|done].
  destruct (mp1 !! 0) as [c1|] eqn:E1; simpl; [|done].
  destruct (mp2 !! 0) as [c2|] eqn:E2; simpl; [|done].
  intros H. by exists mp1, mp2, sel, mi, o1, o2, c1, c2.
Qed.

End Inversions.

(** ** Every row of a final catalogue is a measured detection *)

Lemma radec_ne_inst (filt : string) : "radec" ≠ filt +:+ "_inst".
Proof. intros H. name_clash H. Qed.

Lemma radec_ne_einst (filt : string) : "radec" ≠ "e" +:+ filt +:+ "_inst".
Proof.
  intros H. pose proof (f_equal String.length H) as L.
  rewrite !string_length_app in L. simpl in L. lia.
Qed.

Section Provenance.
Context `{Ext : Externals}.

Lemma final_row_valid shape0 im filt (t : Table) r :
  final_row shape0 im filt t r → valid_detection shape0 r.
Proof.
  intros (k & x & y & f & u & _ & Ex & Ey & Ef & _ & Hin & Hpos & _).
  by exists x, y, f.
Qed.

Lemma final_rows images results filt cleaned finals a (res : Table) im0 :
  Forall phot_table results →
  results_clean images results filt = Some cleaned →
  results_final images cleaned = Some finals →
  images !! 0 = Some im0 → finals !! a = Some res →
  ∃ im t, images !! a = Some im ∧ results !! a = Some t ∧ table_wf res ∧
          ∀ k, k < nrows res → final_row (shape im0) im filt t (row res k).
Proof.
  intros Hall Hc Hf E0 Ea.
  destruct (results_clean_inv _ _ _ _ Hc) as [Lc Hci].
  destruct (results_final_inv _ _ _ Hf) as [Lf Hfi].
  assert (a < length images) as Ha by (apply lookup_lt_Some in Ea; lia).
  destruct (Hci a Ha) as (im0' & t & tc & E0' & Et & Etc & Hone).
  assert (im0' = im0) as -> by congruence.
  destruct (Hfi a Ha) as (im & tc' & res' & Eim & Etc' & Eres & Hsky).
  assert (tc' = tc) as -> by congruence.
  assert (res' = res) as -> by congruence.
  assert (phot_table t) as Hpt.
  { rewrite Forall_forall in Hall. apply Hall. by eapply list_elem_of_lookup_2. }
  destruct (clean_one_rows im0 filt t Hpt)
    as (tc' & kept & Hone' & Hwfc & Hn & _ & Hkept & Hrows).
  assert (tc' = tc) as -> by congruence.
  pose proof (results_clean_pixel_tables _ _ _ _ Hall Hc) as Hpix.
  rewrite Forall_lookup in Hpix.
  destruct (Hpix a tc Etc) as (_ & x & y & Hx & Hy).
  destruct (to_sky_spec im tc x y Hwfc Hx Hy) as (res' & Hsky' & Hwfr & Hnr & Hcr).
  assert (res' = res) as -> by congruence.
  exists im, t. split; [done|]. split; [done|]. split; [done|].
  intros k Hk.
  destruct (proj2 (lookup_lt_is_Some kept k)) as [k0 Ek0]; [lia|].
  destruct (Hrows k k0 Ek0) as (Hsame & f & u & Ef & Eu & Einst & Eeinst).
  assert (valid_detection (shape im0) (row t k0))
    as (xv & yv & fv & Exv & Eyv & Efv & Hin & Hpos).
  { apply Hkept. by eapply list_elem_of_lookup_2. }
  assert (fv = f) as -> by congruence.
  assert (∀ name, name ≠ "radec" → row res k !! name = row tc k !! name) as Hres.
  { intros name Hne. by rewrite !row_lookup, Hcr, lookup_insert_ne. }
  assert (∀ n, n ∈ ["x_fit"; "y_fit"; "flux_fit"; "flux_unc"] →
               row res k !! n = row t k0 !! n) as Hread.
  { intros n Hn'. rewrite Hres, Hsame; [done| | |].
    - apply not_eq_sym, inst_ne_read, Hn'.
    - apply not_eq_sym, einst_ne_read, Hn'.
    - intros ->. revert Hn'. rewrite !elem_of_cons, elem_of_nil.
      intros [|[|[|[|[]]]]]; discriminate. }
  exists k0, xv, yv, f, u. split_and!.
  - intros name H1 H2 H3. by rewrite Hres, Hsame.
  - rewrite Hread; [done|in_list].
  - rewrite Hread; [done|in_list].
  - rewrite Hread; [done|in_list].
  - rewrite Hread; [done|in_list].
  - done.
  - done.
  - rewrite Hres; [done|]. apply not_eq_sym, radec_ne_inst.
  - rewrite Hres; [done|]. apply not_eq_sym, radec_ne_einst.
  - assert (row tc k !! "x_fit" = Some (VFloat xv)) as Ex'.
    { rewrite Hsame; [done| |]; apply not_eq_sym;
        [apply inst_ne_read|apply einst_ne_read]; in_list. }
    assert (row tc k !! "y_fit" = Some (VFloat yv)) as Ey'.
    { rewrite Hsame; [done| |]; apply not_eq_sym;
        [apply inst_ne_read|apply einst_ne_read]; in_list. }
    rewrite (row_float tc k _ _ Hx) in Ex'.
    rewrite (row_float tc k _ _ Hy) in Ey'.
    destruct (x !! k) as [xv'|] eqn:Exk; [|done].
    destruct (y !! k) as [yv'|] eqn:Eyk; [|done].
    injection Ex' as ->. injection Ey' as ->.
    rewrite row_lookup, Hcr, lookup_insert_eq. simpl. unfold pixel_to_sky.
    by rewrite lookup_zip_with, Exk, Eyk.
Qed.


(** The pair of final catalogues behind the matched tables of the images
    [a] and [b]. *)
Lemma matched_pair (inp : Inputs) (mp1 mp2 : list Table) im01 im02 a b ima imb :
  Forall phot_table (results_1 inp) → Forall phot_table (results_2 inp) →
  cross_matched inp = Some (mp1, mp2) →
  images_1 inp !! 0 = Some im01 → images_2 inp !! 0 = Some im02 →
  images_1 inp !! a = Some ima → images_2 inp !! b = Some imb →
  ∃ t1 t2 res1 res2 m1 m2,
    results_1 inp !! a = Some t1 ∧ results_2 inp !! b = Some t2 ∧
    table_wf res1 ∧ table_wf res2 ∧
    (∀ k, k < nrows res1 →
          final_row (shape im01) ima (filt1 inp) t1 (row res1 k)) ∧
    (∀ k, k < nrows res2 →
          final_row (shape im02) imb (filt2 inp) t2 (row res2 k)) ∧
    cross_match res1 res2 = Some (m1, m2) ∧
    mp1 !! (a * length (images_2 inp) + b) = Some m1 ∧
    mp2 !! (a * length (images_2 inp) + b) = Some m2.
Proof.
  intros Hall1 Hall2 Hrun E01 E02 Ea Eb.
  destruct (cross_matched_inv _ _ _ Hrun)
    as (clean1 & clean2 & final1 & final2 & Hc1 & Hc2 & Hf1 & Hf2 & Hm).
  destruct (matches_phot_inv _ _ _ _ Hm) as (_ & _ & Hpair).
  destruct (results_final_inv _ _ _ Hf1) as [Lf1 _].
  destruct (results_final_inv _ _ _ Hf2) as [Lf2 _].
  destruct (proj2 (lookup_lt_is_Some final1 a)) as [res1 Er1].
  { apply lookup_lt_Some in Ea. lia. }
  destruct (proj2 (lookup_lt_is_Some final2 b)) as [res2 Er2].
  { apply lookup_lt_Some in Eb. lia. }
  destruct (final_rows _ _ _ _ _ a res1 im01 Hall1 Hc1 Hf1 E01 Er1)
    as (ima' & t1 & Ea' & Et1 & Hwf1 & Hrows1).
  destruct (final_rows _ _ _ _ _ b res2 im02 Hall2 Hc2 Hf2 E02 Er2)
    as (imb' & t2 & Eb' & Et2 & Hwf2 & Hrows2).
  assert (ima' = ima) as -> by congruence.
  assert (imb' = imb) as -> by congruence.
  destruct (Hpair a b res1 res2 Er1 Er2) as (m1 & m2 & Hcm & Em1 & Em2).
  rewrite Lf2 in Em1, Em2.
  by exists t1, t2, res1, res2, m1, m2.
Qed.

(** The number of matched tables. *)
Lemma cross_matched_length (inp : Inputs) (mp1 mp2 : list Table) :
  cross_matched inp = Some (mp1, mp2) →
  length mp1 = length (images_1 inp) * length (images_2 inp) ∧
  length mp2 = length (images_1 inp) * length (images_2 inp).
Proof.
  intros Hrun.
  destruct (cross_matched_inv _ _ _ Hrun)
    as (clean1 & clean2 & final1 & final2 & Hc1 & Hc2 & Hf1 & Hf2 & Hm).
  destruct (matches_phot_inv _ _ _ _ Hm) as (L1 & L2 & _).
  destruct (results_final_inv _ _ _ Hf1) as [Lf1 _].
  destruct (results_final_inv _ _ _ Hf2) as [Lf2 _].
  rewrite Lf1, Lf2 in L1, L2. done.
Qed.

End Provenance.

(** X1.  Whatever the oracle returns, when the cells up to the cross-match
    have run on loaded photometry catalogues, the matched tables are one
    pair per pair of images [(a, b)], at position [a * len(images_2) + b];
    the two tables of a pair have the same number of rows, and every row of
    either is a measured detection of the catalogue of its own image: a row
    of that catalogue with its position strictly inside the FIRST image of
    its filter and a positive flux, whose instrumental magnitude is
    -2.5 * log10 of its own flux, whose error is
    1.086 * (flux_unc / flux_fit) of its own fluxes, or masked where
    [numpy.ma] masks that quotient when the [flux_unc] or the [flux_fit]
    column of the catalogue holds a NaN, and whose sky position is what the
    WCS of its OWN image gives for its pixel position. *)
Theorem matched_rows_are_measured_detections `{Ext : Externals}
    (inp : Inputs) (mp1 mp2 : list Table) (im01 im02 : Image) :
  Forall phot_table (results_1 inp) → Forall phot_table (results_2 inp) →
  cross_matched inp = Some (mp1, mp2) →
  images_1 inp !! 0 = Some im01 → images_2 inp !! 0 = Some im02 →
  length mp1 = length (images_1 inp) * length (images_2 inp) ∧
  length mp2 = length mp1 ∧
  ∀ a b ima imb, images_1 inp !! a = Some ima → images_2 inp !! b = Some imb →
    ∃ t1 t2 m1 m2,
      results_1 inp !! a = Some t1 ∧ results_2 inp !! b = Some t2 ∧
      mp1 !! (a * length (images_2 inp) + b) = Some m1 ∧
      mp2 !! (a * length (images_2 inp) + b) = Some m2 ∧
      nrows m2 = nrows m1 ∧
      ∀ j, j < nrows m1 →
        final_row (shape im01) ima (filt1 inp) t1 (row m1 j) ∧
        final_row (shape im02) imb (filt2 inp) t2 (row m2 j).
Proof.
  intros Hall1 Hall2 Hrun E01 E02.
  destruct (cross_matched_length _ _ _ Hrun) as [L1 L2].
  split; [done|]. split; [lia|].
  intros a b ima imb Ea Eb.
  destruct (matched_pair inp mp1 mp2 im01 im02 a b ima imb)
    as (t1 & t2 & res1 & res2 & m1 & m2 & Et1 & Et2 & Hwf1 & Hwf2 &
        Hrows1 & Hrows2 & Hcm & Em1 & Em2); try done.
  destruct (cross_match_inv _ _ _ _ Hwf1 Hwf2 Hcm)
    as (c1 & c2 & idx & d2d & _ & _ & _ & Lsc & _ & _ & _ & Hn1 & Hn2 & Hrow).
  exists t1, t2, m1, m2. split_and!; try done.
  intros j Hj.
  destruct (proj2 (lookup_lt_is_Some (positions (sep_constraint d2d)) j))
    as [k Ek]; [unfold count_true in Hn1; lia|].
  destruct (Hrow j k Ek) as (-> & n & _ & Hn & ->).
  split.
  - apply Hrows1.
    assert (sep_constraint d2d !! k = Some true) as Hk
      by (apply elem_of_positions; by eapply list_elem_of_lookup_2).
    apply lookup_lt_Some in Hk. lia.
  - by apply Hrows2.
Qed.

(** X2.  Under the oracle contract, the two rows at one position of a pair
    of matched tables are a detection of each filter whose sky positions
    are closer than the threshold: their separation in arcseconds, divided
    by the pixel scale, is below [max_sep]. *)
Theorem matched_pairs_within_threshold `{Ext : Externals}
    (inp : Inputs) (mp1 mp2 : list Table) :
  oracle_contract →
  Forall phot_table (results_1 inp) → Forall phot_table (results_2 inp) →
  cross_matched inp = Some (mp1, mp2) →
  ∀ i m1 m2, mp1 !! i = Some m1 → mp2 !! i = Some m2 →
    ∀ j, j < nrows m1 →
      ∃ p q, row m1 j !! "radec" = Some (VCoord p) ∧
             row m2 j !! "radec" = Some (VCoord q) ∧
             flt (fdiv (arcsec (separation p q)) pixelscale) max_sep = true.
Proof.
  intros Hor Hall1 Hall2 Hrun i m1 m2 Em1 Em2 j Hj.
  destruct (cross_matched_inv _ _ _ Hrun)
    as (clean1 & clean2 & final1 & final2 & Hc1 & Hc2 & Hf1 & Hf2 & Hm).
  destruct (matches_phot_elem _ _ _ _ _ _ _ Hm Em1 Em2)
    as (res1 & res2 & H1 & H2 & Hcm).
  pose proof (results_final_sky_tables _ _ _
                (results_clean_pixel_tables _ _ _ _ Hall1 Hc1) Hf1) as Hs1.
  pose proof (results_final_sky_tables _ _ _
                (results_clean_pixel_tables _ _ _ _ Hall2 Hc2) Hf2) as Hs2.
  rewrite Forall_forall in Hs1, Hs2.
  destruct (Hs1 res1 H1) as [Hwf1 _]. destruct (Hs2 res2 H2) as [Hwf2 _].
  destruct (cross_match_inv _ _ _ _ Hwf1 Hwf2 Hcm)
    as (c1 & c2 & idx & d2d & Ec1 & Ec2 & Hmatch & Lsc & Li & _ & _ & Hn1 & _ & Hrow).
  destruct (proj2 (lookup_lt_is_Some (positions (sep_constraint d2d)) j))
    as [k Ek]; [unfold count_true in Hn1; lia|].
  destruct (Hrow j k Ek) as (-> & n & En & Hn & ->).
  assert (sep_constraint d2d !! k = Some true) as Hk
    by (apply elem_of_positions; by eapply list_elem_of_lookup_2).
  pose proof (wf_col_len _ _ _ Hwf1 Ec1) as L1.
  pose proof (wf_col_len _ _ _ Hwf2 Ec2) as L2. simpl in L1, L2.
  assert (c2 ≠ []) as Hne by (intros ->; simpl in L2; lia).
  destruct (oracle_entries c1 c2 idx d2d Hor Hne Hmatch) as (_ & _ & _ & Hnn).
  destruct (proj2 (lookup_lt_is_Some c1 k)) as [p Ep].
  { apply lookup_lt_Some in Hk. lia. }
  destruct (Hnn k p Ep) as (n' & d & En' & Ed & q & Eq & -> & _).
  assert (n' = n) as -> by congruence.
  rewrite (sep_constraint_lookup _ _ _ Ed) in Hk. injection Hk as Hk.
  exists p, q.
  rewrite (row_coord res1 k _ _ Ec1), (row_coord res2 n _ _ Ec2), Ep, Eq.
  done.
Qed.

(** ** 7. The figure *)

Lemma select_zip_with {A B C} (f : A → B → C) (mask : list bool) l1 l2 :
  zip_with f (select mask l1) (select mask l2) = select mask (zip_with f l1 l2).
Proof.
  revert l1 l2. induction mask as [|b mask IH]; intros [|x l1] [|y l2];
    simpl; try done.
  - by destruct b; destruct (select mask l1).
  - destruct b; simpl; by rewrite IH.
Qed.

Lemma positions_from_length n mask :
  length (positions_from n mask) ≤ length mask.
Proof.
  revert n. induction mask as [|[] mask IH]; intros n; simpl; [lia| |].
  - specialize (IH (S n)). lia.
  - specialize (IH (S n)). lia.
Qed.

Lemma count_true_le mask : count_true mask ≤ length mask.
Proof. apply positions_from_length. Qed.

Section FigureFacts.
Context `{Ext : Externals}.

Lemma sub_arrays_Some (a b c : list float64) :
  sub_arrays a b = Some c → length a = length b ∧ c = zip_with fsub a b.
Proof. unfold sub_arrays. destruct (decide _); [|done]. by intros [= <-]. Qed.

(** What a drawn figure shows. *)
Lemma plot_cmd_inv filt1 filt2 (sel inp catalog1 catalog2 out1 out2 : Table) fig :
  plot_cmd filt1 filt2 sel inp catalog1 catalog2 out1 out2 = Some fig →
  ∃ a1 a2 b1 b2 o1 o2,
    float_col sel filt1 = Some a1 ∧ float_col sel filt2 = Some a2 ∧
    float_col inp filt1 = Some b1 ∧ float_col inp filt2 = Some b2 ∧
    float_col catalog1 (filt1 +:+ "_inst") = Some o1 ∧
    float_col catalog2 (filt2 +:+ "_inst") = Some o2 ∧
    length a1 = length a2 ∧ length b1 = length b2 ∧ length o1 = length o2 ∧
    lmc_all fig = (zip_with fsub a1 a2, a1) ∧
    lmc_matched fig = (zip_with fsub b1 b2, b1) ∧
    n_fov fig = length a1 ∧ n_matched fig = length b1 ∧
    psf_all fig = (zip_with fsub o1 o2, o1).
Proof.
  unfold plot_cmd.
  destruct (float_col sel filt1) as [a1|]; simpl; [|done].
  destruct (float_col sel filt2) as [a2|]; simpl; [|done].
  destruct (sub_arrays a1 a2) as [ca|] eqn:Ea; simpl; [|done].
  destruct (float_col inp filt1) as [b1|]; simpl; [|done].
  destruct (float_col inp filt2) as [b2|]; simpl; [|done].
  destruct (sub_arrays b1 b2) as [cb|] eqn:Eb; simpl; [|done].
  destruct (float_col catalog1 _) as [o1|]; simpl; [|done].
  destruct (float_col catalog2 _) as [o2|]; simpl; [|done].
  destruct (sub_arrays o1 o2) as [co|] eqn:Eo; simpl; [|done].
  destruct (float_col out1 _) as [p1|]; simpl; [|done].
  destruct (float_col out2 _) as [p2|]; simpl; [|done].
  destruct (sub_arrays p1 p2) as [cp|] eqn:Ep; simpl; [|done].
  intros [= <-]. simpl.
  apply sub_arrays_Some in Ea as [La ->].
  apply sub_arrays_Some in Eb as [Lb ->].
  apply sub_arrays_Some in Eo as [Lo ->].
  exists a1, a2, b1, b2, o1, o2. split_and!; done.
Qed.

Lemma set_col_cols name c (t t' : Table) :
  set_col name c t = Some t' → cols t' = <[ name := c ]> (cols t).
Proof.
  unfold set_col. destruct (decide (size (cols t) = 0)) as [E|E].
  - intros [= <-]. simpl. apply map_size_empty_iff in E. by rewrite E.
  - destruct (decide _); [|done]. by intros [= <-].
Qed.

(** The magnitudes of the matched reference stars are those of the selected
    reference catalogue under the mask of the threshold test. *)
Lemma ref_match_inv filt1 filt2 (sel : Table) mp1 mp2 (inp out1 out2 : Table) :
  ref_match filt1 filt2 sel mp1 mp2 = Some (inp, out1, out2) →
  ∃ ra de catalog1 c1 idx d2d mag1 mag2,
    float_col sel "ra_in" = Some ra ∧ float_col sel "dec_in" = Some de ∧
    mp1 !! 0 = Some catalog1 ∧ coord_col catalog1 "radec" = Some c1 ∧
    match_coordinates_sky (zip_with SkyCoord ra de) c1 = Some (idx, d2d) ∧
    float_col sel filt1 = Some mag1 ∧ float_col sel filt2 = Some mag2 ∧
    length (sep_constraint d2d) = length mag1 ∧
    length (sep_constraint d2d) = length mag2 ∧
    float_col inp filt1 = Some (select (sep_constraint d2d) mag1) ∧
    float_col inp filt2 = Some (select (sep_constraint d2d) mag2).
Proof.
  unfold ref_match.
  destruct (float_col sel "ra_in") as [ra|] eqn:Era; simpl; [|done].
  destruct (float_col sel "dec_in") as [de|] eqn:Ede; simpl; [|done].
  destruct (mp1 !! 0) as [catalog1|] eqn:Ecat; simpl; [|done].
  destruct (mp2 !! 0) as [catalog2|]; simpl; [|done].
  destruct (coord_col catalog1 "radec") as [c1|] eqn:Ec1; simpl; [|done].
  destruct (match_coordinates_sky _ c1) as [[idx d2d]|] eqn:Em; simpl; [|done].
  destruct (mask_index _ (zip_with SkyCoord ra de)) as [radec_m|]; simpl; [|done].
  destruct (set_col "radec" _ _) as [t1|]; simpl; [|done].
  destruct (float_col sel filt1) as [mag1|] eqn:E1; simpl; [|done].
  destruct (mask_index _ mag1) as [mag1_m|] eqn:Em1; simpl; [|done].
  destruct (set_col filt1 _ t1) as [t2|] eqn:Es2; simpl; [|done].
  destruct (float_col sel filt2) as [mag2|] eqn:E2; simpl; [|done].
  destruct (mask_index _ mag2) as [mag2_m|] eqn:Em2; simpl; [|done].
  destruct (set_col filt2 _ t2) as [t3|] eqn:Es3; simpl; [|done].
  destruct (mask_index _ idx) as [kept|]; simpl; [|done].
  destruct (table_take kept catalog1) as [o1|]; simpl; [|done].
  destruct (table_take kept catalog2) as [o2|]; simpl; [|done].
  intros [= <- <- <-].
  unfold mask_index in Em1, Em2.
  destruct (decide _) as [L1|] in Em1; [|done].
  destruct (decide _) as [L2|] in Em2; [|done].
  injection Em1 as <-. injection Em2 as <-.
  exists ra, de, catalog1, c1, idx, d2d, mag1, mag2. split_and!; try done.
  - apply float_col_Some. rewrite (set_col_cols _ _ _ _ Es3).
    destruct (decide (filt1 = filt2)) as [->|Hne].
    + rewrite lookup_insert_eq. congruence.
    + rewrite lookup_insert_ne by done.
      rewrite (set_col_cols _ _ _ _ Es2). by rewrite lookup_insert_eq.
  - apply float_col_Some. rewrite (set_col_cols _ _ _ _ Es3).
    by rewrite lookup_insert_eq.
Qed.

End FigureFacts.

Lemma cat_sel_wf `{Ext : Externals} (images : list Image) (cat sel : Table) :
  table_wf cat → cat_sel images cat = Some sel → table_wf sel.
Proof.
  intros Hwf. unfold cat_sel.
  destruct (images !! 0) as [im0|]; cbn [mbind option_bind]; [|done].
  destruct (float_col cat "ra_in") as [ra|]; cbn [mbind option_bind]; [|done].
  destruct (float_col cat "dec_in") as [de|]; cbn [mbind option_bind]; [|done].
  intros H.
  assert (length (fov_mask (fov_limits im0).1 (fov_limits im0).2 ra de)
          = nrows cat) as L.
  { unfold table_select in H. by destruct (decide _). }
  destruct (table_select_spec _ _ Hwf L) as (sel' & H' & Hwf' & _).
  rewrite H in H'. by injection H' as <-.
Qed.

(** X3.  The left panel of a figure drawn from a rectangular reference
    catalogue.  The black points are one point per row of the catalogue
    [cat_sel] selected in the field of view, in order: the point of row [k]
    has the ordinate [filt1] of the row and the abscissa [filt1 - filt2] of
    the row; [n_fov], the number written on the panel, is the number of
    rows of [cat_sel].  The red points are the black points of the rows at
    which the threshold test of the cross-match with the first matched
    table holds, in order, [n_matched] of them; so every red point lies on
    a black one and [n_matched] is at most [n_fov]. *)
Theorem red_points_are_among_black_points `{Ext : Externals}
    (inp : Inputs) (fig : Figure) :
  table_wf (cat inp) → analysis inp = Some fig →
  ∃ sel mp1 mp2 catalog1 ra de c1 idx d2d,
    cat_sel (images_1 inp) (cat inp) = Some sel ∧
    n_fov fig = nrows sel ∧
    length (lmc_all fig).1 = nrows sel ∧ length (lmc_all fig).2 = nrows sel ∧
    (∀ k, k < nrows sel →
       ∃ m1 m2,
         row sel k !! filt1 inp = Some (VFloat m1) ∧
         row sel k !! filt2 inp = Some (VFloat m2) ∧
         (lmc_all fig).1 !! k = Some (fsub m1 m2) ∧
         (lmc_all fig).2 !! k = Some m1) ∧
    float_col sel "ra_in" = Some ra ∧ float_col sel "dec_in" = Some de ∧
    cross_matched inp = Some (mp1, mp2) ∧ mp1 !! 0 = Some catalog1 ∧
    coord_col catalog1 "radec" = Some c1 ∧
    match_coordinates_sky (zip_with SkyCoord ra de) c1 = Some (idx, d2d) ∧
    length (sep_constraint d2d) = nrows sel ∧
    lmc_matched fig = (select (sep_constraint d2d) (lmc_all fig).1,
                       select (sep_constraint d2d) (lmc_all fig).2) ∧
    n_matched fig = count_true (sep_constraint d2d) ∧
    n_matched fig ≤ n_fov fig.
Proof.
  intros Hwf Hrun.
  destruct (analysis_inv _ _ Hrun)
    as (mp1 & mp2 & sel & mi & o1 & o2 & cat1 & cat2 &
        Hcm & Hsel & Hr & E1 & _ & Hp).
  destruct (plot_cmd_inv _ _ _ _ _ _ _ _ _ Hp)
    as (a1 & a2 & b1 & b2 & _ & _ & Ea1 & Ea2 & Eb1 & Eb2 & _ & _ &
        La & Lb & _ & -> & -> & -> & -> & _).
  destruct (ref_match_inv _ _ _ _ _ _ _ _ Hr)
    as (ra & de & catalog1 & c1 & idx & d2d & mag1 & mag2 &
        Era & Ede & E1' & Ec1 & Hm & Em1 & Em2 & L1 & L2 & Ei1 & Ei2).
  assert (mag1 = a1) as -> by congruence.
  assert (mag2 = a2) as -> by congruence.
  assert (b1 = select (sep_constraint d2d) a1) as -> by congruence.
  assert (b2 = select (sep_constraint d2d) a2) as -> by congruence.
  pose proof (cat_sel_wf _ _ _ Hwf Hsel) as Hwfs.
  apply float_col_Some in Ea1, Ea2.
  pose proof (wf_col_len _ _ _ Hwfs Ea1) as N1.
  pose proof (wf_col_len _ _ _ Hwfs Ea2) as N2. simpl in N1, N2.
  exists sel, mp1, mp2, catalog1, ra, de, c1, idx, d2d. simpl.
  rewrite length_zip_with, select_zip_with, (select_length _ _ L1).
  pose proof (count_true_le (sep_constraint d2d)).
  split_and!; try done; try lia.
  intros k Hk.
  destruct (proj2 (lookup_lt_is_Some a1 k)) as [m1 Ek1]; [lia|].
  destruct (proj2 (lookup_lt_is_Some a2 k)) as [m2 Ek2]; [lia|].
  exists m1, m2.
  rewrite (row_float sel k _ _ Ea1), (row_float sel k _ _ Ea2).
  rewrite lookup_zip_with, Ek1, Ek2. done.
Qed.

(** X4.  The right panel of a drawn figure, on loaded photometry
    catalogues: one point per row of the first pair of matched tables; its
    ordinate is the instrumental magnitude [-2.5 log10(flux_fit)] of the
    filter-1 detection of the row and its abscissa is that magnitude minus
    the instrumental magnitude of the filter-2 detection of the row, both
    fluxes being positive. *)
Theorem psf_panel_plots_instrumental_magnitudes `{Ext : Externals}
    (inp : Inputs) (fig : Figure) :
  Forall phot_table (results_1 inp) → Forall phot_table (results_2 inp) →
  analysis inp = Some fig →
  ∃ mp1 mp2 catalog1 catalog2,
    cross_matched inp = Some (mp1, mp2) ∧
    mp1 !! 0 = Some catalog1 ∧ mp2 !! 0 = Some catalog2 ∧
    length (psf_all fig).1 = nrows catalog1 ∧
    length (psf_all fig).2 = nrows catalog1 ∧
    ∀ j, j < nrows catalog1 →
      ∃ f1 f2,
        row catalog1 j !! "flux_fit" = Some (VFloat f1) ∧
        row catalog2 j !! "flux_fit" = Some (VFloat f2) ∧
        flt (of_int 0) f1 = true ∧ flt (of_int 0) f2 = true ∧
        (psf_all fig).2 !! j = Some (fmul minus_2_5 (log10 f1)) ∧
        (psf_all fig).1 !! j =
          Some (fsub (fmul minus_2_5 (log10 f1)) (fmul minus_2_5 (log10 f2))).
Proof.
  intros Hall1 Hall2 Hrun.
  destruct (analysis_inv _ _ Hrun)
    as (mp1 & mp2 & sel & mi & out1 & out2 & c1 & c2 & Hcm & _ & _ & E1 & E2 & Hp).
  destruct (plot_cmd_inv _ _ _ _ _ _ _ _ _ Hp)
    as (_ & _ & _ & _ & o1 & o2 & _ & _ & _ & _ & Eo1 & Eo2 &
        _ & _ & Lo & _ & _ & _ & _ & Hpsf).
  destruct (cross_matched_length _ _ _ Hcm) as [L1 _].
  pose proof (lookup_lt_Some _ _ _ E1) as Hpos.
  destruct (proj2 (lookup_lt_is_Some (images_1 inp) 0)) as [im01 E01]; [nia|].
  destruct (proj2 (lookup_lt_is_Some (images_2 inp) 0)) as [im02 E02]; [nia|].
  destruct (matched_pair inp mp1 mp2 im01 im02 0 0 im01 im02)
    as (t1 & t2 & res1 & res2 & m1 & m2 & _ & _ & Hwf1 & Hwf2 &
        Hrows1 & Hrows2 & Hcross & Em1 & Em2); try done.
  simpl in Em1, Em2.
  assert (m1 = c1) as -> by congruence.
  assert (m2 = c2) as -> by congruence.
  destruct (cross_match_inv _ _ _ _ Hwf1 Hwf2 Hcross)
    as (r1 & r2 & idx & d2d & _ & _ & _ & Lsc & _ & Hwfc1 & Hwfc2 & Hn1 & Hn2 & Hrow).
  apply float_col_Some in Eo1, Eo2.
  pose proof (wf_col_len _ _ _ Hwfc1 Eo1) as Lo1. simpl in Lo1.
  exists mp1, mp2, c1, c2. rewrite Hpsf. simpl. rewrite length_zip_with.
  split_and!; try done; [lia|].
  intros j Hj.
  destruct (proj2 (lookup_lt_is_Some (positions (sep_constraint d2d)) j))
    as [k Ek]; [unfold count_true in Hn1; lia|].
  destruct (Hrow j k Ek) as (Er1 & n & _ & Hn & Er2).
  assert (k < nrows res1) as Hk.
  { assert (sep_constraint d2d !! k = Some true) as Hk
      by (apply elem_of_positions; by eapply list_elem_of_lookup_2).
    apply lookup_lt_Some in Hk. lia. }
  destruct (Hrows1 k Hk)
    as (_ & _ & _ & f1 & _ & _ & _ & _ & Ef1 & _ & _ & Hp1 & Ei1 & _).
  destruct (Hrows2 n Hn)
    as (_ & _ & _ & f2 & _ & _ & _ & _ & Ef2 & _ & _ & Hp2 & Ei2 & _).
  rewrite <- Er1 in Ef1, Ei1. rewrite <- Er2 in Ef2, Ei2.
  rewrite (row_float c1 j _ _ Eo1) in Ei1.
  rewrite (row_float c2 j _ _ Eo2) in Ei2.
  destruct (o1 !! j) as [v1|] eqn:Ev1; [|done].
  destruct (o2 !! j) as [v2|] eqn:Ev2; [|done].
  injection Ei1 as ->. injection Ei2 as ->.
  exists f1, f2. rewrite lookup_zip_with, Ev1, Ev2. done.
Qed.

(** ** Only the first image of each filter reaches the figure *)

Section FirstOnly.
Context `{Ext : Externals}.

Lemma results_clean_single im0 filt (t tc : Table) :
  clean_one im0 filt t = Some tc → results_clean [im0] [t] filt = Some [tc].
Proof. intros H. unfold results_clean. simpl. by rewrite H. Qed.

Lemma results_final_single im (t r : Table) :
  to_sky im t = Some r → results_final [im] [t] = Some [r].
Proof. intros H. unfold results_final. simpl. by rewrite H. Qed.

Lemma matches_phot_single (r1 r2 m1 m2 : Table) :
  cross_match r1 r2 = Some (m1, m2) →
  matches_phot [r1] [r2] = Some ([m1], [m2]).
Proof. intros H. unfold matches_phot. simpl. by rewrite H. Qed.

Lemma ref_match_first filt1 filt2 (sel : Table) mp1 mp2 mp1' mp2' :
  mp1 !! 0 = mp1' !! 0 → mp2 !! 0 = mp2' !! 0 →
  ref_match filt1 filt2 sel mp1 mp2 = ref_match filt1 filt2 sel mp1' mp2'.
Proof. intros H1 H2. unfold ref_match. by rewrite H1, H2. Qed.

Lemma cat_sel_first (images images' : list Image) (cat : Table) :
  images !! 0 = images' !! 0 → cat_sel images cat = cat_sel images' cat.
Proof. intros H. unfold cat_sel. by rewrite H. Qed.

End FirstOnly.

(** X5.  A drawn figure depends on the first image and the first catalogue
    of each filter only: the analysis of the inputs cut down to these draws
    the same figure.  (The other images and catalogues can only make the
    analysis raise.) *)
Theorem figure_depends_on_first_images_only `{Ext : Externals}
    (inp : Inputs) (fig : Figure) :
  analysis inp = Some fig → analysis (first_only inp) = Some fig.
Proof.
  intros Hrun.
  destruct (analysis_inv _ _ Hrun)
    as (mp1 & mp2 & sel & mi & o1 & o2 & c1 & c2 & Hcm & Hsel & Hr & E1 & E2 & Hp).
  destruct (cross_matched_inv _ _ _ Hcm)
    as (clean1 & clean2 & final1 & final2 & Hc1 & Hc2 & Hf1 & Hf2 & Hm).
  destruct (cross_matched_length _ _ _ Hcm) as [L1 _].
  pose proof (lookup_lt_Some _ _ _ E1) as Hpos.
  destruct (results_clean_inv _ _ _ _ Hc1) as [_ Hci1].
  destruct (results_clean_inv _ _ _ _ Hc2) as [_ Hci2].
  destruct (results_final_inv _ _ _ Hf1) as [_ Hfi1].
  destruct (results_final_inv _ _ _ Hf2) as [_ Hfi2].
  destruct (matches_phot_inv _ _ _ _ Hm) as (_ & _ & Hpair).
  destruct inp as [f1 f2 i1 i2 r1 r2 c]. simpl in *.
  destruct i1 as [|im1 i1]; [simpl in L1; lia|].
  destruct i2 as [|im2 i2]; [simpl in L1; lia|].
  destruct (Hci1 0) as (im1' & t1 & tc1 & E01 & Et1 & Etc1 & Hone1); [simpl; lia|].
  destruct (Hci2 0) as (im2' & t2 & tc2 & E02 & Et2 & Etc2 & Hone2); [simpl; lia|].
  destruct (Hfi1 0) as (im1'' & tc1' & res1 & E01' & Etc1' & Eres1 & Hsky1); [simpl; lia|].
  destruct (Hfi2 0) as (im2'' & tc2' & res2 & E02' & Etc2' & Eres2 & Hsky2); [simpl; lia|].
  simpl in E01, E02, E01', E02'.
  injection E01 as <-. injection E02 as <-.
  injection E01' as <-. injection E02' as <-.
  assert (tc1' = tc1) as -> by congruence.
  assert (tc2' = tc2) as -> by congruence.
  destruct (Hpair 0 0 res1 res2 Eres1 Eres2) as (m1 & m2 & Hcross & Em1 & Em2).
  simpl in Em1, Em2.
  assert (m1 = c1) as -> by congruence.
  assert (m2 = c2) as -> by congruence.
  destruct r1 as [|t1' r1]; [done|]. destruct r2 as [|t2' r2]; [done|].
  simpl in Et1, Et2. injection Et1 as ->. injection Et2 as ->.
  unfold analysis, first_only.
  cbn [filt1 filt2 images_1 images_2 results_1 results_2 cat firstn].
  rewrite !take_0.
  rewrite (results_clean_single _ _ _ _ Hone1),
          (results_clean_single _ _ _ _ Hone2). cbn [mbind option_bind].
  rewrite (results_final_single _ _ _ Hsky1),
          (results_final_single _ _ _ Hsky2). cbn [mbind option_bind].
  rewrite (matches_phot_single _ _ _ _ Hcross). cbn [mbind option_bind].
  rewrite (cat_sel_first [im1] (im1 :: i1) c eq_refl), Hsel.
  cbn [mbind option_bind].
  rewrite (ref_match_first f1 f2 sel [c1] [c2] mp1 mp2) by (simpl; congruence).
  rewrite Hr. simpl. exact Hp.
Qed.

(** X6.  Without an image of one of the two filters the analysis raises:
    no figure is drawn. *)
Theorem no_figure_without_images `{Ext : Externals} (inp : Inputs) :
  images_1 inp = [] ∨ images_2 inp = [] → analysis inp = None.
Proof.
  intros H. destruct (analysis inp) as [fig|] eqn:Hrun; [|done]. exfalso.
  destruct (analysis_inv _ _ Hrun)
    as (mp1 & mp2 & sel & mi & o1 & o2 & c1 & c2 & Hcm & _ & _ & E1 & _).
  destruct (cross_matched_length _ _ _ Hcm) as [L1 _].
  apply lookup_lt_Some in E1.
  destruct H as [H|H]; rewrite H in L1; simpl in L1; lia.
Qed.

(** ** The columns of the reference catalogue *)

Section CatalogueColumns.
Context `{Ext : Externals}.

Lemma cat_sel_cols (images : list Image) (cat sel : Table) name :
  cat_sel images cat = Some sel →
  is_Some (cols sel !! name) → is_Some (cols cat !! name).
Proof.
  unfold cat_sel.
  destruct (images !! 0) as [im0|]; simpl; [|done].
  destruct (float_col cat "ra_in") as [ra|]; simpl; [|done].
  destruct (float_col cat "dec_in") as [de|]; simpl; [|done].
  unfold table_select. destruct (decide _); [|done]. intros [= <-]. simpl.
  rewrite lookup_fmap. by destruct (cols cat !! name).
Qed.

End CatalogueColumns.

(** X7.  The reference catalogue is loaded with the columns at the
    positions [usecols] only ([index], [ra_in], [dec_in], [F115W] and
    [F200W]); on a catalogue with no other column, the analysis raises
    unless both selected filters are among these columns. *)
Theorem filters_must_be_loaded_columns `{Ext : Externals} (inp : Inputs) :
  map_Forall (λ name _, name ∈ cat_columns) (cols (cat inp)) →
  filt1 inp ∉ cat_columns ∨ filt2 inp ∉ cat_columns →
  analysis inp = None.
Proof.
  intros Hcols Hnot. destruct (analysis inp) as [fig|] eqn:Hrun; [|done].
  exfalso.
  destruct (analysis_inv _ _ Hrun)
    as (mp1 & mp2 & sel & mi & o1 & o2 & c1 & c2 & _ & Hsel & Hr & _).
  destruct (ref_match_inv _ _ _ _ _ _ _ _ Hr)
    as (_ & _ & _ & _ & _ & _ & mag1 & mag2 & _ & _ & _ & _ & _ & Em1 & Em2 & _).
  apply float_col_Some in Em1, Em2.
  assert (∀ name, is_Some (cols sel !! name) → name ∈ cat_columns) as Hin.
  { intros name Hs. destruct (cat_sel_cols _ _ _ name Hsel Hs) as [col Ecol].
    by apply (Hcols name col). }
  destruct Hnot as [Hnot|Hnot]; apply Hnot, Hin; by eexists.
Qed.

(** ** Catalogues are paired with images by position *)

(** X8.  The cleaning loop pairs catalogue [i] with image [i]: with fewer
    catalogues than images it raises, and so does the analysis; catalogues
    beyond the number of images are never read. *)
Theorem clean_pairs_catalogues_by_position `{Ext : Externals} :
  (∀ images (results : list Table) filt,
     length results < length images → results_clean images results filt = None) ∧
  (∀ inp : Inputs,
     length (results_1 inp) < length (images_1 inp) ∨
     length (results_2 inp) < length (images_2 inp) → analysis inp = None) ∧
  (∀ images (results : list Table) filt,
     results_clean images results filt =
     results_clean images (take (length images) results) filt).
Proof.
  assert (∀ images (results : list Table) filt,
            length results < length images →
            results_clean images results filt = None) as Hshort.
  { intros images results filt Hlt.
    destruct (results_clean images results filt) as [cleaned|] eqn:E; [|done].
    exfalso. destruct (results_clean_inv _ _ _ _ E) as [_ Hi].
    destruct (Hi (length results) Hlt) as (_ & t & _ & _ & Et & _).
    apply lookup_lt_Some in Et. lia. }
  split; [exact Hshort|]. split.
  - intros inp [H|H]; unfold analysis.
    + by rewrite (Hshort _ _ _ H).
    + rewrite (Hshort _ _ (filt2 inp) H).
      by destruct (results_clean (images_1 inp) _ _).
  - intros images results filt. unfold results_clean.
    apply mapM_pointwise. intros i Hi. apply elem_of_seq in Hi.
    rewrite lookup_take_lt by lia. done.
Qed.

(** ** Empty catalogues *)

Section EmptyCatalogues.
Context `{Ext : Externals}.

Lemma final_row_source shape0 im filt (t : Table) r :
  final_row shape0 im filt t r → ∃ k, valid_detection shape0 (row t k).
Proof.
  intros (k & x & y & f & u & Hsame & Ex & Ey & Ef & _ & Hin & Hpos & _).
  assert (∀ n, n ∈ ["x_fit"; "y_fit"; "flux_fit"; "flux_unc"] →
               r !! n = row t k !! n) as Hread.
  { intros n Hn. apply Hsame.
    - apply not_eq_sym, inst_ne_read, Hn.
    - apply not_eq_sym, einst_ne_read, Hn.
    - intros ->. revert Hn. rewrite !elem_of_cons, elem_of_nil.
      intros [|[|[|[|[]]]]]; discriminate. }
  exists k, x, y, f.
  rewrite <- !Hread by in_list. done.
Qed.

(** The number of rows of a cleaned catalogue with sky positions is the
    number of valid detections left. *)
Lemma final_nonempty images results filt cleaned finals a (res t : Table) im0 k :
  Forall phot_table results →
  results_clean images results filt = Some cleaned →
  results_final images cleaned = Some finals →
  images !! 0 = Some im0 → finals !! a = Some res → results !! a = Some t →
  valid_detection (shape im0) (row t k) → nrows res ≠ 0.
Proof.
  intros Hall Hc Hf E0 Ea Et Hv.
  destruct (results_clean_inv _ _ _ _ Hc) as [Lc Hci].
  destruct (results_final_inv _ _ _ Hf) as [Lf Hfi].
  assert (a < length images) as Ha by (apply lookup_lt_Some in Ea; lia).
  destruct (Hci a Ha) as (im0' & t' & tc & E0' & Et' & Etc & Hone).
  assert (im0' = im0) as -> by congruence.
  assert (t' = t) as -> by congruence.
  destruct (Hfi a Ha) as (im & tc' & res' & Eim & Etc' & Eres & Hsky).
  assert (tc' = tc) as -> by congruence.
  assert (res' = res) as -> by congruence.
  assert (phot_table t) as Hpt.
  { rewrite Forall_forall in Hall. apply Hall. by eapply list_elem_of_lookup_2. }
  destruct (clean_one_rows im0 filt t Hpt)
    as (tc' & kept & Hone' & Hwfc & Hn & _ & Hkept & _).
  assert (tc' = tc) as -> by congruence.
  pose proof (results_clean_pixel_tables _ _ _ _ Hall Hc) as Hpix.
  rewrite Forall_lookup in Hpix.
  destruct (Hpix a tc Etc) as (_ & x & y & Hx & Hy).
  destruct (to_sky_spec im tc x y Hwfc Hx Hy) as (res' & Hsky' & _ & Hnr & _).
  assert (res' = res) as -> by congruence.
  apply Hkept in Hv. rewrite Hnr, Hn. destruct kept; [|done].
  by apply elem_of_nil in Hv.
Qed.

End EmptyCatalogues.

(** X9.  When the cross-match routine raises on an empty catalogue, as
    astropy's does, the analysis raises rather than draw an empty match:
    at the cross-match, when no detection of the catalogue of some filter-2
    image is valid (and there is a filter-1 image); and at the cross-match
    with the reference catalogue, when the first pair of matched tables
    has no row. *)
Theorem empty_catalogue_aborts `{Ext : Externals} (inp : Inputs) :
  (∀ m, match_coordinates_sky m [] = None) →
  Forall phot_table (results_1 inp) → Forall phot_table (results_2 inp) →
  (∀ im02 b t,
     images_1 inp ≠ [] → images_2 inp !! 0 = Some im02 →
     b < length (images_2 inp) → results_2 inp !! b = Some t →
     (∀ k, ¬ valid_detection (shape im02) (row t k)) →
     cross_matched inp = None ∧ analysis inp = None) ∧
  (∀ mp1 mp2 catalog1,
     cross_matched inp = Some (mp1, mp2) → mp1 !! 0 = Some catalog1 →
     nrows catalog1 = 0 → analysis inp = None).
Proof.
  intros Hempty Hall1 Hall2. split.
  - intros im02 b t Hne E02 Hb Et Hnone.
    assert (cross_matched inp = None) as Hcm.
    { destruct (cross_matched inp) as [[mp1 mp2]|] eqn:Hcm; [|done]. exfalso.
      destruct (proj2 (lookup_lt_is_Some (images_1 inp) 0)) as [im01 E01].
      { destruct (images_1 inp); [done|simpl; lia]. }
      destruct (proj2 (lookup_lt_is_Some (images_2 inp) b) Hb) as [imb Eb].
      destruct (matched_pair inp mp1 mp2 im01 im02 0 b im01 imb)
        as (t1 & t2 & res1 & res2 & m1 & m2 & _ & Et2 & Hwf1 & Hwf2 &
            _ & Hrows2 & Hcross & _); try done.
      assert (t2 = t) as -> by congruence.
      destruct (cross_match_inv _ _ _ _ Hwf1 Hwf2 Hcross)
        as (c1 & c2 & idx & d2d & _ & Ec2 & Hmatch & _).
      pose proof (wf_col_len _ _ _ Hwf2 Ec2) as L2. simpl in L2.
      destruct c2 as [|q c2]; [by rewrite Hempty in Hmatch|].
      destruct (final_row_source _ _ _ _ _ (Hrows2 0 ltac:(simpl in L2; lia)))
        as [k Hk].
      by apply (Hnone k). }
    split; [done|]. by rewrite analysis_cross_matched, Hcm.
  - intros mp1 mp2 catalog1 Hcm E1 Hn.
    rewrite analysis_cross_matched, Hcm. simpl.
    destruct (cat_sel _ _) as [sel|]; simpl; [|done].
    assert (ref_match (filt1 inp) (filt2 inp) sel mp1 mp2 = None) as ->; [|done].
    destruct (cross_matched_length _ _ _ Hcm) as [L1 _].
    pose proof (lookup_lt_Some _ _ _ E1) as Hpos.
    destruct (proj2 (lookup_lt_is_Some (images_1 inp) 0)) as [im01 E01]; [nia|].
    destruct (proj2 (lookup_lt_is_Some (images_2 inp) 0)) as [im02 E02]; [nia|].
    destruct (matched_pair inp mp1 mp2 im01 im02 0 0 im01 im02)
      as (t1 & t2 & res1 & res2 & m1 & m2 & _ & _ & Hwf1 & Hwf2 &
          _ & _ & Hcross & Em1 & _); try done.
    simpl in Em1. assert (m1 = catalog1) as -> by congruence.
    destruct (cross_match_inv _ _ _ _ Hwf1 Hwf2 Hcross)
      as (_ & _ & _ & _ & _ & _ & _ & _ & _ & Hwfc & _).
    unfold ref_match.
    destruct (float_col sel "ra_in") as [ra|]; simpl; [|done].
    destruct (float_col sel "dec_in") as [de|]; simpl; [|done].
    rewrite E1. simpl.
    destruct (mp2 !! 0) as [catalog2|]; simpl; [|done].
    destruct (coord_col catalog1 "radec") as [c1|] eqn:Ec1; simpl; [|done].
    apply coord_col_Some in Ec1.
    pose proof (wf_col_len _ _ _ Hwfc Ec1) as Lc. simpl in Lc.
    destruct c1 as [|q c1]; [|simpl in Lc; lia].
    by rewrite Hempty.
Qed.

(** X10.  Under the oracle contract the cells up to the cross-match
    return, when every image has its loaded photometry catalogue and the
    catalogue of every filter-2 image has a valid detection. *)
Theorem cross_matched_returns `{Ext : Externals} (inp : Inputs) :
  oracle_contract →
  Forall phot_table (results_1 inp) → Forall phot_table (results_2 inp) →
  length (images_1 inp) ≤ length (results_1 inp) →
  length (images_2 inp) ≤ length (results_2 inp) →
  (∀ im02 b t, images_2 inp !! 0 = Some im02 → b < length (images_2 inp) →
               results_2 inp !! b = Some t →
               ∃ k, valid_detection (shape im02) (row t k)) →
  is_Some (cross_matched inp).
Proof.
  intros Hor Hall1 Hall2 Hlen1 Hlen2 Hvalid.
  destruct (results_clean_total _ _ (filt1 inp) Hlen1 Hall1) as [clean1 Hc1].
  destruct (results_clean_total _ _ (filt2 inp) Hlen2 Hall2) as [clean2 Hc2].
  pose proof (results_clean_pixel_tables _ _ _ _ Hall1 Hc1) as Hp1.
  pose proof (results_clean_pixel_tables _ _ _ _ Hall2 Hc2) as Hp2.
  destruct (results_clean_inv _ _ _ _ Hc1) as [Lc1 _].
  destruct (results_clean_inv _ _ _ _ Hc2) as [Lc2 Hci2].
  destruct (results_final_total (images_1 inp) clean1) as [final1 Hf1];
    [lia|done|].
  destruct (results_final_total (images_2 inp) clean2) as [final2 Hf2];
    [lia|done|].
  pose proof (results_final_sky_tables _ _ _ Hp1 Hf1) as Hs1.
  pose proof (results_final_sky_tables _ _ _ Hp2 Hf2) as Hs2.
  destruct (results_final_inv _ _ _ Hf2) as [Lf2 _].
  destruct (matches_phot_returns final1 final2 Hor Hs1 Hs2) as (mp1 & mp2 & Hm).
  { apply Forall_lookup. intros b res Eb.
    assert (b < length (images_2 inp)) as Hb
      by (apply lookup_lt_Some in Eb; lia).
    destruct (Hci2 b Hb) as (im02 & t & _ & E02 & Et & _).
    destruct (Hvalid im02 b t E02 Hb Et) as [k Hk].
    by eapply (final_nonempty _ _ _ _ _ b res t im02 k Hall2 Hc2 Hf2). }
  exists (mp1, mp2). unfold cross_matched.
  rewrite Hc1, Hc2. simpl. rewrite Hf1, Hf2. simpl. done.
Qed.

(** ** 2. The directory of the figures *)

Lemma path_exists_figures_dir (fs : FS) :
  path_exists fs figures_dir = true ↔
  entries fs !! "FIGURES" = Some Dir ∧ searchable fs = true.
Proof.
  unfold path_exists. rewrite figures_dir_name. simpl.
  destruct (searchable fs), (entries fs !! "FIGURES") as [[|c| |]|]; simpl;
    split; try done; by intros [? ?].
Qed.

Lemma figures_cell_twice (fs fs' : FS) :
  figures_cell fs = Some fs' →
  path_exists fs' figures_dir = true ∧ figures_cell fs' = Some fs'.
Proof.
  intros H.
  assert (path_exists fs' figures_dir = true) as Hdir.
  { apply path_exists_figures_dir.
    destruct (figures_cell_spec _ _ H)
      as [(Hd & Es & ->)|(_ & _ & _ & He & Es' & _)]; [done|].
    rewrite He. split; [apply lookup_insert_eq|done]. }
  split; [done|]. unfold figures_cell. by rewrite Hdir.
Qed.

(** X15.  After the cell the directory exists, and the cell is idempotent:
    a second run of the notebook leaves the file system as the first run
    left it. *)
Theorem rerun_leaves_file_system_unchanged `{Ext : Externals}
    (load : FS → option Inputs) (fs : FS) :
  (∀ fs', figures_cell fs = Some fs' →
          path_exists fs' figures_dir = true ∧ figures_cell fs' = Some fs') ∧
  (run load (run load fs).1).1 = (run load fs).1.
Proof.
  split.
  - intros fs' H. exact (figures_cell_twice fs fs' H).
  - unfold run. destruct (figures_cell fs) as [fs'|] eqn:E; simpl.
    + destruct (figures_cell_twice _ _ E) as [_ ->]. done.
    + by rewrite E.
Qed.

(** ** 3. The images by detector and filter *)

(** *** Loops whose body may raise *)

Lemma for_each_inv {S A} (body : S → A → option S) (I : S → list A → Prop) l :
  (∀ st seen x st', I st seen → body st x = Some st' → I st' (seen ++ [x])) →
  ∀ st seen st', I st seen → for_each body st l = Some st' → I st' (seen ++ l).
Proof.
  intros Hstep. induction l as [|x l IH]; intros st seen st' HI; simpl.
  - intros [= <-]. by rewrite app_nil_r.
  - destruct (body st x) as [st1|] eqn:E; simpl; [|done].
    intros Hrest. rewrite cons_middle, app_assoc.
    eapply IH; [|done]. by eapply Hstep.
Qed.

Lemma for_each_is_Some {S A} (body : S → A → option S)
    (I : S → list A → Prop) (P : A → Prop) l :
  (∀ st seen x st', I st seen → body st x = Some st' → I st' (seen ++ [x])) →
  (∀ st seen x, I st seen → P x → is_Some (body st x)) →
  ∀ st seen, I st seen → Forall P l → is_Some (for_each body st l).
Proof.
  intros Hstep Hsome. induction l as [|x l IH]; intros st seen HI HP; simpl;
    [done|].
  apply Forall_cons in HP as [Hx HP].
  destruct (Hsome st seen x HI Hx) as [st1 E]. rewrite E. simpl.
  eapply IH; [|done]. by eapply Hstep.
Qed.

(** *** [sorted] and [dict.fromkeys] *)

Lemma leb_trans (a b c : string) :
  String.leb a b = true → String.leb b c = true → String.leb a c = true.
Proof.
  unfold String.leb.
  destruct (String.compare a b) eqn:E1;
    [apply String.compare_eq_iff in E1 as ->; done| |done].
  destruct (String.compare b c) eqn:E2;
    [apply String.compare_eq_iff in E2 as <-; by rewrite E1| |done].
  intros _ _.
  apply OrderedTypeEx.String_as_OT.cmp_lt in E1, E2.
  pose proof (OrderedTypeEx.String_as_OT.lt_trans _ _ _ E1 E2) as H.
  apply OrderedTypeEx.String_as_OT.cmp_lt in H.
  unfold OrderedTypeEx.String_as_OT.cmp in H. by rewrite H.
Qed.

Lemma leb_ne_ltb (a b : string) :
  String.leb a b = true → a ≠ b → String.ltb a b = true.
Proof.
  unfold String.leb, String.ltb.
  destruct (String.compare a b) eqn:E; try done.
  apply String.compare_eq_iff in E. done.
Qed.

Lemma fromkeys_acc (acc l : list string) :
  NoDup acc →
  NoDup (foldl (λ acc x, if decide (x ∈ acc) then acc else acc ++ [x]) acc l) ∧
  ∀ x, x ∈ foldl (λ acc x, if decide (x ∈ acc) then acc else acc ++ [x]) acc l
       ↔ x ∈ acc ∨ x ∈ l.
Proof.
  revert acc. induction l as [|a l IH]; intros acc Hnd; simpl.
  - split; [done|]. intros x. rewrite elem_of_nil. tauto.
  - destruct (decide (a ∈ acc)) as [Ha|Ha].
    + destruct (IH acc Hnd) as [H1 H2]. split; [done|].
      intros x. rewrite H2, elem_of_cons. split; [tauto|].
      intros [|[->|]]; tauto.
    + destruct (IH (acc ++ [a])) as [H1 H2].
      { apply NoDup_app. split; [done|]. split; [|apply NoDup_singleton].
        intros x Hx Hx'. apply list_elem_of_singleton in Hx'. by subst. }
      split; [done|]. intros x.
      rewrite H2, elem_of_app, list_elem_of_singleton, elem_of_cons. tauto.
Qed.

Lemma NoDup_fromkeys l : NoDup (fromkeys l).
Proof. apply fromkeys_acc, NoDup_nil_2. Qed.

Lemma elem_of_fromkeys l x : x ∈ fromkeys l ↔ x ∈ l.
Proof.
  unfold fromkeys. rewrite (proj2 (fromkeys_acc [] l (NoDup_nil_2))).
  rewrite elem_of_nil. tauto.
Qed.

Lemma insert_sorted_perm x l : insert_sorted x l ≡ₚ x :: l.
Proof.
  induction l as [|y l IH]; simpl; [done|].
  destruct (String.leb x y); [done|]. rewrite IH. apply Permutation_swap.
Qed.

Lemma sorted_perm l : sorted l ≡ₚ l.
Proof.
  unfold sorted. induction l as [|x l IH]; simpl; [done|].
  by rewrite insert_sorted_perm, IH.
Qed.

Lemma elem_of_sorted l x : x ∈ sorted l ↔ x ∈ l.
Proof. by rewrite sorted_perm. Qed.

Lemma insert_sorted_strongly x l :
  StronglySorted (λ a b, String.leb a b = true) l →
  StronglySorted (λ a b, String.leb a b = true) (insert_sorted x l).
Proof.
  induction 1 as [|y l Hs IH Hy]; simpl.
  - constructor; constructor.
  - destruct (String.leb x y) eqn:E.
    + constructor; [by constructor|]. constructor; [done|].
      eapply Forall_impl; [exact Hy|]. intros z Hz. simpl in Hz.
      by eapply leb_trans.
    + constructor; [done|]. rewrite insert_sorted_perm. constructor; [|done].
      destruct (String.leb_total x y) as [H|H]; [congruence|done].
Qed.

Lemma sorted_strongly l :
  StronglySorted (λ a b, String.leb a b = true) (sorted l).
Proof.
  unfold sorted. induction l as [|x l IH]; simpl; [constructor|].
  by apply insert_sorted_strongly.
Qed.

Lemma StronglySorted_lookup {A} (R : A → A → Prop) l i j a b :
  StronglySorted R l → i < j → l !! i = Some a → l !! j = Some b → R a b.
Proof.
  intros Hs. revert i j. induction Hs as [|x l Hs IH Hx]; intros i j Hij; [done|].
  destruct j as [|j]; [lia|]. destruct i as [|i]; simpl.
  - intros [= ->] Hb. rewrite Forall_forall in Hx. apply Hx.
    by eapply list_elem_of_lookup_2.
  - apply IH. lia.
Qed.

(** A sorted list without duplicates is in strictly increasing order. *)
Lemma sorted_strictly l : NoDup l → strictly_increasing (sorted l).
Proof.
  intros Hnd i j a b Hij Ea Eb. apply leb_ne_ltb.
  - by eapply (StronglySorted_lookup _ _ i j a b (sorted_strongly l)).
  - intros ->. rewrite <- sorted_perm in Hnd.
    pose proof (NoDup_lookup _ _ _ _ Hnd Ea Eb). lia.
Qed.

(** *** Dictionaries *)

Lemma foldl_setdefault_lookup {V} (v : V) l (m : gmap string V) k :
  foldl (λ m x, setdefault x v m) m l !! k =
    match m !! k with
    | Some w => Some w
    | None => if decide (k ∈ l) then Some v else None
    end.
Proof.
  revert m. induction l as [|x l IH]; intros m; cbn [foldl].
  - destruct (m !! k); [done|]. rewrite decide_False; [done|apply not_elem_of_nil].
  - rewrite IH. unfold setdefault. destruct (m !! x) as [w|] eqn:Ex.
    + destruct (m !! k) eqn:Ek; [done|]. assert (k ≠ x) by congruence.
      destruct (decide (k ∈ l)) as [H1|H1].
      * rewrite decide_True; [done|by right].
      * rewrite decide_False; [done|]. rewrite elem_of_cons. tauto.
    + destruct (decide (k = x)) as [->|Hne].
      * rewrite lookup_insert_eq, Ex. rewrite decide_True; [done|by left].
      * rewrite lookup_insert_ne by done. destruct (m !! k); [done|].
        destruct (decide (k ∈ l)) as [H1|H1].
        -- rewrite decide_True; [done|by right].
        -- rewrite decide_False; [done|]. rewrite elem_of_cons. tauto.
Qed.

Lemma foldl_insert_lookup {V} (v : V) l (m : gmap string V) k :
  foldl (λ m d, <[ d := v ]> m) m l !! k =
    if decide (k ∈ l) then Some v else m !! k.
Proof.
  revert m. induction l as [|x l IH]; intros m; cbn [foldl].
  - rewrite decide_False; [done|apply not_elem_of_nil].
  - rewrite IH. destruct (decide (k ∈ l)) as [H1|H1].
    + rewrite decide_True; [done|by right].
    + destruct (decide (k = x)) as [->|Hne].
      * rewrite lookup_insert_eq. rewrite decide_True; [done|by left].
      * rewrite lookup_insert_ne by done.
        rewrite decide_False; [done|]. rewrite elem_of_cons. tauto.
Qed.

(** *** The first loop *)

Section FirstLoop.
Context `{Py : Builtins}.

Lemma channel_of_read_keys header d f long :
  channel_of header = Some (d, f, long) → read_keys header = Some (d, f).
Proof.
  unfold channel_of. destruct (read_keys header) as [[d' f']|]; simpl; [|done].
  destruct (py_float _); simpl; [|done]. by intros [= -> -> _].
Qed.

(** The channel of an image is a function of the name of its filter. *)
Lemma channel_of_filter header header' d d' f long long' :
  channel_of header = Some (d, f, long) →
  channel_of header' = Some (d', f, long') → long = long'.
Proof.
  unfold channel_of.
  destruct (read_keys header) as [[d1 f1]|]; simpl; [|done].
  destruct (read_keys header') as [[d2 f2]|]; simpl; [|done].
  destruct (py_float (String.substring 1 2 f1)) as [wv|] eqn:E1; simpl; [|done].
  destruct (py_float (String.substring 1 2 f2)) as [wv'|] eqn:E2; simpl; [|done].
  intros [= -> -> <-] [= -> Ef <-]. subst f2. congruence.
Qed.

Lemma has_detector_snoc seen im d0 f0 long b d :
  channel_of im.2 = Some (d0, f0, long) →
  has_detector (seen ++ [im]) b d ↔ has_detector seen b d ∨ (d = d0 ∧ b = long).
Proof.
  intros Hch. unfold has_detector. split.
  - intros (im' & f & Hin & Hch'). apply elem_of_app in Hin as [Hin|Hin].
    + left. by exists im', f.
    + apply list_elem_of_singleton in Hin as ->. right. split; congruence.
  - intros [(im' & f & Hin & Hch')|[-> ->]].
    + exists im', f. split; [|done]. apply elem_of_app. by left.
    + exists im, f0. split; [|done]. apply elem_of_app. right.
      by apply list_elem_of_singleton.
Qed.

Lemma has_filter_snoc seen im d0 f0 long b f :
  channel_of im.2 = Some (d0, f0, long) →
  has_filter (seen ++ [im]) b f ↔ has_filter seen b f ∨ (f = f0 ∧ b = long).
Proof.
  intros Hch. unfold has_filter. split.
  - intros (im' & d & Hin & Hch'). apply elem_of_app in Hin as [Hin|Hin].
    + left. by exists im', d.
    + apply list_elem_of_singleton in Hin as ->. right. split; congruence.
  - intros [(im' & d & Hin & Hch')|[-> ->]].
    + exists im', d. split; [|done]. apply elem_of_app. by left.
    + exists im, d0. split; [|done]. apply elem_of_app. right.
      by apply list_elem_of_singleton.
Qed.

Lemma elem_of_grown (long b : bool) (l : list string) x0 x :
  x ∈ (if long then (if b then l ++ [x0] else l)
       else (if b then l else l ++ [x0]))
  ↔ x ∈ l ∨ (x = x0 ∧ b = long).
Proof.
  destruct long, b; rewrite ?elem_of_app, ?list_elem_of_singleton;
    split; try tauto; intros [|[]]; try tauto; discriminate.
Qed.

Lemma enum_inv_initial : enum_inv initial_state [].
Proof.
  unfold enum_inv. simpl. split_and!; try done.
  - intros d. rewrite elem_of_nil. split; [done|].
    intros (im & f & Hin & _). by apply elem_of_nil in Hin.
  - intros d. rewrite elem_of_nil. split; [done|].
    intros (im & f & Hin & _). by apply elem_of_nil in Hin.
  - intros d. rewrite elem_of_nil. split; [done|].
    intros (im & f & Hin & _). by apply elem_of_nil in Hin.
  - intros d. rewrite elem_of_nil. split; [done|].
    intros (im & f & Hin & _). by apply elem_of_nil in Hin.
Qed.

Lemma enum_step_inv st seen im st' :
  enum_inv st seen → enum_step st im = Some st' → enum_inv st' (seen ++ [im]).
Proof.
  intros (Hds & Hdl & Hfs & Hfl & Hms & Hml & Hdi & _ & _ & _ & _ & Hall).
  unfold enum_step.
  destruct (channel_of im.2) as [[[d0 f0] long]|] eqn:Hch; [|done].
  cbn [mbind option_bind]. intros [= <-].
  pose proof (λ b d, has_detector_snoc seen im d0 f0 long b d Hch) as Hd.
  pose proof (λ b f, has_filter_snoc seen im d0 f0 long b f Hch) as Hf.
  assert (∀ d, d ∈ (if long then det_short st else det_short st ++ [d0])
               ↔ d ∈ det_short st ∨ (d = d0 ∧ false = long)) as Es.
  { intros d. apply (elem_of_grown long false). }
  assert (∀ d, d ∈ (if long then det_long st ++ [d0] else det_long st)
               ↔ d ∈ det_long st ∨ (d = d0 ∧ true = long)) as El.
  { intros d. apply (elem_of_grown long true). }
  assert (∀ f, f ∈ (if long then ff_short st else ff_short st ++ [f0])
               ↔ f ∈ ff_short st ∨ (f = f0 ∧ false = long)) as Esf.
  { intros f. apply (elem_of_grown long false). }
  assert (∀ f, f ∈ (if long then ff_long st ++ [f0] else ff_long st)
               ↔ f ∈ ff_long st ∨ (f = f0 ∧ true = long)) as Elf.
  { intros f. apply (elem_of_grown long true). }
  unfold enum_inv.
  cbn [ff_short det_short det_long ff_long dict_filter_short dict_filter_long
       dict_images detlist_short detlist_long filtlist_short filtlist_long].
  split_and!; try done.
  - intros d. rewrite Es, Hd, Hds. done.
  - intros d. rewrite El, Hd, Hdl. done.
  - intros f. rewrite Esf, Hf, Hfs. done.
  - intros f. rewrite Elf, Hf, Hfl. done.
  - intros f. rewrite foldl_setdefault_lookup, Hms.
    destruct (decide (f ∈ ff_short st)) as [H1|H1].
    + rewrite decide_True; [done|]. apply Esf. by left.
    + done.
  - intros f. rewrite foldl_setdefault_lookup, Hml.
    destruct (decide (f ∈ ff_long st)) as [H1|H1].
    + rewrite decide_True; [done|]. apply Elf. by left.
    + done.
  - intros d. rewrite !foldl_insert_lookup.
    destruct (decide (d ∈ sorted (fromkeys _))) as [H1|H1].
    + rewrite elem_of_sorted, elem_of_fromkeys in H1. by rewrite decide_True.
    + rewrite elem_of_sorted, elem_of_fromkeys in H1.
      rewrite (decide_False (P := d ∈ (if long then det_long st ++ [d0]
                                       else det_long st))) by done.
      destruct (decide (d ∈ sorted (fromkeys _))) as [H2|H2].
      * rewrite elem_of_sorted, elem_of_fromkeys in H2. by rewrite decide_True.
      * rewrite elem_of_sorted, elem_of_fromkeys in H2.
        rewrite (decide_False (P := d ∈ (if long then det_short st
                                         else det_short st ++ [d0]))) by done.
        rewrite Hdi. rewrite El in H1. rewrite Es in H2.
        rewrite decide_False by tauto. rewrite decide_False by tauto. done.
  - apply Forall_app. split; [done|]. apply Forall_singleton. by rewrite Hch.
Qed.

(** The first loop never raises on images whose headers classify. *)
Lemma enum_step_is_Some st im :
  is_Some (channel_of im.2) → is_Some (enum_step st im).
Proof.
  intros [[[d f] long] Hch]. unfold enum_step. rewrite Hch. by eexists.
Qed.

Lemma initial_dict_images_empty d inner :
  initial_dict_images !! d = Some inner → inner = ∅.
Proof.
  revert d inner. change (map_Forall (λ _ inner, inner = ∅) initial_dict_images).
  unfold initial_dict_images.
  repeat (apply map_Forall_insert_2; [done|]). apply map_Forall_empty.
Qed.

(** The keys of [dict_images] after the first loop. *)
Lemma enum_inv_slot st seen d f :
  enum_inv st seen →
  slot (dict_images st) d f =
    if decide (d ∈ det_long st)
    then (if decide (f ∈ ff_long st) then Some [] else None)
    else if decide (d ∈ det_short st)
         then (if decide (f ∈ ff_short st) then Some [] else None)
         else None.
Proof.
  intros (_ & _ & _ & _ & Hms & Hml & Hdi & _). unfold slot. rewrite Hdi.
  destruct (decide (d ∈ det_long st)); simpl; [by rewrite Hml|].
  destruct (decide (d ∈ det_short st)); simpl; [by rewrite Hms|].
  destruct (initial_dict_images !! d) as [inner|] eqn:E; simpl; [|done].
  apply initial_dict_images_empty in E as ->. done.
Qed.

End FirstLoop.

(** *** The second loop *)

Section SecondLoop.
Context `{Py : Builtins}.

Lemma paths_of_snoc seen im d f :
  paths_of (seen ++ [im]) d f =
    paths_of seen d f ++
      (if decide (read_keys im.2 = Some (d, f)) then [im.1] else []).
Proof.
  unfold paths_of. rewrite filter_app, fmap_app. f_equal.
  rewrite filter_cons, filter_nil. by destruct (decide _).
Qed.

Lemma elem_of_paths_of images d f p :
  p ∈ paths_of images d f →
  ∃ im, im ∈ images ∧ read_keys im.2 = Some (d, f).
Proof.
  unfold paths_of. intros H. apply list_elem_of_fmap in H as (im & _ & Hin).
  apply list_elem_of_filter in Hin as [Hk Hin]. by exists im.
Qed.

Lemma file_step_inv di0 di seen im di' :
  file_inv di0 di seen → file_step di im = Some di' →
  file_inv di0 di' (seen ++ [im]).
Proof.
  intros [Hslot Hall]. unfold file_step.
  destruct (read_keys im.2) as [[d0 f0]|] eqn:Hk; [|done].
  cbn [mbind option_bind].
  destruct (di !! d0) as [inner|] eqn:Ed; [|done]. cbn [mbind option_bind].
  destruct (inner !! f0) as [entry|] eqn:Ef; [|done]. cbn [mbind option_bind].
  intros [= <-].
  assert (slot di d0 f0 = Some entry) as Hs.
  { unfold slot. rewrite Ed. simpl. done. }
  pose proof Hs as Hs'. rewrite Hslot in Hs'.
  destruct (slot di0 d0 f0) as [e0|] eqn:E0; [|done]. simpl in Hs'.
  injection Hs' as Hentry.
  assert ((if decide (length entry = 0) then [im.1] else entry ++ [im.1])
          = entry ++ [im.1]) as ->.
  { destruct (decide _) as [L|]; [|done]. by destruct entry. }
  split.
  - intros d f. rewrite paths_of_snoc.
    destruct (decide (d = d0)) as [->|Hd].
    + destruct (decide (f = f0)) as [->|Hf].
      * unfold slot at 1. rewrite lookup_insert_eq. simpl.
        rewrite lookup_insert_eq, E0. simpl.
        rewrite decide_True by done. by rewrite Hentry.
      * rewrite decide_False by (intros E; rewrite Hk in E; congruence).
        rewrite app_nil_r, <- Hslot. unfold slot.
        rewrite lookup_insert_eq, Ed. simpl. by rewrite lookup_insert_ne.
    + rewrite decide_False by (intros E; rewrite Hk in E; congruence).
      rewrite app_nil_r, <- Hslot. unfold slot. by rewrite lookup_insert_ne.
  - apply Forall_app. split; [done|]. apply Forall_singleton.
    exists d0, f0. by rewrite E0.
Qed.

Lemma file_step_is_Some di0 di seen im d f :
  file_inv di0 di seen → read_keys im.2 = Some (d, f) →
  is_Some (slot di0 d f) → is_Some (file_step di im).
Proof.
  intros [Hslot _] Hk [e0 E0]. unfold file_step. rewrite Hk.
  cbn [mbind option_bind].
  specialize (Hslot d f). rewrite E0 in Hslot. simpl in Hslot.
  unfold slot in Hslot.
  destruct (di !! d) as [inner|]; [|done]. simpl in Hslot.
  cbn [mbind option_bind]. rewrite Hslot. by eexists.
Qed.

Lemma file_inv_initial st seen : enum_inv st seen →
  file_inv (dict_images st) (dict_images st) [].
Proof.
  intros Hinv. split; [|done]. intros d f.
  rewrite (enum_inv_slot st seen d f Hinv).
  repeat destruct (decide _); done.
Qed.

Lemma image_paths_slot di det filt :
  image_paths di det filt =
    entry ← slot di det filt;
    if decide (length entry = 0) then None else Some entry.
Proof.
  unfold image_paths, slot. destruct (di !! det); simpl; [|done]. done.
Qed.

(** What the two loops leave behind. *)
Lemma enumerate_inv images st di :
  enumerate images = Some (st, di) →
  enum_inv st images ∧ file_inv (dict_images st) di images.
Proof.
  unfold enumerate.
  destruct (for_each enum_step initial_state images) as [st1|] eqn:E1;
    [|done]. cbn [mbind option_bind].
  destruct (for_each file_step (dict_images st1) images) as [di1|] eqn:E2;
    [|done]. cbn [mbind option_bind]. intros [= <- <-].
  pose proof (for_each_inv enum_step enum_inv images
                (λ st seen x st', enum_step_inv st seen x st')
                initial_state [] st1 enum_inv_initial E1) as H1.
  simpl in H1. split; [done|].
  pose proof (for_each_inv file_step (file_inv (dict_images st1)) images
                (λ di seen x di', file_step_inv (dict_images st1) di seen x di')
                (dict_images st1) [] di1 (file_inv_initial _ _ H1) E2) as H2.
  done.
Qed.

End SecondLoop.

(** X11.  When the two loops return, the images are grouped by detector
    and filter: [dict_images[det][filt]['images']] is the list of the paths
    of the images filed under [(det, filt)], in the order of the sorted
    list of files, and reading it raises [KeyError] exactly when no image
    is filed there.  So the list of images of a filter that the later cells
    loop over is never empty. *)
Theorem images_are_grouped_by_detector_and_filter `{Py : Builtins}
    (images : list (string * gmap string string)) (st : EnumState)
    (di : gmap string (gmap string (list string))) :
  enumerate images = Some (st, di) →
  ∀ det filt,
    image_paths di det filt =
      match paths_of images det filt with
      | [] => None
      | p :: l => Some (p :: l)
      end.
Proof.
  intros Hrun det filt.
  destruct (enumerate_inv _ _ _ Hrun) as [_ [Hslot Hall]].
  rewrite image_paths_slot, Hslot.
  destruct (slot (dict_images st) det filt) as [e0|] eqn:E0; simpl.
  - by destruct (paths_of images det filt).
  - destruct (paths_of images det filt) as [|p l] eqn:Ep; [done|]. exfalso.
    destruct (elem_of_paths_of images det filt p) as (im & Hin & Hk).
    { rewrite Ep. apply list_elem_of_here. }
    rewrite Forall_forall in Hall.
    destruct (Hall im Hin) as (d & f & Hk' & Hs).
    rewrite Hk in Hk'. injection Hk' as <- <-. rewrite E0 in Hs.
    by destruct Hs.
Qed.

(** X12.  The two loops return exactly when the header of every image
    classifies (it has the three keywords and the second and third
    characters of the filter name read as a number) and no detector has
    both a short-wavelength and a long-wavelength image: the keys of such a
    detector are the long-wavelength filters only, and filing its
    short-wavelength image raises [KeyError]. *)
Theorem enumerate_returns_iff `{Py : Builtins}
    (images : list (string * gmap string string)) :
  is_Some (enumerate images) ↔
  Forall (λ im, is_Some (channel_of im.2)) images ∧
  ∀ d, ¬ (has_detector images false d ∧ has_detector images true d).
Proof.
  split.
  - intros [[st di] Hrun].
    destruct (enumerate_inv _ _ _ Hrun) as [Hinv [_ Hall]].
    pose proof (enum_inv_slot st images) as Hslot.
    pose proof Hinv as (Hds & Hdl & Hfs & Hfl & _ & _ & _ & _ & _ & _ & _ & Hch).
    split; [done|].
    intros d [(im & f & Hin & Him) Hlong].
    rewrite Forall_forall in Hall.
    destruct (Hall im Hin) as (d' & f' & Hk & Hs).
    rewrite (channel_of_read_keys _ _ _ _ Him) in Hk. injection Hk as <- <-.
    rewrite Hslot in Hs by done.
    rewrite decide_True in Hs by (by apply Hdl).
    destruct (decide (f ∈ ff_long st)) as [Hf|]; [|by destruct Hs].
    apply Hfl in Hf as (im' & d' & _ & Him').
    by pose proof (channel_of_filter _ _ _ _ _ _ _ Him Him').
  - intros [Hch Hno].
    destruct (for_each_is_Some enum_step enum_inv
                (λ im, is_Some (channel_of im.2)) images
                (λ st seen x st', enum_step_inv st seen x st')
                (λ st seen x _ Hx, enum_step_is_Some st x Hx)
                initial_state [] enum_inv_initial Hch) as [st E1].
    pose proof (for_each_inv enum_step enum_inv images
                  (λ st seen x st', enum_step_inv st seen x st')
                  initial_state [] st enum_inv_initial E1) as Hinv.
    simpl in Hinv.
    pose proof (enum_inv_slot st images) as Hslot.
    pose proof Hinv as (Hds & Hdl & Hfs & Hfl & _).
    destruct (for_each_is_Some file_step (file_inv (dict_images st))
                (λ im, ∃ d f, read_keys im.2 = Some (d, f) ∧
                              is_Some (slot (dict_images st) d f)) images
                (λ di seen x di', file_step_inv (dict_images st) di seen x di')
                (λ di seen x Hi '(ex_intro _ d (ex_intro _ f (conj Hk Hs))),
                   file_step_is_Some (dict_images st) di seen x d f Hi Hk Hs)
                (dict_images st) [] (file_inv_initial _ _ Hinv)) as [di E2].
    { apply Forall_forall. intros im Hin. rewrite Forall_forall in Hch.
      destruct (Hch im Hin) as [[[d f] long] Him].
      exists d, f. split; [by eapply channel_of_read_keys|].
      rewrite Hslot by done.
      destruct long.
      - rewrite decide_True by (apply Hdl; by exists im, f).
        rewrite decide_True by (apply Hfl; by exists im, d). by eexists.
      - rewrite decide_False.
        + rewrite decide_True by (apply Hds; by exists im, f).
          rewrite decide_True by (apply Hfs; by exists im, d). by eexists.
        + intros Hd. apply Hdl in Hd. apply (Hno d). split; [|done].
          by exists im, f. }
    exists (st, di). unfold enumerate. rewrite E1. cbn [mbind option_bind].
    rewrite E2. done.
Qed.

(** X13.  The four lists that the first cell prints, when the loops
    return: the detectors and the filters of the short-wavelength and of
    the long-wavelength images, each detector and filter once, in strictly
    increasing order. *)
Theorem printed_lists_are_exact_and_sorted `{Py : Builtins}
    (images : list (string * gmap string string)) (st : EnumState)
    (di : gmap string (gmap string (list string))) :
  enumerate images = Some (st, di) →
  (∀ d, d ∈ detlist_short st ↔ has_detector images false d) ∧
  (∀ d, d ∈ detlist_long st ↔ has_detector images true d) ∧
  (∀ f, f ∈ filtlist_short st ↔ has_filter images false f) ∧
  (∀ f, f ∈ filtlist_long st ↔ has_filter images true f) ∧
  strictly_increasing (detlist_short st) ∧
  strictly_increasing (detlist_long st) ∧
  strictly_increasing (filtlist_short st) ∧
  strictly_increasing (filtlist_long st).
Proof.
  intros Hrun. destruct (enumerate_inv _ _ _ Hrun) as [Hinv _].
  destruct Hinv as (Hds & Hdl & Hfs & Hfl & Hms & Hml & _ &
                    -> & -> & -> & -> & _).
  assert (∀ (m : gmap string (list string)) (l : list string) (f : string),
            (∀ f, m !! f = if decide (f ∈ l) then Some [] else None) →
            f ∈ (map_to_list m).*1 ↔ f ∈ l) as Hkeys.
  { intros m l f Hm. rewrite list_elem_of_fmap. split.
    - intros ([f' e] & -> & Hin). apply elem_of_map_to_list in Hin.
      rewrite Hm in Hin. simpl. by destruct (decide (f' ∈ l)).
    - intros Hin. exists (f, []). split; [done|].
      apply elem_of_map_to_list. rewrite Hm. by rewrite decide_True. }
  split_and!.
  - intros d. by rewrite elem_of_sorted, elem_of_fromkeys.
  - intros d. by rewrite elem_of_sorted, elem_of_fromkeys.
  - intros f. by rewrite elem_of_sorted, (Hkeys _ _ _ Hms).
  - intros f. by rewrite elem_of_sorted, (Hkeys _ _ _ Hml).
  - apply sorted_strictly, NoDup_fromkeys.
  - apply sorted_strictly, NoDup_fromkeys.
  - apply sorted_strictly, NoDup_fst_map_to_list.
  - apply sorted_strictly, NoDup_fst_map_to_list.
Qed.

(** ** The further statements at work on the small inputs *)

Lemma demo_match_empty (m : list (float64 * float64)) :
  @match_coordinates_sky Demo.ext m [] = None.
Proof.
  change (Demo.match_sky m [] = None). unfold Demo.match_sky.
  by destruct (mapM (Demo.nearest []) m).
Qed.

Section RangeFacts.
Context `{Ext : Externals}.

Lemma valid_detection_in_range shape0 (t : Table) k :
  phot_table t → valid_detection shape0 (row t k) → k < nrows t.
Proof.
  intros (Hwf & x & y & flux & unc & Hx & _) (xv & _ & _ & Ex & _).
  rewrite (row_float t k _ _ Hx) in Ex.
  pose proof (wf_col_len _ _ _ Hwf Hx) as L. simpl in L. rewrite <- L.
  apply lookup_lt_is_Some. destruct (x !! k); [by eexists|done].
Qed.

End RangeFacts.

Section WorkedMore.
#[local] Existing Instance Demo.ext.
#[local] Existing Instance Demo2.py.

Lemma demo_cross_matched :
  ∃ mp1 mp2, cross_matched Demo.inputs = Some (mp1, mp2).
Proof.
  assert (is_Some (cross_matched Demo.inputs)) as [[mp1 mp2] E] by by_eval.
  by exists mp1, mp2.
Qed.

Lemma demo_two_cross_matched :
  ∃ mp1 mp2, cross_matched Demo2.inputs_two = Some (mp1, mp2).
Proof.
  assert (is_Some (cross_matched Demo2.inputs_two)) as [[mp1 mp2] E] by by_eval.
  by exists mp1, mp2.
Qed.

Lemma demo_analysis : ∃ fig, analysis Demo.inputs = Some fig.
Proof.
  assert (is_Some (analysis Demo.inputs)) as [fig E] by by_eval.
  by exists fig.
Qed.

Lemma demo_two_analysis : ∃ fig, analysis Demo2.inputs_two = Some fig.
Proof.
  assert (is_Some (analysis Demo2.inputs_two)) as [fig E] by by_eval.
  by exists fig.
Qed.

Lemma demo_enumerate : ∃ st di, enumerate Demo2.images = Some (st, di).
Proof.
  assert (is_Some (enumerate Demo2.images)) as [[st di] E] by by_eval.
  by exists st, di.
Qed.

(** X1 on two images of the first filter: the rows matched from the second
    image are detections inside the first image, with the sky positions of
    the second. *)
Lemma matched_rows_are_measured_detections_witness :
  ∃ mp1 mp2 m1 m2,
    cross_matched Demo2.inputs_two = Some (mp1, mp2) ∧ length mp1 = 2 ∧
    results_1 Demo2.inputs_two !! 1 = Some Demo.t3 ∧
    results_2 Demo2.inputs_two !! 0 = Some Demo.t2 ∧
    mp1 !! 1 = Some m1 ∧ mp2 !! 1 = Some m2 ∧ nrows m2 = nrows m1 ∧
    ∀ j, j < nrows m1 →
      final_row (shape Demo.im_a) Demo.im_c "F115W" Demo.t3 (row m1 j) ∧
      final_row (shape Demo.im_b) Demo.im_b "F200W" Demo.t2 (row m2 j).
Proof.
  destruct demo_two_cross_matched as (mp1 & mp2 & E).
  destruct (matched_rows_are_measured_detections Demo2.inputs_two mp1 mp2
              Demo.im_a Demo.im_b) as (L1 & L2 & H);
    [by_eval|by_eval|exact E|reflexivity|reflexivity|].
  destruct (H 1 0 Demo.im_c Demo.im_b eq_refl eq_refl)
    as (t1 & t2 & m1 & m2 & Et1 & Et2 & Em1 & Em2 & Hn & Hrows).
  assert (t1 = Demo.t3) as -> by (symmetry; apply (inj Some); exact Et1).
  assert (t2 = Demo.t2) as -> by (symmetry; apply (inj Some); exact Et2).
  exists mp1, mp2, m1, m2.
  split; [exact E|]. split; [exact L1|]. split; [exact Et1|].
  split; [exact Et2|]. split; [exact Em1|]. split; [exact Em2|].
  split; [exact Hn|exact Hrows].
Defined.

(** X2 on the first pair of matched tables. *)
Lemma matched_pairs_within_threshold_witness :
  ∃ mp1 mp2 m1 m2,
    cross_matched Demo.inputs = Some (mp1, mp2) ∧
    mp1 !! 0 = Some m1 ∧ mp2 !! 0 = Some m2 ∧
    ∀ j, j < nrows m1 →
      ∃ p q, row m1 j !! "radec" = Some (VCoord p) ∧
             row m2 j !! "radec" = Some (VCoord q) ∧
             flt (fdiv (arcsec (separation p q)) pixelscale) max_sep = true.
Proof.
  destruct demo_cross_matched as (mp1 & mp2 & E).
  destruct (cross_matched_length _ _ _ E) as [L1 L2].
  change (length mp1 = 1) in L1. change (length mp2 = 1) in L2.
  destruct (proj2 (lookup_lt_is_Some mp1 0)) as [m1 Em1];
    [rewrite L1; apply le_n|].
  destruct (proj2 (lookup_lt_is_Some mp2 0)) as [m2 Em2];
    [rewrite L2; apply le_n|].
  exists mp1, mp2, m1, m2.
  split; [exact E|]. split; [exact Em1|]. split; [exact Em2|].
  assert (Forall phot_table (results_1 Demo.inputs)) as H1 by by_eval.
  assert (Forall phot_table (results_2 Demo.inputs)) as H2 by by_eval.
  exact (matched_pairs_within_threshold Demo.inputs mp1 mp2
           demo_oracle_contract H1 H2 E 0 m1 m2 Em1 Em2).
Defined.

Lemma demo_counts :
  (fig ← analysis Demo.inputs; Some (n_fov fig, n_matched fig)) = Some (3, 2).
Proof. by_eval. Qed.

(** X3 on the small inputs: three black points, one per selected star,
    two of them red. *)
Lemma red_points_are_among_black_points_witness :
  ∃ fig sel d2d,
    analysis Demo.inputs = Some fig ∧
    cat_sel [Demo.im_a] Demo.lmc = Some sel ∧ nrows sel = 3 ∧
    n_fov fig = nrows sel ∧ n_matched fig = 2 ∧
    (∀ k, k < nrows sel →
       ∃ m1 m2,
         row sel k !! "F115W" = Some (VFloat m1) ∧
         row sel k !! "F200W" = Some (VFloat m2) ∧
         (lmc_all fig).1 !! k = Some (fsub m1 m2) ∧
         (lmc_all fig).2 !! k = Some m1) ∧
    lmc_matched fig = (select (sep_constraint d2d) (lmc_all fig).1,
                       select (sep_constraint d2d) (lmc_all fig).2) ∧
    n_matched fig = count_true (sep_constraint d2d).
Proof.
  destruct demo_analysis as [fig E].
  assert (table_wf (cat Demo.inputs)) as Hwf by by_eval.
  destruct (red_points_are_among_black_points Demo.inputs fig Hwf E)
    as (sel & mp1 & mp2 & c1 & ra & de & co & idx & d2d &
        Hsel & Hn & _ & _ & Hpts & _ & _ & _ & _ & _ & _ & _ & Hred & Hm & _).
  pose proof demo_counts as Hc. rewrite E in Hc. simpl in Hc.
  injection Hc as H1 H2.
  exists fig, sel, d2d.
  split; [exact E|]. split; [exact Hsel|].
  split; [rewrite <- Hn; exact H1|]. split; [exact Hn|]. split; [exact H2|].
  split; [exact Hpts|]. split; [exact Hred|exact Hm].
Defined.

(** X4 on the small inputs. *)
Lemma psf_panel_plots_instrumental_magnitudes_witness :
  ∃ fig mp1 mp2 catalog1 catalog2,
    analysis Demo.inputs = Some fig ∧
    cross_matched Demo.inputs = Some (mp1, mp2) ∧
    mp1 !! 0 = Some catalog1 ∧ mp2 !! 0 = Some catalog2 ∧
    length (psf_all fig).2 = nrows catalog1 ∧
    ∀ j, j < nrows catalog1 →
      ∃ f1 f2,
        row catalog1 j !! "flux_fit" = Some (VFloat f1) ∧
        row catalog2 j !! "flux_fit" = Some (VFloat f2) ∧
        (psf_all fig).2 !! j = Some (fmul minus_2_5 (log10 f1)) ∧
        (psf_all fig).1 !! j =
          Some (fsub (fmul minus_2_5 (log10 f1)) (fmul minus_2_5 (log10 f2))).
Proof.
  destruct demo_analysis as [fig E].
  destruct (psf_panel_plots_instrumental_magnitudes Demo.inputs fig)
    as (mp1 & mp2 & c1 & c2 & Hcm & E1 & E2 & _ & L & H);
    [by_eval|by_eval|exact E|].
  exists fig, mp1, mp2, c1, c2.
  split; [exact E|]. split; [exact Hcm|]. split; [exact E1|].
  split; [exact E2|]. split; [exact L|].
  intros j Hj. destruct (H j Hj) as (f1 & f2 & A & B & _ & _ & C & D).
  exists f1, f2. split; [exact A|]. split; [exact B|]. split; [exact C|exact D].
Defined.

(** X5 on two images of the first filter. *)
Lemma figure_depends_on_first_images_only_witness :
  ∃ fig, analysis Demo2.inputs_two = Some fig ∧
         length (images_1 Demo2.inputs_two) = 2 ∧
         length (images_1 (first_only Demo2.inputs_two)) = 1 ∧
         analysis (first_only Demo2.inputs_two) = Some fig.
Proof.
  destruct demo_two_analysis as [fig E]. exists fig.
  split; [exact E|]. split; [reflexivity|]. split; [reflexivity|].
  exact (figure_depends_on_first_images_only Demo2.inputs_two fig E).
Defined.

(** X6 without an image of the first filter. *)
Lemma no_figure_without_images_witness :
  images_1 Demo2.inputs_no_images = [] ∧ analysis Demo2.inputs_no_images = None.
Proof.
  split; [reflexivity|].
  apply no_figure_without_images. left. reflexivity.
Defined.

(** X7 on the filter F150W, which is among the names and not among the
    columns loaded. *)
Lemma filters_must_be_loaded_columns_witness :
  "F150W" ∈ names ∧ ("F150W" ∉ cat_columns) ∧
  analysis Demo2.inputs_f150w = None.
Proof.
  split; [by_eval|]. split; [refute_by_eval|].
  apply filters_must_be_loaded_columns; [by_eval|].
  left. refute_by_eval.
Defined.

(** X9 on a filter-2 catalogue whose only detection is out of the image. *)
Lemma empty_catalogue_aborts_witness :
  cross_matched Demo2.inputs_out = None ∧ analysis Demo2.inputs_out = None.
Proof.
  destruct (empty_catalogue_aborts Demo2.inputs_out demo_match_empty)
    as [H _]; [by_eval|by_eval|].
  apply (H Demo.im_b 0 Demo2.t_out).
  - discriminate.
  - reflexivity.
  - apply le_n.
  - reflexivity.
  - intros k Hv.
    assert (phot_table Demo2.t_out) as Hp by by_eval.
    pose proof (valid_detection_in_range _ _ _ Hp Hv) as Hk.
    change (k < 1) in Hk.
    destruct k as [|k]; [|inversion Hk as [|? Hk']; inversion Hk'].
    revert Hv. refute_by_eval.
Defined.

(** X10 on the small inputs. *)
Lemma cross_matched_returns_witness : is_Some (cross_matched Demo.inputs).
Proof.
  apply (cross_matched_returns Demo.inputs demo_oracle_contract).
  - by_eval.
  - by_eval.
  - apply le_n.
  - apply le_n.
  - intros im02 b t E0 Hb Et.
    change (b < 1) in Hb.
    destruct b as [|b]; [|inversion Hb as [|? Hb']; inversion Hb'].
    assert (im02 = Demo.im_b) as -> by (symmetry; apply (inj Some); exact E0).
    assert (t = Demo.t2) as -> by (symmetry; apply (inj Some); exact Et).
    exists 0. by_eval.
Defined.

(** X11 on the five files. *)
Lemma images_are_grouped_by_detector_and_filter_witness :
  ∃ st di,
    enumerate Demo2.images = Some (st, di) ∧
    image_paths di "NRCB1" "F115W" = Some ["a_cal.fits"; "c_cal.fits"] ∧
    image_paths di "NRCB1" "F162M" = Some ["e_cal.fits"] ∧
    image_paths di "NRCB5" "F444W" = Some ["d_cal.fits"] ∧
    image_paths di "NRCB1" "F444W" = None ∧
    image_paths di "NRCA1" "F115W" = None.
Proof.
  destruct demo_enumerate as (st & di & E). exists st, di.
  pose proof (images_are_grouped_by_detector_and_filter Demo2.images st di E)
    as H.
  split; [exact E|]. rewrite !H. repeat split; vm_compute; reflexivity.
Defined.

(** X13 on the five files. *)
Lemma printed_lists_are_exact_and_sorted_witness :
  ∃ st di,
    enumerate Demo2.images = Some (st, di) ∧
    (∀ d, d ∈ detlist_short st ↔ has_detector Demo2.images false d) ∧
    (∀ f, f ∈ filtlist_long st ↔ has_filter Demo2.images true f) ∧
    strictly_increasing (detlist_short st) ∧
    strictly_increasing (filtlist_short st).
Proof.
  destruct demo_enumerate as (st & di & E). exists st, di.
  destruct (printed_lists_are_exact_and_sorted Demo2.images st di E)
    as (H1 & _ & _ & H4 & H5 & _ & H7 & _).
  split; [exact E|]. split; [exact H1|]. split; [exact H4|].
  split; [exact H5|exact H7].
Defined.

(** X8 on two images with one catalogue, and on one image with two. *)
Lemma clean_pairs_catalogues_by_position_witness :
  results_clean [Demo.im_a; Demo.im_c] [Demo.t1] "F115W" = None ∧
  results_clean [Demo.im_a] [Demo.t1; Demo.t3] "F115W"
    = results_clean [Demo.im_a] [Demo.t1] "F115W".
Proof.
  destruct (clean_pairs_catalogues_by_position (Ext := Demo.ext))
    as (H1 & _ & H3).
  split.
  - apply H1. apply le_n.
  - exact (H3 [Demo.im_a] [Demo.t1; Demo.t3] "F115W").
Defined.

(** X12 on the five files, and on the five files with a long-wavelength
    image of NRCB1: its image [a_cal.fits] can no longer be filed. *)
Lemma enumerate_returns_iff_witness :
  (Forall (λ im, is_Some (channel_of im.2)) Demo2.images ∧
   ∀ d, ¬ (has_detector Demo2.images false d ∧
           has_detector Demo2.images true d)) ∧
  enumerate Demo2.mixed = None.
Proof.
  split.
  - apply (proj1 (enumerate_returns_iff Demo2.images)). by_eval.
  - destruct (enumerate Demo2.mixed) as [r|] eqn:E; [|reflexivity].
    exfalso.
    destruct (proj1 (enumerate_returns_iff Demo2.mixed)) as [_ Hno].
    { rewrite E. by eexists. }
    apply (Hno "NRCB1"). split.
    + exists ("a_cal.fits", Demo2.header "F115W" "NRCB1" "CLEAR"), "F115W".
      split; by_eval.
    + exists ("f_cal.fits", Demo2.header "F444W" "NRCB1" "CLEAR"), "F444W".
      split; by_eval.
Defined.

(** X15 on the directory of the data. *)
Lemma rerun_leaves_file_system_unchanged_witness :
  (run Demo.load Demo.fs0).1 =
    {| entries := <[ "FIGURES" := Dir ]> (entries Demo.fs0);
       searchable := true; writable := true |} ∧
  (run Demo.load (run Demo.load Demo.fs0).1).1 = (run Demo.load Demo.fs0).1.
Proof.
  split; [reflexivity|].
  exact (proj2 (rerun_leaves_file_system_unchanged Demo.load Demo.fs0)).
Defined.

End WorkedMore.
